(** * Verification of the rosbag-engine core of CaterpillarSoft/studio

    A shallow embedding of the TypeScript sources under
    [src/core/rosbag-engine]: the memory estimator, the channel parser, the
    unindexed MCAP source, the bag source's iterator, the iterator cursor and
    the connection scheduler of the cached file.

    Layout: the embedded program first (one module per source file), the
    theorems afterwards (one [..Facts] module per source file). *)

From Stdlib Require Import ZArith QArith List String Ascii Lia Sorted Permutation.
From Stdlib.Strings Require Import Byte.
From stdpp Require Import base list gmap strings pretty.

Close Scope Q_scope.
Local Set Warnings "-register-all".
Local Open Scope string_scope.
Local Open Scope list_scope.
Local Open Scope Z_scope.

(* ===================================================================== *)
(** * Part I: the embedded program                                        *)
(* ===================================================================== *)

(** ** Exceptions

    A [throw new Error(..)] of the source is the [Throw] outcome of the
    computation; [x <- c ;; k] sequences two computations and propagates the
    first exception, as JavaScript does. *)

Module Js.

Inductive result (A : Type) : Type :=
| Ok (value : A)
| Throw (message : string).
Arguments Ok {A} value.
Arguments Throw {A} message.

Definition bind {A B : Type} (c : result A) (k : A -> result B) : result B :=
  match c with
  | Ok a => k a
  | Throw m => Throw m
  end.

Definition throws {A : Type} (c : result A) : Prop :=
  exists m, c = Throw m.

(** A JavaScript [number]: a finite value (kept exact, as a rational),
    [NaN], or one of the two infinities. *)
Inductive number : Type :=
| NaN
| Finite (q : Q)
| Infinity
| NegInfinity.

Definition of_Z (z : Z) : number := Finite (inject_Z z).

(** [Number.isInteger]: false on [NaN] and on the infinities. *)
Definition Number_isInteger (n : number) : bool :=
  match n with
  | Finite q => (Qden (Qred q) =? 1)%positive
  | _ => false
  end.

(** [Math.max] of two arguments: [NaN] as soon as one argument is [NaN]. *)
Definition Math_max (a b : number) : number :=
  match a, b with
  | NaN, _ | _, NaN => NaN
  | Infinity, _ | _, Infinity => Infinity
  | NegInfinity, x | x, NegInfinity => x
  | Finite p, Finite q => if Qle_bool p q then Finite q else Finite p
  end.

(** [ToNumber] of a value read out of a [Record<string, number>]: a missing
    key reads as [undefined], which converts to [NaN]. *)
Definition ToNumber (v : option number) : number :=
  match v with
  | Some n => n
  | None => NaN
  end.

(** The values [estimateObjectSize] distinguishes with [typeof],
    [Array.isArray], [ArrayBuffer.isView] and [instanceof].  A string is kept
    as its sequence of code units, a typed-array view as its bytes. *)
Inductive value : Type :=
| VNull
| VUndefined
| VBoolean (b : bool)
| VNumber (n : number)
| VBigInt (z : Z)
| VString (s : string)
| VSymbol (description : string)
| VFunction (name : string)
| VArray (elements : list value)
| VTypedArray (bytes : list byte)
| VSet (members : list value)
| VMap (entries : list (value * value))
| VObject (properties : list (string * value)).

End Js.

Notation "x <- c ;; k" := (Js.bind c (fun x => k))
  (at level 100, c at next level, right associativity).

(** ** [@foxglove/rostime]

    The engine imports [Time], [compare], [isLessThan], [isGreaterThan],
    [isTimeInRangeInclusive], [fromNanoSec] and [add] from this package,
    which is not part of the repository.  The comparisons and the conversion
    are given here; [add] stays a parameter of the cursor. *)

Module Rostime.

(** Modelled from the spec: [Time] of [@foxglove/rostime], a pair of
    seconds and nanoseconds. *)
Record Time : Type := mkTime { sec : Z; nsec : Z }.

#[global] Instance Time_eq_dec : EqDecision Time.
Proof. solve_decision. Defined.

(** Modelled from the spec: [compare] of [@foxglove/rostime], the total
    order on times: [secDiff !== 0 ? secDiff : left.nsec - right.nsec]. *)
Definition compare (left right : Time) : Z :=
  let secDiff := sec left - sec right in
  if secDiff =? 0 then nsec left - nsec right else secDiff.

(** Modelled from the spec: [isLessThan] of [@foxglove/rostime]. *)
Definition isLessThan (left right : Time) : bool := compare left right <? 0.

(** Modelled from the spec: [isGreaterThan] of [@foxglove/rostime]. *)
Definition isGreaterThan (left right : Time) : bool := compare left right >? 0.

(** Modelled from the spec: [isTimeInRangeInclusive] of [@foxglove/rostime],
    membership in the inclusive range. *)
Definition isTimeInRangeInclusive (time start end_ : Time) : bool :=
  if (compare start time >? 0) || (compare end_ time <? 0) then false else true.

(** Modelled from the spec: [fromNanoSec] of [@foxglove/rostime],
    [{ sec: Number(nsec / 1_000_000_000n), nsec: Number(nsec % 1_000_000_000n) }]
    on a [bigint] (truncating division). *)
Definition fromNanoSec (n : Z) : Time :=
  {| sec := Z.quot n 1000000000; nsec := Z.rem n 1000000000 |}.

End Rostime.

(** ** [messageMemoryEstimation.ts] *)

Module MemoryEstimation.
Import Js.

Definition COMPRESSED_POINTER_SIZE : Z := 4.
Definition OBJECT_BASE_SIZE : Z := 3 * COMPRESSED_POINTER_SIZE.
Definition ARRAY_BASE_SIZE : Z := OBJECT_BASE_SIZE + 3 * COMPRESSED_POINTER_SIZE.
Definition TYPED_ARRAY_BASE_SIZE : Z := 25 * COMPRESSED_POINTER_SIZE.
Definition SMALL_INTEGER_SIZE : Z := COMPRESSED_POINTER_SIZE.
Definition HEAP_NUMBER_SIZE : Z := 8 + 2 * COMPRESSED_POINTER_SIZE.
Definition MAX_NUM_FAST_PROPERTIES : Z := 1020.

(** [Math.ceil(length / 4) * 4] *)
Definition round_up_to_4 (len : Z) : Z := ((len + 3) / 4) * 4.

(** [16 + 5 * 8 + 2 ** Math.ceil(Math.log2((numProps + 2) * 1.5)) * 3 * 4]:
    the least [k] with [2^k >= 1.5 * m] is [log2_up (3 * m) - 1]. *)
Definition propertiesDictSize (numProps : Z) : Z :=
  16 + 5 * 8 + 2 ^ (Z.log2_up (3 * (numProps + 2)) - 1) * 3 * 4.

Definition propertiesSize (numProps : Z) : Z :=
  if numProps >? MAX_NUM_FAST_PROPERTIES
  then propertiesDictSize numProps - numProps * COMPRESSED_POINTER_SIZE
  else 0.

(** [estimateObjectSize]; the [reduce] calls are the local loops, which add
    the estimates from left to right and stop at the first exception. *)
Fixpoint estimateObjectSize (obj : value) : result Z :=
  let reduce_values :=
    fix reduce_values (acc : Z) (vals : list value) : result Z :=
      match vals with
      | [] => Ok acc
      | val :: rest =>
          size <- estimateObjectSize val ;;
          reduce_values (acc + size) rest
      end in
  match obj with
  | VNull | VUndefined => Ok SMALL_INTEGER_SIZE
  | VBoolean _ => Ok SMALL_INTEGER_SIZE
  | VNumber n =>
      Ok (if Number_isInteger n then SMALL_INTEGER_SIZE else HEAP_NUMBER_SIZE)
  | VBigInt _ => Ok HEAP_NUMBER_SIZE
  | VString s =>
      Ok (COMPRESSED_POINTER_SIZE + OBJECT_BASE_SIZE
          + round_up_to_4 (Z.of_nat (String.length s)))
  | VArray elements =>
      total <- reduce_values 0 elements ;;
      Ok (COMPRESSED_POINTER_SIZE + ARRAY_BASE_SIZE + total)
  | VTypedArray bytes =>
      Ok (TYPED_ARRAY_BASE_SIZE + Z.of_nat (List.length bytes))
  | VSet members =>
      total <- reduce_values 0 members ;;
      Ok (COMPRESSED_POINTER_SIZE + OBJECT_BASE_SIZE + total)
  | VMap entries =>
      let reduce_entries :=
        fix reduce_entries (acc : Z) (es : list (value * value)) : result Z :=
          match es with
          | [] => Ok acc
          | (key, val) :: rest =>
              ksize <- estimateObjectSize key ;;
              vsize <- estimateObjectSize val ;;
              reduce_entries (acc + ksize + vsize) rest
          end in
      total <- reduce_entries 0 entries ;;
      Ok (COMPRESSED_POINTER_SIZE + OBJECT_BASE_SIZE + total)
  | VObject properties =>
      let numProps := Z.of_nat (List.length properties) in
      let reduce_props :=
        fix reduce_props (acc : Z) (ps : list (string * value)) : result Z :=
          match ps with
          | [] => Ok acc
          | (_, val) :: rest =>
              size <- estimateObjectSize val ;;
              reduce_props (acc + size) rest
          end in
      valuesSize <- reduce_props 0 properties ;;
      Ok (OBJECT_BASE_SIZE + propertiesSize numProps + valuesSize)
  | VSymbol _ => Throw "Can't estimate size of type 'symbol'"
  | VFunction _ => Throw "Can't estimate size of type 'function'"
  end.

(** The sum of a list of sizes. *)
Definition total (sizes : list Z) : Z := foldr Z.add 0 sizes.

(** The range of a V8 small integer, the one [SMALL_INTEGER_SIZE] is
    documented for ("up to 31 bits"). *)
Definition is_small_integer (n : number) : bool :=
  match n with
  | Finite q =>
      (Qden (Qred q) =? 1)%positive
      && (- 2 ^ 30 <=? Qnum (Qred q)) && (Qnum (Qred q) <? 2 ^ 30)
  | _ => false
  end.

End MemoryEstimation.

(** ** [types.ts] *)

Module Types.
Import Js Rostime.

Record MessageEvent : Type := mkMessageEvent {
  topic : string;
  schemaName : string;
  receiveTime : Time;
  publishTime : option Time;
  message : value;
  sizeInBytes : number
}.

Record Topic : Type := mkTopic {
  topic_name : string;
  topic_schemaName : option string
}.

Inductive PreloadType : Type := full | partial.

Record SubscribePayload : Type := mkSubscribePayload {
  payload_topic : string;
  preloadType : option PreloadType
}.

(** [TopicSelection = Map<string, SubscribePayload>] *)
Abbreviation TopicSelection := (gmap string SubscribePayload).

Record MessageIteratorArgs : Type := mkMessageIteratorArgs {
  topics : TopicSelection;
  start : option Time;
  end_ : option Time;
  reverse : option bool
}.

Record GetBackfillMessagesArgs : Type := mkGetBackfillMessagesArgs {
  backfill_topics : TopicSelection;
  time : Time
}.

Inductive NotificationSeverity : Type := error | warn | info.

Record PlayerProblem : Type := mkPlayerProblem {
  severity : NotificationSeverity;
  problem_message : string;
  tip : option string
}.

(** [IteratorResult]: the tagged union on [type].  The unindexed MCAP source
    adds a [connectionId] to its ['message-event'] items, the bag source does
    not. *)
Inductive IteratorResult : Type :=
| message_event (connectionId : option Z) (msgEvent : MessageEvent)
| problem (connectionId : Z) (p : PlayerProblem)
| stamp (t : Time).

End Types.

(** ** JavaScript containers the sources rely on *)

Module JsMap.

(** A [Map] whose iteration order matters: entries in insertion order;
    [set] on a present key replaces the value in place, on an absent key
    appends the entry. *)
Section OrderedMap.
Context {K V : Type} `{EqDecision K}.

Fixpoint get (k : K) (m : list (K * V)) : option V :=
  match m with
  | [] => None
  | (k', v) :: rest => if decide (k' = k) then Some v else get k rest
  end.

Fixpoint set (k : K) (v : V) (m : list (K * V)) : list (K * V) :=
  match m with
  | [] => [(k, v)]
  | (k', v') :: rest =>
      if decide (k' = k) then (k, v) :: rest else (k', v') :: set k v rest
  end.

Definition values (m : list (K * V)) : list V := map snd m.
End OrderedMap.

End JsMap.

Module JsArray.

(** [Array.prototype.sort(compareFn)]: a stable sort; an element moves in
    front of another only when [compareFn] puts it strictly before. *)
Section Sort.
Context {A : Type} (compareFn : A -> A -> Z).

Fixpoint insert (x : A) (sorted : list A) : list A :=
  match sorted with
  | [] => [x]
  | y :: rest =>
      if compareFn x y >? 0 then y :: insert x rest else x :: y :: rest
  end.

Definition sort (l : list A) : list A := fold_right insert [] l.
End Sort.

End JsArray.

(** ** [support/parseChannel.ts] *)

Module ParseChannel.
Import Js.

Record MessageDefinitionField : Type := mkField {
  field_type : string;
  field_name : string;
  predicates : option (list Z)
}.

Record MessageDefinition : Type := mkMessageDefinition {
  def_name : option string;
  definitions : list MessageDefinitionField
}.

Record IDLCase : Type := mkIDLCase {
  case_type : MessageDefinitionField;
  case_predicates : list Z
}.

(** [IDLMessageDefinition]: a plain definition, or a union
    ([aggregatedKind === 'union']). *)
Inductive IDLMessageDefinition : Type :=
| idl_plain (d : MessageDefinition)
| idl_union (name : option string) (cases : list IDLCase)
    (defaultCase : option MessageDefinitionField).

Abbreviation MessageDefinitionMap := (gmap string MessageDefinition).

Record Schema : Type := mkSchema {
  schema_name : string;
  schema_encoding : string;
  schema_data : list byte
}.

Record Channel : Type := mkChannel {
  messageEncoding : string;
  schema : option Schema
}.

Record ParsedChannel : Type := mkParsedChannel {
  deserialize : list byte -> result value;
  datatypes : MessageDefinitionMap
}.

(** The parsers and readers of [@foxglove/omgidl-parser],
    [@foxglove/omgidl-serialization], [@foxglove/ros2idl-parser],
    [@foxglove/rosmsg] and [@foxglove/rosmsg2-serialization]: external
    packages, each of which may throw. *)
Record Parsers : Type := mkParsers {
  parseIDL : string -> result (list IDLMessageDefinition);
  OmgidlMessageReader :
    string -> list IDLMessageDefinition -> result (list byte -> result value);
  parseRos2idl : string -> result (list MessageDefinition);
  parseMessageDefinition : string -> bool -> result (list MessageDefinition);
  ROS2MessageReader :
    list MessageDefinition -> result (list byte -> result value)
}.

Definition KNOWN_EMPTY_SCHEMA_NAMES : list string :=
  ["std_msgs/Empty"; "std_msgs/msg/Empty"].

(** [Array.prototype.includes] on strings. *)
Definition includes (l : list string) (s : string) : bool :=
  existsb (String.eqb s) l.

Fixpoint parsedDefinitionsToDatatypes_from (index : nat)
    (parsedDefinitions : list MessageDefinition) (rootName : option string)
    (datatypes : MessageDefinitionMap) : MessageDefinitionMap :=
  match parsedDefinitions with
  | [] => datatypes
  | d :: rest =>
      let datatypes' :=
        match rootName, index with
        | Some root, O =>
            <[root := mkMessageDefinition (Some root) (definitions d)]> datatypes
        | _, _ =>
            match def_name d with
            | Some name =>
                <[name := mkMessageDefinition (Some name) (definitions d)]> datatypes
            | None => datatypes
            end
        end in
      parsedDefinitionsToDatatypes_from (S index) rest rootName datatypes'
  end.

Definition parsedDefinitionsToDatatypes
    (parsedDefinitions : list MessageDefinition) (rootName : option string)
    : MessageDefinitionMap :=
  parsedDefinitionsToDatatypes_from O parsedDefinitions rootName ∅.

Definition convertUnionToMessageDefinition (definition : IDLMessageDefinition)
    : MessageDefinition :=
  match definition with
  | idl_union name cases defaultCase =>
      let innerDefs :=
        map (fun c => mkField (field_type (case_type c)) (field_name (case_type c))
                        (Some (case_predicates c))) cases in
      let innerDefs' :=
        match defaultCase with
        | Some d => (innerDefs ++ [d])%list
        | None => innerDefs
        end in
      mkMessageDefinition name innerDefs'
  | idl_plain d => d
  end.

Definition parseIDLDefinitionsToDatatypes
    (parsedDefinitions : list IDLMessageDefinition) (rootName : option string)
    : MessageDefinitionMap :=
  parsedDefinitionsToDatatypes
    (map convertUnionToMessageDefinition parsedDefinitions) rootName.

(** [channel.schema?.encoding ?? ''] *)
Definition schema_encoding_or_empty (channel : Channel) : string :=
  match schema channel with
  | Some s => schema_encoding s
  | None => EmptyString
  end.

(** The guard of the first [if]: the schema is a ROS schema with an empty
    body and a name that is not a well-known empty one, and the caller did
    not pass [allowEmptySchema: true]. *)
Definition rejects_empty_schema (channel : Channel)
    (allowEmptySchema : option bool) : bool :=
  negb (if allowEmptySchema is Some true then true else false)
  && includes ["ros1msg"; "ros2msg"; "ros2idl"] (schema_encoding_or_empty channel)
  && (if schema channel is Some s then (length (schema_data s) =? 0)%nat else false)
  && negb (if schema channel is Some s
           then includes KNOWN_EMPTY_SCHEMA_NAMES (schema_name s) else false).

Section WithParsers.
Variable P : Parsers.

Definition parseChannel (channel : Channel) (allowEmptySchema : option bool)
    : result ParsedChannel :=
  if rejects_empty_schema channel allowEmptySchema then
    Throw ("Schema for "
           ++ (if schema channel is Some s then schema_name s else EmptyString)
           ++ " is empty")%string
  else if String.eqb (messageEncoding channel) "cdr" then
    match schema channel with
    | Some s =>
        if negb (String.eqb (schema_encoding s) "ros2msg")
           && negb (String.eqb (schema_encoding s) "ros2idl")
           && negb (String.eqb (schema_encoding s) "omgidl")
        then
          Throw ("Message encoding " ++ messageEncoding channel
                 ++ " with schema encoding '" ++ schema_encoding s
                 ++ "' is not supported (expected 'ros2msg' or 'ros2idl')")%string
        else
          let text := string_of_list_byte (schema_data s) in
          if String.eqb (schema_encoding s) "omgidl" then
            parsedDefinitions <- parseIDL P text ;;
            reader <- OmgidlMessageReader P (schema_name s) parsedDefinitions ;;
            Ok {| datatypes := parseIDLDefinitionsToDatatypes parsedDefinitions None;
                  deserialize := reader |}
          else
            let isIdl := String.eqb (schema_encoding s) "ros2idl" in
            parsedDefinitions <-
              (if isIdl then parseRos2idl P text
               else parseMessageDefinition P text true) ;;
            reader <- ROS2MessageReader P parsedDefinitions ;;
            Ok {| datatypes :=
                    parsedDefinitionsToDatatypes parsedDefinitions
                      (Some (schema_name s));
                  deserialize := reader |}
    | None =>
        Throw ("Message encoding " ++ messageEncoding channel
               ++ " with no encoding is not supported (expected 'ros2msg' or 'ros2idl')")%string
    end
  else Throw ("Unsupported encoding " ++ messageEncoding channel)%string.
End WithParsers.

End ParseChannel.

(** ** Plain objects *)

Module JsObject.

(** The properties an object created by [{}] inherits from
    [Object.prototype] (ECMAScript, with the legacy accessors of its
    annex B): reading one of these keys gives a function, or for
    [__proto__] the prototype itself, and not [undefined]. *)
Definition Object_prototype_keys : list string :=
  ["constructor"; "hasOwnProperty"; "isPrototypeOf"; "propertyIsEnumerable";
   "toLocaleString"; "toString"; "valueOf"; "__proto__";
   "__defineGetter__"; "__defineSetter__"; "__lookupGetter__";
   "__lookupSetter__"].

Definition inherits (key : string) : bool :=
  existsb (String.eqb key) Object_prototype_keys.

End JsObject.

(** ** [McapUnindexedIterableSource] *)

Module McapUnindexed.
Import Js Rostime Types ParseChannel.

#[global] Instance byte_eq_dec : EqDecision byte := Byte.byte_eq_dec.

(** The records of [@mcap/core] the source looks at. *)
Record SchemaRecord : Type := mkSchemaRecord {
  schema_id : Z;
  schema_body : Schema
}.

Record ChannelRecord : Type := mkChannelRecord {
  channel_id : Z;
  schemaId : Z;
  channel_topic : string;
  channel_messageEncoding : string;
  metadata : gmap string string
}.

Record MessageRecord : Type := mkMessageRecord {
  channelId : Z;
  logTime : Z;
  message_publishTime : Z;
  data : list byte
}.

Inductive TypedMcapRecord : Type :=
| Header (profile : string)
| SchemaR (r : SchemaRecord)
| ChannelR (r : ChannelRecord)
| MessageR (r : MessageRecord)
| OtherRecord.

#[global] Instance Schema_eq_dec : EqDecision Schema.
Proof. solve_decision. Defined.
#[global] Instance SchemaRecord_eq_dec : EqDecision SchemaRecord.
Proof. solve_decision. Defined.
#[global] Instance ChannelRecord_eq_dec : EqDecision ChannelRecord.
Proof. solve_decision. Defined.

Record ChannelInfo : Type := mkChannelInfo {
  channel : ChannelRecord;
  parsedChannel : ParsedChannel;
  info_schemaName : option string
}.

(** The locals of [initialize] that [processRecord] reads and writes. *)
Record InitState : Type := mkInitState {
  channelIdsWithErrors : gset Z;
  messagesByChannel : list (Z * list MessageEvent);
  schemasById : gmap Z SchemaRecord;
  channelInfoById : list (Z * ChannelInfo);
  messageSizeEstimateByTopic : gmap string Z;
  startTime : option Time;
  endTime : option Time;
  profile : option string
}.

Definition init_state : InitState :=
  {| channelIdsWithErrors := ∅; messagesByChannel := [];
     schemasById := ∅; channelInfoById := [];
     messageSizeEstimateByTopic := ∅;
     startTime := None; endTime := None; profile := None |}.

(** The state an initialized source keeps: [#msgEventsByChannel], [#start],
    [#end]. *)
Record Source : Type := mkSource {
  msgEventsByChannel : option (list (Z * list MessageEvent));
  source_start : option Time;
  source_end : option Time
}.

Definition new_source : Source :=
  {| msgEventsByChannel := None; source_start := None; source_end := None |}.

Record Initalization : Type := mkInitalization {
  init_start : Time;
  init_end : Time;
  init_topics : list Topic;
  init_datatypes : MessageDefinitionMap;
  init_profile : option string;
  publishersByTopic : gmap string (gset string);
  topicStats : gmap string Z
}.

(** What [estimateMessageSize] returns: a size, or, for a topic named as a
    property that the plain object [messageSizeEstimateByTopic] inherits,
    the inherited value (a function, or the prototype), which is not
    [undefined] and which [Math.max] converts to [NaN]. *)
Inductive Estimate : Type :=
| estimated (bytes : Z)
| inherited_value.

Definition size_number (sized : Estimate) : number :=
  match sized with
  | estimated bytes => of_Z bytes
  | inherited_value => NaN
  end.

(** [estimateMessageSize]: the estimate of the first message of a topic is
    cached and reused.  [cache] holds the own properties of the object
    [messageSizeEstimateByTopic]; a key that is not among them is looked up
    in [Object.prototype]. *)
Definition estimateMessageSize (topic : string) (msg : value)
    (cache : gmap string Z) : result (Estimate * gmap string Z) :=
  match cache !! topic with
  | Some cachedSize => Ok (estimated cachedSize, cache)
  | None =>
      if JsObject.inherits topic then Ok (inherited_value, cache)
      else
        sizeEstimate <- MemoryEstimation.estimateObjectSize msg ;;
        Ok (estimated sizeEstimate, <[topic := sizeEstimate]> cache)
  end.

Definition earliest (receiveTime : Time) (startTime : option Time) : Time :=
  match startTime with
  | None => receiveTime
  | Some s => if isLessThan receiveTime s then receiveTime else s
  end.

Definition latest (receiveTime : Time) (endTime : option Time) : Time :=
  match endTime with
  | None => receiveTime
  | Some e => if isGreaterThan receiveTime e then receiveTime else e
  end.

Section WithParsers.
Variable P : Parsers.

Definition processRecord (record : TypedMcapRecord) (st : InitState)
    : result InitState :=
  match record with
  | OtherRecord => Ok st
  | Header p =>
      Ok {| channelIdsWithErrors := channelIdsWithErrors st;
            messagesByChannel := messagesByChannel st;
            schemasById := schemasById st;
            channelInfoById := channelInfoById st;
            messageSizeEstimateByTopic := messageSizeEstimateByTopic st;
            startTime := startTime st; endTime := endTime st;
            profile := Some p |}
  | SchemaR r =>
      let store :=
        Ok {| channelIdsWithErrors := channelIdsWithErrors st;
              messagesByChannel := messagesByChannel st;
              schemasById := <[schema_id r := r]> (schemasById st);
              channelInfoById := channelInfoById st;
              messageSizeEstimateByTopic := messageSizeEstimateByTopic st;
              startTime := startTime st; endTime := endTime st;
              profile := profile st |} in
      match schemasById st !! schema_id r with
      | Some existingSchema =>
          if decide (existingSchema = r) then store
          else Throw "differing schemas for id"
      | None => store
      end
  | ChannelR r =>
      match JsMap.get (channel_id r) (channelInfoById st) with
      | Some existingInfo =>
          if decide (channel existingInfo = r) then Ok st
          else Throw "differing channel infos for id"
      | None =>
          if decide (channel_id r ∈ channelIdsWithErrors st) then Ok st
          else
            let schema := schemasById st !! schemaId r in
            if negb (schemaId r =? 0) && (if schema is None then true else false)
            then Throw "Encountered channel with schema id but no prior schema"
            else
              match parseChannel P
                      {| messageEncoding := channel_messageEncoding r;
                         ParseChannel.schema := schema_body <$> schema |}
                      None with
              | Ok parsed =>
                  Ok {| channelIdsWithErrors := channelIdsWithErrors st;
                        messagesByChannel :=
                          JsMap.set (channel_id r) [] (messagesByChannel st);
                        schemasById := schemasById st;
                        channelInfoById :=
                          JsMap.set (channel_id r)
                            {| channel := r; parsedChannel := parsed;
                               info_schemaName :=
                                 (fun s => schema_name (schema_body s)) <$> schema |}
                            (channelInfoById st);
                        messageSizeEstimateByTopic := messageSizeEstimateByTopic st;
                        startTime := startTime st; endTime := endTime st;
                        profile := profile st |}
              | Throw _ =>
                  Ok {| channelIdsWithErrors :=
                          {[channel_id r]} ∪ channelIdsWithErrors st;
                        messagesByChannel := messagesByChannel st;
                        schemasById := schemasById st;
                        channelInfoById := channelInfoById st;
                        messageSizeEstimateByTopic := messageSizeEstimateByTopic st;
                        startTime := startTime st; endTime := endTime st;
                        profile := profile st |}
              end
      end
  | MessageR r =>
      match JsMap.get (channelId r) (channelInfoById st),
            JsMap.get (channelId r) (messagesByChannel st) with
      | Some channelInfo, Some messages =>
          let receiveTime := fromNanoSec (logTime r) in
          let topic := channel_topic (channel channelInfo) in
          deserializedMessage <-
            deserialize (parsedChannel channelInfo) (data r) ;;
          sized <- estimateMessageSize topic deserializedMessage
                     (messageSizeEstimateByTopic st) ;;
          let msgEvent :=
            {| topic := topic;
               receiveTime := receiveTime;
               publishTime := Some (fromNanoSec (message_publishTime r));
               message := deserializedMessage;
               sizeInBytes :=
                 Math_max (of_Z (Z.of_nat (length (data r))))
                   (size_number (fst sized));
               schemaName :=
                 default EmptyString (info_schemaName channelInfo) |} in
          Ok {| channelIdsWithErrors := channelIdsWithErrors st;
                messagesByChannel :=
                  JsMap.set (channelId r) (messages ++ [msgEvent])
                    (messagesByChannel st);
                schemasById := schemasById st;
                channelInfoById := channelInfoById st;
                messageSizeEstimateByTopic := snd sized;
                startTime := Some (earliest receiveTime (startTime st));
                endTime := Some (latest receiveTime (endTime st));
                profile := profile st |}
      | _, _ =>
          if decide (channelId r ∈ channelIdsWithErrors st) then Ok st
          else Throw "message for channel with no prior channel info"
      end
  end.

(** The read loop: every record the stream reader yields goes through
    [processRecord], in order. *)
Fixpoint processRecords (records : list TypedMcapRecord) (st : InitState)
    : result InitState :=
  match records with
  | [] => Ok st
  | record :: rest =>
      st' <- processRecord record st ;;
      processRecords rest st'
  end.

(** The loop over [channelInfoById.values()] that fills [topics],
    [topicStats], [publishersByTopic] and [datatypes]. *)
Definition summarize (st : InitState) (start end_ : Time) : Initalization :=
  fold_left
    (fun acc info =>
       let ch := channel info in
       let publisherId :=
         default (pretty (channel_id ch)) (metadata ch !! "callerid") in
       {| init_start := init_start acc;
          init_end := init_end acc;
          init_topics :=
            init_topics acc
            ++ [{| topic_name := channel_topic ch;
                   topic_schemaName := info_schemaName info |}];
          init_datatypes :=
            datatypes (parsedChannel info) ∪ init_datatypes acc;
          init_profile := init_profile acc;
          publishersByTopic :=
            <[channel_topic ch :=
                {[publisherId]}
                ∪ default ∅ (publishersByTopic acc !! channel_topic ch)]>
              (publishersByTopic acc);
          topicStats :=
            match JsMap.get (channel_id ch) (messagesByChannel st) with
            | Some messages =>
                <[channel_topic ch := Z.of_nat (length messages)]>
                  (topicStats acc)
            | None => topicStats acc
            end |})
    (JsMap.values (channelInfoById st))
    {| init_start := start; init_end := end_; init_topics := [];
       init_datatypes := ∅; init_profile := profile st;
       publishersByTopic := ∅; topicStats := ∅ |}.

(** [initialize], on a stream of [size] bytes from which the stream reader
    decodes [records]. *)
Definition initialize (size : Z) (records : list TypedMcapRecord)
    : result (Initalization * Source) :=
  if size >? 1024 * 1024 * 1024 then
    Throw "Unable to open unindexed MCAP file; unindexed files are limited to 1GB"
  else
    st <- processRecords records init_state ;;
    let start := default (mkTime 0 0) (startTime st) in
    let end_ := default (mkTime 0 0) (endTime st) in
    Ok (summarize st start end_,
        {| msgEventsByChannel := Some (messagesByChannel st);
           source_start := Some start;
           source_end := Some end_ |}).
End WithParsers.

(** The two nested loops of [messageIterator] and [getBackfillMessages]
    visit the stored events channel by channel, each channel's in the order
    they were pushed. *)
Definition stored_events (byChannel : list (Z * list MessageEvent))
    : list (Z * MessageEvent) :=
  flat_map (fun entry => map (pair (fst entry)) (snd entry)) byChannel.

(** The comparator handed to [resultMessages.sort]. *)
Definition compareReceiveTime (a b : Z * MessageEvent) : Z :=
  compare (receiveTime (snd a)) (receiveTime (snd b)).

(** The items [messageIterator] collects before it sorts them: the stored
    events within [start, end] whose topic is selected, each with the id of
    its channel. *)
Definition collect (topics : TopicSelection) (start end_ : Time)
    (byChannel : list (Z * list MessageEvent)) : list (Z * MessageEvent) :=
  filter
    (fun entry =>
       isTimeInRangeInclusive (receiveTime (snd entry)) start end_
       && bool_decide (is_Some (topics !! topic (snd entry))) = true)
    (stored_events byChannel).

(** [messageIterator]: the items the generator yields, or the exception its
    first [next()] rejects with. *)
Definition messageIterator (args : MessageIteratorArgs) (src : Source)
    : result (list IteratorResult) :=
  match msgEventsByChannel src with
  | None => Throw "initialization not completed"
  | Some byChannel =>
      let start := if start args is Some s then Some s else source_start src in
      let end_ := if end_ args is Some e then Some e else source_end src in
      match start, end_ with
      | Some start, Some end_ =>
          if (size (topics args) =? 0)%nat then Ok []
          else
            let resultMessages := collect (topics args) start end_ byChannel in
            Ok (map (fun '(channelId, msgEvent) =>
                       message_event (Some channelId) msgEvent)
                  (JsArray.sort compareReceiveTime resultMessages))
      | _, _ => Ok []
      end
  end.

(** Two items one after the other are in receive-time order when, both
    being message events, the first was not received after the second. *)
Definition in_receive_order (a b : IteratorResult) : Prop :=
  match a, b with
  | message_event _ ea, message_event _ eb =>
      compare (receiveTime ea) (receiveTime eb) <= 0
  | _, _ => True
  end.

Definition getBackfillMessages (args : GetBackfillMessagesArgs) (src : Source)
    : result (list MessageEvent) :=
  match msgEventsByChannel src with
  | None => Throw "initialization not completed"
  | Some byChannel =>
      let msgEventsByTopic :=
        fold_left
          (fun (byTopic : list (string * MessageEvent)) '(_, msgEvent) =>
             if (compare (receiveTime msgEvent) (time args) <=? 0)
                && bool_decide (is_Some (backfill_topics args !! topic msgEvent))
             then JsMap.set (topic msgEvent) msgEvent byTopic
             else byTopic)
          (stored_events byChannel) [] in
      Ok (JsMap.values msgEventsByTopic)
  end.

End McapUnindexed.

(** ** [IteratorCursor.ts] *)

Module Cursor.
Import Js Rostime Types.

Definition TIME_ZERO : Time := mkTime 0 0.

(** The wrapped [AsyncIterableIterator]: the items it has still to yield,
    and whether it has a [return] method ([this.#iter.return?.()]); the
    sources' iterators are async generators, which have one. *)
Record AsyncIterator : Type := mkAsyncIterator {
  pending : list IteratorResult;
  has_return : bool
}.

(** [iter.next()]: [None] stands for [{ done: true, value: undefined }]. *)
Definition iter_next (it : AsyncIterator)
    : option IteratorResult * AsyncIterator :=
  match pending it with
  | [] => (None, it)
  | value :: rest => (Some value, {| pending := rest; has_return := has_return it |})
  end.

(** [iter.return?.()]: a generator that is returned yields nothing more. *)
Definition iter_return (it : AsyncIterator) : AsyncIterator :=
  if has_return it then {| pending := []; has_return := true |} else it.

(** The [AbortSignal] belongs to the caller: [Some k] is a signal that fires
    while the [k]-th next pull of the iterator is awaited ([Some 0]: it has
    fired), [None] no signal or one that never fires.  The cursor reads
    [aborted] only on entry and after an [await], so this determines
    everything it can observe. *)
Definition aborted (signal : option nat) : bool :=
  match signal with
  | Some O => true
  | _ => false
  end.

Definition await_pull (signal : option nat) : option nat :=
  Nat.pred <$> signal.

Record IteratorCursor : Type := mkIteratorCursor {
  iter : AsyncIterator;
  lastIteratorResult : option IteratorResult;
  abort : option nat
}.

Definition new_cursor (iterator : AsyncIterator) (abort : option nat)
    : IteratorCursor :=
  {| iter := iterator; lastIteratorResult := None; abort := abort |}.

(** [next()] *)
Definition next (c : IteratorCursor)
    : option IteratorResult * IteratorCursor :=
  if aborted (abort c) then (None, c)
  else
    let '(value, it) := iter_next (iter c) in
    (value, {| iter := it; lastIteratorResult := lastIteratorResult c;
               abort := await_pull (abort c) |}).

(** The three [break] conditions of the loop of [nextBatch]. *)
Definition ends_batch (cutoffTime : Time) (result : IteratorResult) : bool :=
  match result with
  | problem _ _ => true
  | stamp t => compare t cutoffTime >? 0
  | message_event _ e => compare (receiveTime e) cutoffTime >? 0
  end.

(** The two conditions under which [readUntil] stashes an item (and leaves
    a stashed one where it is): a stamp at or after [end], a message after
    [end]. *)
Definition past_end (end_ : Time) (value : IteratorResult) : bool :=
  match value with
  | stamp t => compare t end_ >=? 0
  | message_event _ e => compare (receiveTime e) end_ >? 0
  | problem _ _ => false
  end.

(** The [for (;;)] loop of [nextBatch], on the items the iterator has left
    and the state of the signal; it returns the batch, the items left and
    the signal. *)
Fixpoint nextBatch_loop (cutoffTime : Time) (results : list IteratorResult)
    (items : list IteratorResult) (signal : option nat)
    : list IteratorResult * list IteratorResult * option nat :=
  if aborted signal then (results, items, signal)
  else
    match items with
    | [] => (results, [], await_pull signal)
    | result :: rest =>
        if ends_batch cutoffTime result
        then (results ++ [result], rest, await_pull signal)
        else nextBatch_loop cutoffTime (results ++ [result]) rest
               (await_pull signal)
    end.

(** The [for (;;)] loop of [readUntil]; it returns the result ([None] for
    [undefined]), the items left, the stashed item and the signal. *)
Fixpoint readUntil_loop (end_ : Time) (results : list IteratorResult)
    (items : list IteratorResult) (signal : option nat)
    : option (list IteratorResult) * list IteratorResult
      * option IteratorResult * option nat :=
  let signal' := await_pull signal in
  match items with
  | [] =>
      if aborted signal' then (None, [], None, signal')
      else (Some results, [], None, signal')
  | value :: rest =>
      if aborted signal' then (None, rest, None, signal')
      else if past_end end_ value then (Some results, rest, Some value, signal')
      else readUntil_loop end_ (results ++ [value]) rest signal'
  end.

Section WithAddTime.
(** [add] of [@foxglove/rostime]. *)
Variable addTime : Time -> Time -> Time.

(** [nextBatch(durationMs)] *)
Definition nextBatch (durationMs : Z) (c : IteratorCursor)
    : option (list IteratorResult) * IteratorCursor :=
  match next c with
  | (None, c1) => (None, c1)
  | (Some (problem id p), c1) => (Some [problem id p], c1)
  | (Some firstResult, c1) =>
      let cutoffTime :=
        match firstResult with
        | stamp t => addTime t (mkTime 0 (durationMs * 1000000))
        | message_event _ e =>
            addTime (receiveTime e) (mkTime 0 (durationMs * 1000000))
        | problem _ _ => TIME_ZERO
        end in
      let '(results, rest, signal) :=
        nextBatch_loop cutoffTime [firstResult] (pending (iter c1)) (abort c1) in
      (Some results,
       {| iter := {| pending := rest; has_return := has_return (iter c1) |};
          lastIteratorResult := lastIteratorResult c1;
          abort := signal |})
  end.
End WithAddTime.

(** [readUntil(end)] *)
Definition readUntil (end_ : Time) (c : IteratorCursor)
    : option (list IteratorResult) * IteratorCursor :=
  if aborted (abort c) then (None, c)
  else
    match lastIteratorResult c with
    | Some last =>
        if past_end end_ last then (Some [], c)
        else
          let '(results, rest, stash, signal) :=
            readUntil_loop end_ [last] (pending (iter c)) (abort c) in
          (results,
           {| iter := {| pending := rest; has_return := has_return (iter c) |};
              lastIteratorResult := stash; abort := signal |})
    | None =>
        let '(results, rest, stash, signal) :=
          readUntil_loop end_ [] (pending (iter c)) (abort c) in
        (results,
         {| iter := {| pending := rest; has_return := has_return (iter c) |};
            lastIteratorResult := stash; abort := signal |})
    end.

(** What the cursor has still to deliver: the stashed item, then the items
    of the iterator. *)
Definition to_deliver (c : IteratorCursor) : list IteratorResult :=
  option_list (lastIteratorResult c) ++ pending (iter c).

(** [end()] *)
Definition end_cursor (c : IteratorCursor) : IteratorCursor :=
  {| iter := iter_return (iter c);
     lastIteratorResult := lastIteratorResult c;
     abort := abort c |}.

(** The loop of [WorkerIterableSource.messageIterator]: batches of 17 ms are
    fetched and re-emitted until a batch is [undefined] or empty.  [fuel]
    bounds the number of batches. *)
Section Consumer.
Variable addTime : Time -> Time -> Time.

Fixpoint consume (fuel : nat) (c : IteratorCursor)
    : option (list IteratorResult) :=
  match fuel with
  | O => None
  | S fuel' =>
      match nextBatch addTime 17 c with
      | (None, _) => Some []
      | (Some [], _) => Some []
      | (Some results, c') =>
          match consume fuel' c' with
          | Some rest => Some (results ++ rest)
          | None => None
          end
      end
  end.
End Consumer.

End Cursor.

(** ** [BagIterableSource.ts] *)

Module BagSource.
Import Js Rostime Types.

(** What [@foxglove/rosbag] hands over: a message of the bag's own iterator,
    a connection, and the opened bag with its iterator (given the topics,
    [reverse] and [start]): the messages the iterator yields and, when the
    call or the iterator throws, the exception that ends them. *)
Record BagMessage : Type := mkBagMessage {
  bag_topic : string;
  bag_connectionId : Z;
  timestamp : Time;
  bag_data : list byte
}.

Record Connection : Type := mkConnection {
  conn_topic : string;
  conn_type : option string;
  messageDefinition : string
}.

Record Bag : Type := mkBag {
  connections : list (Z * Connection);
  bag_startTime : option Time;
  bag_endTime : option Time;
  bag_messageIterator :
    gset string -> option bool -> option Time
    -> list BagMessage * option string
}.

Inductive DataSourceInput : Type :=
| input_file (file : list byte)
| input_url (url : string)
| input_stream.

(** [@foxglove/rosmsg]'s [parse] followed by [new MessageReader(..)] of
    [@foxglove/rosmsg-serialization], and the opening of the bag. *)
Record Externals : Type := mkExternals {
  open_bag : DataSourceInput -> result Bag;
  MessageReader : string -> result (list byte -> result value)
}.

Record Source : Type := mkSource {
  input : DataSourceInput;
  bag : option Bag;
  readersByConnectionId : gmap Z (list byte -> result value);
  datatypesByConnectionId : gmap Z string;
  messageSizeEstimateByTopic : gmap string number
}.

(** The constructor and the field initializers. *)
Definition new_source (input : DataSourceInput) : Source :=
  {| input := input; bag := None; readersByConnectionId := ∅;
     datatypesByConnectionId := ∅; messageSizeEstimateByTopic := ∅ |}.

Record Initalization : Type := mkInitalization {
  init_start : Time;
  init_end : Time;
  init_topics : list Topic
}.

Section WithExternals.
Variable E : Externals.

(** The loop over [this.bag.connections]. *)
Fixpoint register_connections (conns : list (Z * Connection))
    (topics : list (string * Topic)) (src : Source)
    : result (list (string * Topic) * Source) :=
  match conns with
  | [] => Ok (topics, src)
  | (id, connection) :: rest =>
      match conn_type connection with
      | None => register_connections rest topics src
      | Some EmptyString => register_connections rest topics src
      | Some schemaName =>
          let topics' :=
            match JsMap.get (conn_topic connection) topics with
            | None =>
                JsMap.set (conn_topic connection)
                  {| topic_name := conn_topic connection;
                     topic_schemaName := Some schemaName |} topics
            | Some _ => topics
            end in
          reader <- MessageReader E (messageDefinition connection) ;;
          register_connections rest topics'
            {| input := input src; bag := bag src;
               readersByConnectionId :=
                 <[id := reader]> (readersByConnectionId src);
               datatypesByConnectionId :=
                 <[id := schemaName]> (datatypesByConnectionId src);
               messageSizeEstimateByTopic := messageSizeEstimateByTopic src |}
      end
  end.

(** [initialize] (the overlap warning it logs is left out: it changes no
    state). *)
Definition initialize (src : Source) : result (Initalization * Source) :=
  match input src with
  | input_stream =>
      Throw "Failed to initialize ROS bag: Error: Stream input not yet supported for ROS bags"
  | _ =>
      match
        (opened <- open_bag E (input src) ;;
         register_connections (connections opened) []
           {| input := input src; bag := Some opened;
              readersByConnectionId := readersByConnectionId src;
              datatypesByConnectionId := datatypesByConnectionId src;
              messageSizeEstimateByTopic := messageSizeEstimateByTopic src |})
      with
      | Ok (topics, src') =>
          Ok ({| init_start :=
                   default (mkTime 0 0) (bag src' ≫= bag_startTime);
                 init_end := default (mkTime 0 0) (bag src' ≫= bag_endTime);
                 init_topics := JsMap.values topics |}, src')
      | Throw m => Throw ("Failed to initialize ROS bag: " ++ m)%string
      end
  end.
End WithExternals.

(** What a generator did: the items it yielded and, when it threw, the
    exception that ended it. *)
Definition Generated : Type := list IteratorResult * option string.

(** The [for await] loop of [messageIterator], over the messages the bag's
    iterator yields; [ended] is the exception of the bag's iterator, met
    when the loop has taken all its messages. *)
Fixpoint iterate (end_ : option Time) (src : Source) (msgs : list BagMessage)
    (ended : option string) : Generated :=
  match msgs with
  | [] => ([], ended)
  | bagMsgEvent :: rest =>
      let connectionId := bag_connectionId bagMsgEvent in
      let reader := readersByConnectionId src !! connectionId in
      if (if end_ is Some e then compare (timestamp bagMsgEvent) e >? 0 else false)
      then ([], None)
      else
        match datatypesByConnectionId src !! connectionId with
        | None => ([], None)
        | Some EmptyString => ([], None)
        | Some schemaName =>
            match reader with
            | Some readMessage =>
                match readMessage (bag_data bagMsgEvent) with
                | Throw m => ([], Some m)
                | Ok parsedMessage =>
                    let msgSizeEstimate :=
                      messageSizeEstimateByTopic src !! bag_topic bagMsgEvent in
                    let item :=
                      message_event None
                        {| topic := bag_topic bagMsgEvent;
                           receiveTime := timestamp bagMsgEvent;
                           publishTime := None;
                           sizeInBytes :=
                             Math_max
                               (of_Z (Z.of_nat (length (bag_data bagMsgEvent))))
                               (ToNumber msgSizeEstimate);
                           message := parsedMessage;
                           schemaName := schemaName |} in
                    let '(items, failure) := iterate end_ src rest ended in
                    (item :: items, failure)
                end
            | None => iterate end_ src rest ended
            end
        end
  end.

Definition messageIterator (args : MessageIteratorArgs) (src : Source)
    : Generated :=
  match bag src with
  | None => ([], Some "Data source not initialized")
  | Some b =>
      let '(msgs, ended) :=
        bag_messageIterator b (dom (topics args)) (reverse args) (start args) in
      iterate (end_ args) src msgs ended
  end.

End BagSource.

(** ** [util/CachedFilelike/ranges.ts] *)

Module Ranges.

Record Range : Type := mkRange { start : Z; end_ : Z }.

#[global] Instance Range_eq_dec : EqDecision Range.
Proof. solve_decision. Defined.

(** *** [intervals-fn]

    [ranges.ts] and [getNewConnection.ts] import [isBefore], [isDuring],
    [isOverlapping], [intersect] and [complement] from the package
    [intervals-fn], which is not part of the repository. *)

(** Modelled from the spec: [isBefore] of [intervals-fn], "a ends before or
    where b starts", on half-open intervals. *)
Definition isBefore (a b : Range) : bool := end_ a <=? start b.

(** Modelled from the spec: [isDuring] of [intervals-fn], "a lies within
    b". *)
Definition isDuring (a b : Range) : bool :=
  (start b <=? start a) && (end_ a <=? end_ b).

(** Modelled from the spec: the overlap test of two half-open intervals
    that [isOverlapping] of [intervals-fn] applies. *)
Definition overlaps (a b : Range) : bool :=
  (start b <? end_ a) && (start a <? end_ b).

(** Modelled from the spec: [isOverlapping] of [intervals-fn] on two lists,
    "some interval of the one overlaps some interval of the other". *)
Definition isOverlapping (intervalsA intervalsB : list Range) : bool :=
  existsb (fun a => existsb (overlaps a) intervalsB) intervalsA.

(** Modelled from the spec: the intersection of two half-open intervals,
    when it is not empty. *)
Definition intersect_one (a b : Range) : option Range :=
  let s := Z.max (start a) (start b) in
  let e := Z.min (end_ a) (end_ b) in
  if s <? e then Some (mkRange s e) else None.

(** Modelled from the spec: [intersect] of [intervals-fn], the non-empty
    pairwise intersections, in order. *)
Definition intersect (intervalsA intervalsB : list Range) : list Range :=
  flat_map (fun a => omap (intersect_one a) intervalsB) intervalsA.

(** Modelled from the spec: the gaps between consecutive intervals, from
    [from] up to [upto], which [complement] of [intervals-fn] returns. *)
Fixpoint gaps (from : Z) (intervals : list Range) (upto : Z) : list Range :=
  match intervals with
  | [] => if from <? upto then [mkRange from upto] else []
  | r :: rest =>
      (if from <? start r then [mkRange from (start r)] else [])
      ++ gaps (end_ r) rest upto
  end.

(** Modelled from the spec: [complement] of [intervals-fn], the part of
    [boundaries] that the sorted [intervals] leave free. *)
Definition complement (boundaries : Range) (intervals : list Range)
    : list Range :=
  gaps (start boundaries) intervals (end_ boundaries).

(** *** [ranges.ts] *)

Fixpoint isRangeCoveredByRanges (queryRange : Range)
    (nonOverlappingMergedAndSortedRanges : list Range) : bool :=
  match nonOverlappingMergedAndSortedRanges with
  | [] => false
  | range :: rest =>
      if isBefore queryRange range then false
      else if isDuring queryRange range then true
      else isRangeCoveredByRanges queryRange rest
  end.

Definition missingRanges (bounds : Range) (ranges : list Range) : list Range :=
  complement bounds (intersect [bounds] ranges).

(** Sorted and pairwise disjoint: what the virtual buffer's
    [getRangesWithData] returns. *)
Definition sorted_disjoint (ranges : list Range) : Prop :=
  StronglySorted (fun a b => end_ a <= start b) ranges.

End Ranges.

(** ** [util/CachedFilelike/getNewConnection.ts] *)

Module GetNewConnection.
Import Js Ranges.

(** A size that may be [Infinity], the default of [cacheSizeInBytes]. *)
Inductive size_limit : Type :=
| Bounded (bytes : Z)
| Unlimited.

(** [x > limit], [limit >= x] and [Math.min(a + limit, b)]. *)
Definition exceeds (x : Z) (limit : size_limit) : bool :=
  match limit with
  | Bounded l => x >? l
  | Unlimited => false
  end.

Definition at_least (limit : size_limit) (x : Z) : bool :=
  match limit with
  | Bounded l => l >=? x
  | Unlimited => true
  end.

Definition min_plus (a : Z) (limit : size_limit) (b : Z) : Z :=
  match limit with
  | Bounded l => Z.min (a + l) b
  | Unlimited => b
  end.

Record Options : Type := mkOptions {
  currentRemainingRange : option Range;
  readRequestRange : option Range;
  downloadedRanges : list Range;
  lastResolvedCallbackEnd : option Z;
  maxRequestSize : size_limit;
  fileSize : Z;
  continueDownloadingThreshold : Z
}.

(** The three conditions under which a new connection is started. *)
Definition startNewConnection (currentRemainingRange : option Range)
    (notDownloadedRanges : list Range) (first : Range)
    (continueDownloadingThreshold : Z) : bool :=
  match currentRemainingRange with
  | None => true
  | Some current =>
      negb (isOverlapping notDownloadedRanges [current])
      || (start current + continueDownloadingThreshold <? start first)
  end.

(** The same three conditions, as the spec words them: (a) no current
    connection, (b) the current connection does not overlap the missing
    ranges, (c) it starts more than the threshold before the first missing
    range. *)
Definition should_start (currentRemainingRange : option Range)
    (notDownloadedRanges : list Range) (first : Range)
    (continueDownloadingThreshold : Z) : Prop :=
  currentRemainingRange = None
  \/ exists current,
       currentRemainingRange = Some current
       /\ (isOverlapping notDownloadedRanges [current] = false
           \/ start current + continueDownloadingThreshold < start first).

Definition getNewConnectionWithExistingReadRequest
    (currentRemainingRange : option Range) (readRequestRange : Range)
    (downloadedRanges : list Range) (maxRequestSize : size_limit)
    (fileSize : Z) (continueDownloadingThreshold : Z)
    : result (option Range) :=
  if exceeds (end_ readRequestRange - start readRequestRange) maxRequestSize
  then Throw "Range exceeds max request size"
  else
    let notDownloadedRanges := missingRanges readRequestRange downloadedRanges in
    match notDownloadedRanges with
    | [] =>
        Throw "Range for the first read request is fully downloaded, so it should have been deleted"
    | first :: _ =>
        if negb (startNewConnection currentRemainingRange notDownloadedRanges
                   first continueDownloadingThreshold)
        then Ok None
        else if at_least maxRequestSize fileSize then
          let range := mkRange (start first) fileSize in
          Ok (head (missingRanges range downloadedRanges))
        else if end_ first =? end_ readRequestRange then
          Ok (Some (mkRange (start first)
                      (min_plus (start readRequestRange) maxRequestSize fileSize)))
        else Ok (Some first)
    end.

Definition getNewConnectionWithoutExistingConnection
    (downloadedRanges : list Range) (lastResolvedCallbackEnd : option Z)
    (maxRequestSize : size_limit) (fileSize : Z) : option Range :=
  let readAheadRange :=
    if at_least maxRequestSize fileSize then
      let potentialRange :=
        mkRange (default 0 lastResolvedCallbackEnd) fileSize in
      if negb (isRangeCoveredByRanges potentialRange downloadedRanges)
      then Some potentialRange
      else Some (mkRange 0 fileSize)
    else
      match lastResolvedCallbackEnd with
      | Some lastEnd =>
          Some (mkRange lastEnd (min_plus lastEnd maxRequestSize fileSize))
      | None => None
      end in
  match readAheadRange with
  | Some range => head (missingRanges range downloadedRanges)
  | None => None
  end.

Definition getNewConnection (options : Options) : result (option Range) :=
  match readRequestRange options with
  | Some request =>
      getNewConnectionWithExistingReadRequest (currentRemainingRange options)
        request (downloadedRanges options) (maxRequestSize options)
        (fileSize options) (continueDownloadingThreshold options)
  | None =>
      match currentRemainingRange options with
      | None =>
          Ok (getNewConnectionWithoutExistingConnection
                (downloadedRanges options) (lastResolvedCallbackEnd options)
                (maxRequestSize options) (fileSize options))
      | Some _ => Ok None
      end
  end.

End GetNewConnection.

(** ** [util/CachedFilelike/index.ts] *)

Module CachedFilelike.
Import Js Ranges GetNewConnection.

Definition CACHE_BLOCK_SIZE : Z := 1024 * 1024 * 100.
Definition CLOSE_ENOUGH_BYTES_TO_NOT_START_NEW_CONNECTION : Z := 1024 * 1024 * 5.

(** [VirtualLRUBuffer] is not among the sources: the operations the cached
    file calls on it are taken as given. *)
Record BufferOps (Buffer : Type) : Type := mkBufferOps {
  new_buffer : Z -> option (Z * Z) -> Buffer;
  hasData : Buffer -> Z -> Z -> bool;
  slice : Buffer -> Z -> Z -> list byte;
  getRangesWithData : Buffer -> list Range
}.
Arguments new_buffer {Buffer}.
Arguments hasData {Buffer}.
Arguments slice {Buffer}.
Arguments getRangesWithData {Buffer}.

(** A queued read: its range and the promise it settles. *)
Record ReadRequest : Type := mkReadRequest {
  range : Range;
  promise : nat
}.

(** What [read] returns: a promise already resolved, already rejected, or
    the promise of a queued request. *)
Inductive ReadResult : Type :=
| Resolved (bytes : list byte)
| Rejected (message : string)
| Queued (promise : nat).

Section WithBuffer.
Context {Buffer : Type} (B : BufferOps Buffer).
(** [fileReader.open()]: the size of the file, or a failure. *)
Variable fileReader_open : result Z.

Record State : Type := mkState {
  fileSize : option Z;
  cacheSizeInBytes : size_limit;
  virtualBuffer : Buffer;
  readRequests : list ReadRequest;
  lastResolvedCallbackEnd : option Z;
  closed : bool;
  (** the remaining range of the current connection *)
  currentConnection : option Range;
  (** the calls of [fileReader.fetch(offset, length)] so far *)
  fetches : list (Z * Z);
  (** the queued promises resolved so far, with their bytes *)
  resolved : list (nat * list byte);
  next_promise : nat
}.

(** The constructor. *)
Definition new_state (cacheSizeInBytes : option Z) : State :=
  {| fileSize := None;
     cacheSizeInBytes :=
       match cacheSizeInBytes with
       | Some bytes => Bounded bytes
       | None => Unlimited
       end;
     virtualBuffer := new_buffer B 0 None;
     readRequests := []; lastResolvedCallbackEnd := None; closed := false;
     currentConnection := None; fetches := []; resolved := [];
     next_promise := O |}.

Definition with_requests (st : State) (requests : list ReadRequest)
    (lastEnd : option Z) (settled : list (nat * list byte)) : State :=
  {| fileSize := fileSize st; cacheSizeInBytes := cacheSizeInBytes st;
     virtualBuffer := virtualBuffer st; readRequests := requests;
     lastResolvedCallbackEnd := lastEnd; closed := closed st;
     currentConnection := currentConnection st; fetches := fetches st;
     resolved := settled; next_promise := next_promise st |}.

(** [open()] *)
Definition open (st : State) : result State :=
  match fileSize st with
  | Some _ => Ok st
  | None =>
      size <- fileReader_open ;;
      Ok {| fileSize := Some size; cacheSizeInBytes := cacheSizeInBytes st;
            virtualBuffer :=
              match cacheSizeInBytes st with
              | Bounded cache =>
                  if cache >=? size then new_buffer B size None
                  else
                    new_buffer B size
                      (Some (CACHE_BLOCK_SIZE,
                             (cache + CACHE_BLOCK_SIZE - 1) / CACHE_BLOCK_SIZE + 2))
              | Unlimited => new_buffer B size None
              end;
            readRequests := readRequests st;
            lastResolvedCallbackEnd := lastResolvedCallbackEnd st;
            closed := closed st; currentConnection := currentConnection st;
            fetches := fetches st; resolved := resolved st;
            next_promise := next_promise st |}
  end.

(** [size()]: [!this.#fileSize] holds for [undefined] and for [0]. *)
Definition size (st : State) : result Z :=
  match fileSize st with
  | None => Throw "CachedFilelike not opened"
  | Some n => if n =? 0 then Throw "CachedFilelike not opened" else Ok n
  end.

(** [#setConnection(range)]: the current stream, if any, is destroyed and
    a new one is fetched.  (The stream's [data] and [error] callbacks run
    later, on events of the reader.) *)
Definition setConnection (newRange : Range) (st : State) : State :=
  {| fileSize := fileSize st; cacheSizeInBytes := cacheSizeInBytes st;
     virtualBuffer := virtualBuffer st; readRequests := readRequests st;
     lastResolvedCallbackEnd := lastResolvedCallbackEnd st;
     closed := closed st;
     currentConnection := Some newRange;
     fetches := fetches st ++ [(start newRange, end_ newRange - start newRange)];
     resolved := resolved st; next_promise := next_promise st |}.

(** The [filter] of [#updateState]: the cache hits are resolved and
    leave the queue. *)
Fixpoint resolve_hits (st : State) (requests : list ReadRequest)
    (kept : list ReadRequest) (lastEnd : option Z)
    (settled : list (nat * list byte))
    : list ReadRequest * option Z * list (nat * list byte) :=
  match requests with
  | [] => (kept, lastEnd, settled)
  | request :: rest =>
      let r := range request in
      if negb (hasData B (virtualBuffer st) (start r) (end_ r))
      then resolve_hits st rest (kept ++ [request]) lastEnd settled
      else
        resolve_hits st rest kept (Some (end_ r))
          (settled ++ [(promise request,
                        slice B (virtualBuffer st) (start r) (end_ r))])
  end.

(** [#updateState()]: the state it leaves and, when it threw, the
    exception (what it did before the exception stays done). *)
Definition updateState (st : State) : State * option string :=
  if closed st then (st, None)
  else
    let '(kept, lastEnd, settled) :=
      resolve_hits st (readRequests st) [] (lastResolvedCallbackEnd st)
        (resolved st) in
    let st1 := with_requests st kept lastEnd settled in
    match size st1 with
    | Throw m => (st1, Some m)
    | Ok size =>
        match
          getNewConnection
            {| currentRemainingRange := currentConnection st1;
               readRequestRange := range <$> head (readRequests st1);
               downloadedRanges := getRangesWithData B (virtualBuffer st1);
               GetNewConnection.lastResolvedCallbackEnd :=
                 lastResolvedCallbackEnd st1;
               maxRequestSize := cacheSizeInBytes st1;
               GetNewConnection.fileSize := size;
               continueDownloadingThreshold :=
                 CLOSE_ENOUGH_BYTES_TO_NOT_START_NEW_CONNECTION |}
        with
        | Throw m => (st1, Some m)
        | Ok (Some newRange) => (setConnection newRange st1, None)
        | Ok None => (st1, None)
        end
    end.

(** [read(offset, length)]: the promise it returns and the state it
    leaves. *)
Definition read (offset length : Z) (st : State) : ReadResult * State :=
  if length =? 0 then (Resolved [], st)
  else
    let r := mkRange offset (offset + length) in
    if (offset <? 0) || (length <? 0)
    then (Rejected "CachedFilelike#read invalid input", st)
    else if exceeds length (cacheSizeInBytes st)
    then (Rejected "requested data exceeds the cache size", st)
    else
      match open st with
      | Throw m => (Rejected m, st)
      | Ok st1 =>
          match size st1 with
          | Throw m => (Rejected m, st1)
          | Ok size =>
              if end_ r >? size
              then (Rejected "CachedFilelike#read beyond the file size", st1)
              else
                let id := next_promise st1 in
                let st2 :=
                  {| fileSize := fileSize st1;
                     cacheSizeInBytes := cacheSizeInBytes st1;
                     virtualBuffer := virtualBuffer st1;
                     readRequests := readRequests st1 ++ [mkReadRequest r id];
                     lastResolvedCallbackEnd := lastResolvedCallbackEnd st1;
                     closed := closed st1;
                     currentConnection := currentConnection st1;
                     fetches := fetches st1; resolved := resolved st1;
                     next_promise := S id |} in
                match updateState st2 with
                | (st3, None) => (Queued id, st3)
                | (st3, Some m) => (Rejected m, st3)
                end
          end
      end.
(** What [read] has checked of every request it queues: the range ends
    within the file and is no longer than the cache.  Nothing is queued
    before the file is opened. *)
Definition queue_checked (st : State) : Prop :=
  match fileSize st with
  | None => readRequests st = []
  | Some N =>
      Forall (fun request =>
                end_ (range request) <= N
                /\ exceeds (end_ (range request) - start (range request))
                     (cacheSizeInBytes st) = false)
        (readRequests st)
  end.
End WithBuffer.

End CachedFilelike.

(** ** Files to run the sources on *)

Module Fixtures.
Import Js Rostime Types ParseChannel McapUnindexed.

(** Parsers and readers that accept every schema and decode every message
    to an empty object. *)
Definition accepting : Parsers :=
  {| parseIDL := fun _ => Ok [];
     OmgidlMessageReader := fun _ _ => Ok (fun _ => Ok (VObject []));
     parseRos2idl := fun _ => Ok [];
     parseMessageDefinition := fun _ _ => Ok [];
     ROS2MessageReader := fun _ => Ok (fun _ => Ok (VObject [])) |}.

Definition a_schema : SchemaRecord :=
  mkSchemaRecord 1 (mkSchema "pkg/msg/A" "ros2msg" [x61%byte]).

Definition channel_on (id : Z) (topic : string) : ChannelRecord :=
  mkChannelRecord id 1 topic "cdr" ∅.

Definition message_at (channelId logTime : Z) : TypedMcapRecord :=
  MessageR (mkMessageRecord channelId logTime logTime [x00%byte; x01%byte]).

Definition select (names : list string) : TopicSelection :=
  list_to_map (map (fun name => (name, mkSubscribePayload name None)) names).

(** S2 of the spec: four messages on [/a], logged at 5, 3, 4 and 2 ns. *)
Definition unsorted_file : list TypedMcapRecord :=
  [Header "ros2"; SchemaR a_schema; ChannelR (channel_on 1 "/a");
   message_at 1 5; message_at 1 3; message_at 1 4; message_at 1 2].

(** S3 of the spec: [/a] at 1, 3, 7 and [/b] at 2, 5. *)
Definition two_topic_file : list TypedMcapRecord :=
  [Header "ros2"; SchemaR a_schema;
   ChannelR (channel_on 1 "/a"); ChannelR (channel_on 2 "/b");
   message_at 1 1; message_at 2 2; message_at 1 3; message_at 2 5;
   message_at 1 7].

(** The source [initialize] leaves, when it succeeds. *)
(** Two messages on [/a] and one on a topic named [constructor]. *)
Definition inherited_topic_file : list TypedMcapRecord :=
  [Header "ros2"; SchemaR a_schema; ChannelR (channel_on 1 "/a");
   ChannelR (channel_on 2 "constructor");
   message_at 1 5; message_at 2 6; message_at 1 7].

Definition initialized (records : list TypedMcapRecord) : Source :=
  match initialize accepting 1024 records with
  | Ok (_, src) => src
  | Throw _ => new_source
  end.

Definition receiveTimes (items : list IteratorResult) : list Time :=
  flat_map (fun item =>
              match item with
              | message_event _ e => [receiveTime e]
              | _ => []
              end) items.

(** A bag with one connection, on [/chatter], and two messages of 10 and
    3 bytes. *)
Definition chatter : BagSource.Bag :=
  {| BagSource.connections :=
       [(0, BagSource.mkConnection "/chatter" (Some "std_msgs/String") "string data")];
     BagSource.bag_startTime := Some (mkTime 1 0);
     BagSource.bag_endTime := Some (mkTime 2 0);
     BagSource.bag_messageIterator := fun _ _ _ =>
       ([BagSource.mkBagMessage "/chatter" 0 (mkTime 1 0) (repeat x00%byte 10);
         BagSource.mkBagMessage "/chatter" 0 (mkTime 2 0) (repeat x00%byte 3)],
        None) |}.

Definition chatter_externals : BagSource.Externals :=
  {| BagSource.open_bag := fun _ => Ok chatter;
     BagSource.MessageReader := fun _ => Ok (fun _ => Ok (VObject [])) |}.

Definition chatter_source : BagSource.Source :=
  match BagSource.initialize chatter_externals
          (BagSource.new_source (BagSource.input_url "chatter.bag")) with
  | Ok (_, src) => src
  | Throw _ => BagSource.new_source (BagSource.input_url "chatter.bag")
  end.

(** A virtual buffer that never holds data, and a cached file of 10 bytes
    with a cache of 100 bytes, opened. *)
Definition no_data : CachedFilelike.BufferOps unit :=
  {| CachedFilelike.new_buffer := fun _ _ => tt;
     CachedFilelike.hasData := fun _ _ _ => false;
     CachedFilelike.slice := fun _ _ _ => [];
     CachedFilelike.getRangesWithData := fun _ => [] |}.

Definition ten_bytes : CachedFilelike.State :=
  match CachedFilelike.open no_data (Ok 10)
          (CachedFilelike.new_state no_data (Some 100)) with
  | Ok st => st
  | Throw _ => CachedFilelike.new_state no_data (Some 100)
  end.

Definition sizes (items : list IteratorResult) : list number :=
  flat_map (fun item =>
              match item with
              | message_event _ e => [sizeInBytes e]
              | _ => []
              end) items.

End Fixtures.

(** ** Notions the further properties are stated with *)

Module Notions.
Import Js Rostime Types McapUnindexed Cursor Ranges.

(** A value holds a function or a symbol, at any depth (in a map, as a key
    or as a value). *)
Fixpoint contains_callable (v : value) : bool :=
  match v with
  | VSymbol _ | VFunction _ => true
  | VArray elements => existsb contains_callable elements
  | VSet members => existsb contains_callable members
  | VMap entries =>
      existsb (fun entry => contains_callable (fst entry)
                            || contains_callable (snd entry)) entries
  | VObject properties =>
      existsb (fun property => contains_callable (snd property)) properties
  | _ => false
  end.

(** What the estimator guarantees of one value: a size of at least one
    pointer, and an exception exactly for a value that holds a function or a
    symbol. *)
Definition well_estimated (v : value) : Prop :=
  (forall n, MemoryEstimation.estimateObjectSize v = Ok n -> 4 <= n)
  /\ (throws (MemoryEstimation.estimateObjectSize v) <-> contains_callable v = true).

(** An event counts for a backfill at [time] of the selected [topics]. *)
Definition qualifies (topics : TopicSelection) (time : Time)
    (e : MessageEvent) : bool :=
  (compare (receiveTime e) time <=? 0)
  && bool_decide (is_Some (topics !! topic e)).

(** The last event of a list that qualifies and is on [name]. *)
Fixpoint last_qualifying (topics : TopicSelection) (time : Time)
    (name : string) (events : list MessageEvent) : option MessageEvent :=
  match events with
  | [] => None
  | e :: rest =>
      match last_qualifying topics time name rest with
      | Some later => Some later
      | None =>
          if qualifies topics time e && bool_decide (topic e = name)
          then Some e else None
      end
  end.

(** The items at the front of a list that are within the bound of
    [readUntil(end)], and the rest. *)
Fixpoint take_within (end_ : Time) (items : list IteratorResult)
    : list IteratorResult :=
  match items with
  | [] => []
  | item :: rest =>
      if past_end end_ item then [] else item :: take_within end_ rest
  end.

Fixpoint drop_within (end_ : Time) (items : list IteratorResult)
    : list IteratorResult :=
  match items with
  | [] => []
  | item :: rest =>
      if past_end end_ item then item :: rest else drop_within end_ rest
  end.

(** The cursor [readUntil] leaves when no abort is observed. *)
Definition after_readUntil (end_ : Time) (c : IteratorCursor)
    : IteratorCursor :=
  {| iter := {| pending := tail (drop_within end_ (to_deliver c));
                has_return := has_return (iter c) |};
     lastIteratorResult := head (drop_within end_ (to_deliver c));
     abort := None |}.

(** An offset lies in a half-open range. *)
Definition inside (x : Z) (r : Range) : Prop := start r <= x < end_ r.

End Notions.

(** ** The effect of one record on the state of [initialize] *)

Module McapSteps.
Import Js Rostime Types ParseChannel McapUnindexed.

(** What a record that [processRecord] accepts does to the channels, the
    stored events, the estimates and the time bounds: nothing (header,
    schema, known or faulty channel, message of a faulty channel), a new
    channel, a new faulty channel, or one more stored event. *)
Inductive transition (st st' : InitState) : Prop :=
| quiet :
    messagesByChannel st' = messagesByChannel st ->
    channelInfoById st' = channelInfoById st ->
    channelIdsWithErrors st' = channelIdsWithErrors st ->
    messageSizeEstimateByTopic st' = messageSizeEstimateByTopic st ->
    startTime st' = startTime st -> endTime st' = endTime st ->
    transition st st'
| channel_added (r : ChannelRecord) (parsed : ParsedChannel)
    (name : option string) :
    JsMap.get (channel_id r) (channelInfoById st) = None ->
    (channel_id r ∉ channelIdsWithErrors st) ->
    messagesByChannel st'
    = JsMap.set (channel_id r) [] (messagesByChannel st) ->
    channelInfoById st'
    = JsMap.set (channel_id r) (mkChannelInfo r parsed name)
        (channelInfoById st) ->
    channelIdsWithErrors st' = channelIdsWithErrors st ->
    messageSizeEstimateByTopic st' = messageSizeEstimateByTopic st ->
    startTime st' = startTime st -> endTime st' = endTime st ->
    transition st st'
| channel_failed (id : Z) :
    JsMap.get id (channelInfoById st) = None ->
    channelIdsWithErrors st' = {[id]} ∪ channelIdsWithErrors st ->
    messagesByChannel st' = messagesByChannel st ->
    channelInfoById st' = channelInfoById st ->
    messageSizeEstimateByTopic st' = messageSizeEstimateByTopic st ->
    startTime st' = startTime st -> endTime st' = endTime st ->
    transition st st'
| message_stored (id : Z) (info : ChannelInfo) (messages : list MessageEvent)
    (e : MessageEvent) (len : Z) (sized : Estimate) :
    JsMap.get id (channelInfoById st) = Some info ->
    JsMap.get id (messagesByChannel st) = Some messages ->
    topic e = channel_topic (channel info) ->
    0 <= len ->
    estimateMessageSize (topic e) (message e) (messageSizeEstimateByTopic st)
    = Ok (sized, messageSizeEstimateByTopic st') ->
    sizeInBytes e = Math_max (of_Z len) (size_number sized) ->
    messagesByChannel st'
    = JsMap.set id (messages ++ [e]) (messagesByChannel st) ->
    channelInfoById st' = channelInfoById st ->
    channelIdsWithErrors st' = channelIdsWithErrors st ->
    startTime st' = Some (earliest (receiveTime e) (startTime st)) ->
    endTime st' = Some (latest (receiveTime e) (endTime st)) ->
    transition st st'.

(** Every list of stored events belongs to a channel that parsed, and its
    events carry the topic of that channel. *)
Definition channels_consistent (st : InitState) : Prop :=
  forall id events,
    In (id, events) (messagesByChannel st) ->
    (id ∉ channelIdsWithErrors st)
    /\ exists info,
         JsMap.get id (channelInfoById st) = Some info
         /\ List.Forall (fun e => topic e = channel_topic (channel info)) events.

(** Every stored event was received between the running start and end. *)
Definition times_bounded (st : InitState) : Prop :=
  forall id events e,
    In (id, events) (messagesByChannel st) -> In e events ->
    exists s en,
      startTime st = Some s /\ endTime st = Some en
      /\ compare s (receiveTime e) <= 0 /\ compare (receiveTime e) en <= 0.

(** The size an event carries, given the estimates and the wire length of
    its record: [NaN] on a topic named as an inherited property, the larger
    of the wire length and the topic's estimate otherwise. *)
Definition sized_as (estimates : gmap string Z) (e : MessageEvent)
    (byteLength : Z) : Prop :=
  if JsObject.inherits (topic e) then sizeInBytes e = NaN
  else
    exists est,
      estimates !! topic e = Some est
      /\ sizeInBytes e = of_Z (Z.max byteLength est).

(** After the records [seen]: only channels with an info have stored
    events; every cached estimate is the estimate of a stored message of its
    topic, which is no inherited property; and every stored event comes from
    a message record that was seen, and is sized from that record and the
    estimate of its topic. *)
Definition sized_from (seen : list TypedMcapRecord) (st : InitState) : Prop :=
  (forall id,
      JsMap.get id (channelInfoById st) = None ->
      JsMap.get id (messagesByChannel st) = None)
  /\ (forall name est,
        messageSizeEstimateByTopic st !! name = Some est ->
        JsObject.inherits name = false
        /\ exists id events e0,
             JsMap.get id (messagesByChannel st) = Some events
             /\ In e0 events /\ topic e0 = name
             /\ MemoryEstimation.estimateObjectSize (message e0) = Ok est)
  /\ (forall id events e,
        In (id, events) (messagesByChannel st) -> In e events ->
        exists r,
          In (MessageR r) seen /\ channelId r = id
          /\ receiveTime e = fromNanoSec (logTime r)
          /\ sized_as (messageSizeEstimateByTopic st) e
               (Z.of_nat (length (data r)))).

End McapSteps.

(** ** The window of a batch *)

Module BatchNotions.
Import Js Rostime Types Cursor.

(** The cutoff [nextBatch(durationMs)] computes from the first item of the
    batch. *)
Definition cutoff_of (addTime : Time -> Time -> Time) (durationMs : Z)
    (firstResult : IteratorResult) : Time :=
  match firstResult with
  | stamp t => addTime t (mkTime 0 (durationMs * 1000000))
  | message_event _ e => addTime (receiveTime e) (mkTime 0 (durationMs * 1000000))
  | problem _ _ => TIME_ZERO
  end.

Definition is_problem (item : IteratorResult) : bool :=
  match item with
  | problem _ _ => true
  | _ => false
  end.

End BatchNotions.

(** ** [util/BrowserHttpReader/index.ts] *)

Module BrowserHttpReader.

(** The header [fetch(offset, length)] sends: [range: bytes=first-last],
    both ends inclusive. *)
Definition range_header (offset length : Z) : Z * Z :=
  (offset, offset + (length - 1)).

End BrowserHttpReader.

Module CacheNotions.
Import Js Ranges GetNewConnection CachedFilelike.

Section WithBuffer.
Context {Buffer : Type} (B : BufferOps Buffer).

(** The test of the [filter] of [#updateState], and what a hit resolves
    its promise with. *)
Definition is_hit (buffer : Buffer) (request : ReadRequest) : bool :=
  hasData B buffer (start (range request)) (end_ (range request)).

Definition served (buffer : Buffer) (request : ReadRequest)
    : nat * list byte :=
  (promise request,
   slice B buffer (start (range request)) (end_ (range request))).

(** A sequence of [read] calls, each with the outcome [fileReader.open()]
    would have if the call reached it. *)
Definition reads (calls : list (result Z * Z * Z)) (st : State) : State :=
  fold_left
    (fun st '(fileReader_open, offset, length) =>
       snd (read B fileReader_open offset length st))
    calls st.

(** The state in which [read] calls [#updateState]: the new request is at
    the end of the queue. *)
Definition enqueue (offset length : Z) (st : @State Buffer)
    : @State Buffer :=
  {| fileSize := fileSize st; cacheSizeInBytes := cacheSizeInBytes st;
     virtualBuffer := virtualBuffer st;
     readRequests :=
       readRequests st
       ++ [mkReadRequest (mkRange offset (offset + length)) (next_promise st)];
     lastResolvedCallbackEnd := lastResolvedCallbackEnd st;
     closed := closed st; currentConnection := currentConnection st;
     fetches := fetches st; resolved := resolved st;
     next_promise := S (next_promise st) |}.

(** A call [fileReader.fetch(offset, length)] asks for bytes of the file,
    and for at least one. *)
Definition in_file (N : Z) (fetch : Z * Z) : Prop :=
  0 <= fst fetch /\ 0 < snd fetch /\ fst fetch + snd fetch <= N.

(** What holds of the cached file between calls of [read]: before it is
    opened nothing is queued, resolved or fetched; afterwards every queued
    range is a non-empty range of the file, no longer than the cache, and
    every fetch so far asked for bytes of the file. *)
Definition requests_in_file (st : @State Buffer) : Prop :=
  match fileSize st with
  | None =>
      readRequests st = [] /\ lastResolvedCallbackEnd st = None
      /\ fetches st = []
  | Some N =>
      List.Forall
        (fun request =>
           0 <= start (range request) < end_ (range request)
           /\ end_ (range request) <= N
           /\ exceeds (end_ (range request) - start (range request))
                (cacheSizeInBytes st) = false)
        (readRequests st)
      /\ (forall lastEnd, lastResolvedCallbackEnd st = Some lastEnd ->
                          0 <= lastEnd)
      /\ List.Forall (in_file N) (fetches st)
  end.

End WithBuffer.

(** A buffer that holds the first bytes of the file: the number of bytes
    it holds stands for it. *)
Definition downloaded_prefix : BufferOps Z :=
  {| new_buffer := fun _ _ => 0;
     hasData := fun held _ end_ => end_ <=? held;
     slice := fun _ start end_ => repeat x00%byte (Z.to_nat (end_ - start));
     getRangesWithData :=
       fun held => if 0 <? held then [mkRange 0 held] else [] |}.

(** A file of 10 bytes, opened, of which the first 6 are in the cache. *)
Definition six_of_ten : State :=
  {| fileSize := Some 10; cacheSizeInBytes := Bounded 100;
     virtualBuffer := 6; readRequests := [];
     lastResolvedCallbackEnd := None; closed := false;
     currentConnection := None; fetches := []; resolved := [];
     next_promise := O |}.

End CacheNotions.

(** ** [BagIterableSource.getBackfillMessages] *)

Module BagBackfill.
Import Js Rostime Types BagSource.

(** The arguments of the call [this.messageIterator(..)] makes for one
    entry of [args.topics]. *)
Definition newest_first (name : string) (payload : SubscribePayload)
    (time : Time) : MessageIteratorArgs :=
  {| topics := {[ name := payload ]}; start := Some time; end_ := None;
     reverse := Some true |}.

(** The loop over [args.topics.entries()], in the order of insertion: of
    each topic's iterator the first item is taken, and the iterator is left
    at the [break]; an iterator that throws before it yields ends the
    call. *)
Fixpoint collect_first (entries : list (string * SubscribePayload))
    (time : Time) (src : Source) (messages : list MessageEvent)
    : result (list MessageEvent) :=
  match entries with
  | [] => Ok messages
  | (name, payload) :: rest =>
      match messageIterator (newest_first name payload time) src with
      | (message_event _ msgEvent :: _, _) =>
          collect_first rest time src (messages ++ [msgEvent])
      | (_ :: _, _) => collect_first rest time src messages
      | ([], Some failure) => Throw failure
      | ([], None) => collect_first rest time src messages
      end
  end.

Definition compareReceiveTime (a b : MessageEvent) : Z :=
  compare (receiveTime a) (receiveTime b).

Definition getBackfillMessages (entries : list (string * SubscribePayload))
    (time : Time) (src : Source) : result (list MessageEvent) :=
  match bag src with
  | None => Throw "Data source not initialized"
  | Some _ =>
      messages <- collect_first entries time src [] ;;
      Ok (JsArray.sort compareReceiveTime messages)
  end.

End BagBackfill.

Module BagNotions.
Import Js Rostime Types BagSource.

(** The message events among the items of an iterator. *)
Definition events_of (items : list IteratorResult) : list MessageEvent :=
  flat_map (fun item =>
              match item with
              | message_event _ e => [e]
              | _ => []
              end) items.

(** A connection the bag source registers: one with a message type. *)
Definition typed (connection : Connection) (schemaName : string) : Prop :=
  conn_type connection = Some schemaName /\ schemaName <> EmptyString.

(** A message the loop of [messageIterator] passes on: within [end], on a
    registered connection, and read without an exception. *)
Definition passes (end_ : option Time) (src : Source) (m : BagMessage)
    : Prop :=
  (forall t, end_ = Some t -> compare (timestamp m) t <= 0)
  /\ (exists schemaName,
        datatypesByConnectionId src !! bag_connectionId m = Some schemaName
        /\ schemaName <> EmptyString)
  /\ (exists readMessage parsed,
        readersByConnectionId src !! bag_connectionId m = Some readMessage
        /\ readMessage (bag_data m) = Ok parsed).

(** A bag source in which every connection with a datatype has a reader,
    and no datatype is the empty string: what [initialize] leaves. *)
Definition registered (src : Source) : Prop :=
  forall id schemaName,
    datatypesByConnectionId src !! id = Some schemaName ->
    schemaName <> EmptyString /\ is_Some (readersByConnectionId src !! id).

(** A bag with messages on [/chatter] and [/odom], whose iterator follows
    its arguments: the selected topics, from [start] on, newest first when
    [reverse] is set. *)
Definition two_topics : Bag :=
  let stored :=
    [mkBagMessage "/chatter" 0 (mkTime 1 0) (repeat x00%byte 10);
     mkBagMessage "/odom" 1 (mkTime 2 0) (repeat x00%byte 4);
     mkBagMessage "/chatter" 0 (mkTime 3 0) (repeat x00%byte 3);
     mkBagMessage "/odom" 1 (mkTime 4 0) (repeat x00%byte 4)] in
  {| connections :=
       [(0, mkConnection "/chatter" (Some "std_msgs/String") "string data");
        (1, mkConnection "/odom" (Some "nav_msgs/Odometry") "float64 x");
        (2, mkConnection "/raw" None EmptyString)];
     bag_startTime := Some (mkTime 1 0);
     bag_endTime := Some (mkTime 4 0);
     bag_messageIterator := fun topics reverse start =>
       let selected :=
         List.filter (fun m => bool_decide (bag_topic m ∈ topics)) stored in
       (match reverse with
        | Some true =>
            rev (List.filter
                   (fun m =>
                      match start with
                      | Some t => compare (timestamp m) t <=? 0
                      | None => true
                      end) selected)
        | _ =>
            List.filter
              (fun m =>
                 match start with
                 | Some t => compare (timestamp m) t >=? 0
                 | None => true
                 end) selected
        end, None) |}.

(** A bag without messages, whose iterator throws when it is asked for
    them. *)
Definition no_messages : Bag :=
  {| connections := [];
     bag_startTime := None; bag_endTime := None;
     bag_messageIterator := fun _ _ _ => ([], Some "cannot iterate") |}.

Definition no_messages_source : Source :=
  match initialize {| open_bag := fun _ => Ok no_messages;
                      MessageReader := fun _ => Throw "no reader" |}
          (new_source (input_url "no_messages.bag")) with
  | Ok (_, src) => src
  | Throw _ => new_source (input_url "no_messages.bag")
  end.

Definition two_topics_externals : Externals :=
  {| open_bag := fun _ => Ok two_topics;
     MessageReader := fun _ => Ok (fun _ => Ok (VObject [])) |}.

Definition two_topics_source : Source :=
  match initialize two_topics_externals
          (new_source (input_url "two_topics.bag")) with
  | Ok (_, src) => src
  | Throw _ => new_source (input_url "two_topics.bag")
  end.

End BagNotions.

Module ParseNotions.
Import Js ParseChannel.

(** The key [parsedDefinitionsToDatatypes] stores a definition under: the
    root name for the first definition when a root name is given, the
    definition's own name otherwise (none for a definition without name). *)
Definition key_of (rootName : option string) (index : nat)
    (d : MessageDefinition) : option string :=
  match rootName, index with
  | Some root, O => Some root
  | _, _ => def_name d
  end.

End ParseNotions.

Module MissingSpec.
Import Ranges Notions.

(** An offset that is downloaded: one of the downloaded ranges holds it. *)
Definition downloaded_at (x : Z) (downloaded : list Range) : Prop :=
  exists d, In d downloaded /\ inside x d.

(** The missing portion [N] of a request [R] over the downloaded ranges, in
    the spec's words: the sub-ranges of [R] that are not downloaded, none
    of them empty, each as long as can be (two of them do not touch), in
    ascending order. *)
Definition missing_portion (R : Range) (downloaded N : list Range) : Prop :=
  List.Forall (fun g => start g < end_ g) N
  /\ StronglySorted (fun a b => end_ a < start b) N
  /\ forall x,
       (exists g, In g N /\ inside x g)
       <-> (inside x R /\ ~ downloaded_at x downloaded).

End MissingSpec.

(* ===================================================================== *)
(** * Part II: the theorems                                               *)
(* ===================================================================== *)

Module MemoryEstimationFacts.
Import Js MemoryEstimation.

Example estimate_small : estimateObjectSize (VNumber (of_Z 7)) = Ok 4.
Proof. reflexivity. Qed.

Example estimate_array :
  estimateObjectSize (VArray [VString "hello"; VNumber (Finite (1 # 2)); VNull])
  = Ok (28 + 24 + 16 + 4).
Proof. reflexivity. Qed.

Example estimate_nested_function :
  throws (estimateObjectSize (VArray [VNull; VObject [("f", VFunction "g")]])).
Proof. eexists. reflexivity. Qed.

(** The [reduce] over the elements of an array, when every element has an
    estimate. *)
Lemma reduce_values_total (elements : list value) (sizes : list Z) :
  Forall2 (fun v s => estimateObjectSize v = Ok s) elements sizes ->
  forall acc,
    (fix reduce_values (acc : Z) (vals : list value) : result Z :=
       match vals with
       | [] => Ok acc
       | val :: rest =>
           size <- estimateObjectSize val ;; reduce_values (acc + size) rest
       end) acc elements = Ok (acc + total sizes).
Proof.
  induction 1 as [|v sz vs szs Hv _ IH]; intros acc; cbn [total foldr].
  - f_equal. lia.
  - rewrite Hv. cbn [bind]. rewrite IH. f_equal. unfold total. lia.
Qed.

Lemma round_up_to_4_ceil (len : Z) :
  exists c, round_up_to_4 len = 4 * c /\ 4 * (c - 1) < len <= 4 * c.
Proof.
  exists ((len + 3) / 4). unfold round_up_to_4. split; [lia|].
  pose proof (Z.div_mod (len + 3) 4 ltac:(lia)).
  pose proof (Z.mod_pos_bound (len + 3) 4 ltac:(lia)). lia.
Qed.

Lemma small_integer_is_integer (n : number) :
  is_small_integer n = true -> Number_isInteger n = true.
Proof.
  destruct n; cbn; try discriminate.
  intros H. apply andb_prop in H as [H _]. apply andb_prop in H as [H _]. exact H.
Qed.

(** C9, as the claim states it, fails: a number that is not an integer is
    estimated at 16 bytes ([HEAP_NUMBER_SIZE = 8 + 2 * 4]), not 12, and so is
    a bigint; and an integer outside the small range is estimated at 4 bytes
    like a small one, not as an "other number". *)
Lemma estimateObjectSize_not_12 :
  estimateObjectSize (VNumber (Finite (1 # 2))) = Ok 16
  /\ estimateObjectSize (VNumber (Finite (1 # 2))) <> Ok 12
  /\ estimateObjectSize (VBigInt 5) = Ok 16
  /\ estimateObjectSize (VBigInt 5) <> Ok 12
  /\ is_small_integer (of_Z (2 ^ 40)) = false
  /\ estimateObjectSize (VNumber (of_Z (2 ^ 40))) = Ok 4
  /\ estimateObjectSize (VNumber (of_Z (2 ^ 40))) <> Ok 12.
Proof. repeat split; try reflexivity; discriminate. Qed.

(** C9 (amended): [estimateObjectSize] returns 4 for [null], [undefined],
    booleans and every integer-valued number (in particular the small
    integers); 16 for the other numbers and for bigints;
    [4 + 12 + 4 * ceil(L / 4)] for a string of length [L];
    [100 + byteLength] for a typed array view; [4 + 24] plus the sum of the
    element estimates for an array; and it throws for functions and
    symbols. *)
Theorem estimateObjectSize_cases :
  estimateObjectSize VNull = Ok 4
  /\ estimateObjectSize VUndefined = Ok 4
  /\ (forall b, estimateObjectSize (VBoolean b) = Ok 4)
  /\ (forall n, Number_isInteger n = true -> estimateObjectSize (VNumber n) = Ok 4)
  /\ (forall n, is_small_integer n = true -> estimateObjectSize (VNumber n) = Ok 4)
  /\ (forall n, Number_isInteger n = false -> estimateObjectSize (VNumber n) = Ok 16)
  /\ (forall z, estimateObjectSize (VBigInt z) = Ok 16)
  /\ (forall s, exists c,
         4 * (c - 1) < Z.of_nat (String.length s) <= 4 * c
         /\ estimateObjectSize (VString s) = Ok (4 + 12 + 4 * c))
  /\ (forall bytes,
         estimateObjectSize (VTypedArray bytes)
         = Ok (100 + Z.of_nat (length bytes)))
  /\ (forall elements sizes,
         Forall2 (fun v s => estimateObjectSize v = Ok s) elements sizes ->
         estimateObjectSize (VArray elements) = Ok (4 + 24 + total sizes))
  /\ (forall name, throws (estimateObjectSize (VFunction name)))
  /\ (forall description, throws (estimateObjectSize (VSymbol description))).
Proof.
  repeat apply conj; try reflexivity.
  - intros n Hn. cbn. rewrite Hn. reflexivity.
  - intros n Hn. cbn. rewrite (small_integer_is_integer n Hn). reflexivity.
  - intros n Hn. cbn. rewrite Hn. reflexivity.
  - intros s. destruct (round_up_to_4_ceil (Z.of_nat (String.length s)))
      as (c & Hc & Hb).
    exists c. split; [exact Hb|]. cbn. rewrite Hc. reflexivity.
  - intros elements sizes H. cbn.
    rewrite (reduce_values_total elements sizes H 0). reflexivity.
  - intros name. eexists. reflexivity.
  - intros description. eexists. reflexivity.
Qed.

Lemma estimateObjectSize_cases_witness :
  estimateObjectSize (VNumber (of_Z (2 ^ 40))) = Ok 4
  /\ estimateObjectSize (VNumber (of_Z 7)) = Ok 4
  /\ estimateObjectSize (VNumber (Finite (3 # 2))) = Ok 16
  /\ estimateObjectSize (VArray [VString "ab"; VBoolean true])
     = Ok (4 + 24 + total [20; 4]).
Proof.
  destruct estimateObjectSize_cases
    as (_ & _ & _ & Hint & Hsmall & Hother & _ & _ & _ & Harray & _ & _).
  split; [apply Hint; reflexivity|].
  split; [apply Hsmall; reflexivity|].
  split; [apply Hother; reflexivity|].
  apply Harray. repeat constructor.
Defined.

End MemoryEstimationFacts.

Module ParseChannelFacts.
Import Js ParseChannel.

Lemma includes_In (l : list string) (s : string) :
  includes l s = true <-> In s l.
Proof.
  unfold includes. rewrite existsb_exists. split.
  - intros (x & Hx & Heq). apply String.eqb_eq in Heq. subst. exact Hx.
  - intros H. exists s. split; [exact H | apply String.eqb_refl].
Qed.

Lemma includes_not_In (l : list string) (s : string) :
  includes l s = false <-> ~ In s l.
Proof.
  rewrite <- includes_In. destruct (includes l s); split; congruence.
Qed.

(** Parsers that accept everything, to run [parseChannel] on examples. *)
Example parseChannel_known_empty_name :
  let P := {| parseIDL := fun _ => Ok [];
              OmgidlMessageReader := fun _ _ => Ok (fun _ => Ok VNull);
              parseRos2idl := fun _ => Ok [];
              parseMessageDefinition := fun _ _ => Ok [];
              ROS2MessageReader := fun _ => Ok (fun _ => Ok VNull) |} in
  ~ throws (parseChannel P
              (mkChannel "cdr" (Some (mkSchema "std_msgs/msg/Empty" "ros2msg" [])))
              None)
  /\ throws (parseChannel P
               (mkChannel "cdr" (Some (mkSchema "pkg/msg/Thing" "ros2msg" [])))
               None)
  /\ ~ throws (parseChannel P
                 (mkChannel "cdr" (Some (mkSchema "pkg/msg/Thing" "ros2msg" [])))
                 (Some true)).
Proof.
  cbn. repeat split.
  - intros [m H]. discriminate.
  - eexists. reflexivity.
  - intros [m H]. discriminate.
Qed.

Section WithParsers.
Variable P : Parsers.

(** C8: [parseChannel] fails for every message encoding other than "cdr";
    for a "cdr" channel it fails when there is no schema or the schema
    encoding is not one of "ros2msg", "ros2idl", "omgidl"; and it fails for
    a channel whose ROS schema body (encodings ros1msg/ros2msg/ros2idl) is
    empty, unless the schema name is a well-known empty type or the caller
    passes [allowEmptySchema] (in which two cases the call goes on to the
    parser of the schema encoding). *)
Theorem parseChannel_failures :
  (forall channel allowEmptySchema,
      messageEncoding channel <> "cdr" ->
      throws (parseChannel P channel allowEmptySchema))
  /\ (forall channel allowEmptySchema,
         messageEncoding channel = "cdr" ->
         ~ In (schema_encoding_or_empty channel) ["ros2msg"; "ros2idl"; "omgidl"] ->
         throws (parseChannel P channel allowEmptySchema))
  /\ (forall channel s allowEmptySchema,
         schema channel = Some s ->
         In (schema_encoding s) ["ros1msg"; "ros2msg"; "ros2idl"] ->
         schema_data s = [] ->
         ~ In (schema_name s) KNOWN_EMPTY_SCHEMA_NAMES ->
         allowEmptySchema <> Some true ->
         parseChannel P channel allowEmptySchema
         = Throw ("Schema for " ++ schema_name s ++ " is empty")%string)
  /\ (forall channel s allowEmptySchema,
         schema channel = Some s ->
         messageEncoding channel = "cdr" ->
         schema_encoding s = "ros2msg" ->
         schema_data s = [] ->
         In (schema_name s) KNOWN_EMPTY_SCHEMA_NAMES \/ allowEmptySchema = Some true ->
         parseChannel P channel allowEmptySchema
         = (parsedDefinitions <- parseMessageDefinition P EmptyString true ;;
            reader <- ROS2MessageReader P parsedDefinitions ;;
            Ok {| datatypes :=
                    parsedDefinitionsToDatatypes parsedDefinitions
                      (Some (schema_name s));
                  deserialize := reader |})).
Proof.
  repeat apply conj.
  - intros channel allow Hne. unfold parseChannel.
    destruct (rejects_empty_schema channel allow); [eexists; reflexivity|].
    apply String.eqb_neq in Hne. rewrite Hne. eexists; reflexivity.
  - intros channel allow Hcdr Hnot. unfold parseChannel.
    destruct (rejects_empty_schema channel allow); [eexists; reflexivity|].
    rewrite Hcdr. cbn [String.eqb Ascii.eqb Bool.eqb].
    unfold schema_encoding_or_empty in Hnot.
    destruct (schema channel) as [s|]; [|eexists; reflexivity].
    destruct (String.eqb_spec (schema_encoding s) "ros2msg") as [E1|_];
      [exfalso; apply Hnot; rewrite E1; cbn; tauto|].
    destruct (String.eqb_spec (schema_encoding s) "ros2idl") as [E2|_];
      [exfalso; apply Hnot; rewrite E2; cbn; tauto|].
    destruct (String.eqb_spec (schema_encoding s) "omgidl") as [E3|_];
      [exfalso; apply Hnot; rewrite E3; cbn; tauto|].
    eexists; reflexivity.
  - intros channel s allow Hs Henc Hdata Hname Hallow. unfold parseChannel.
    assert (Hrej : rejects_empty_schema channel allow = true).
    { unfold rejects_empty_schema, schema_encoding_or_empty. rewrite Hs, Hdata.
      apply includes_In in Henc. apply includes_not_In in Hname.
      rewrite Henc, Hname. cbn.
      destruct allow as [[|]|]; try reflexivity. congruence. }
    rewrite Hrej, Hs. reflexivity.
  - intros channel s allow Hs Hcdr Henc Hdata Hor. unfold parseChannel.
    assert (Hrej : rejects_empty_schema channel allow = false).
    { unfold rejects_empty_schema, schema_encoding_or_empty. rewrite Hs.
      destruct Hor as [Hknown | ->].
      - apply includes_In in Hknown. rewrite Hknown.
        rewrite !andb_false_r. reflexivity.
      - reflexivity. }
    rewrite Hrej, Hcdr, Hs, Henc, Hdata. reflexivity.
Qed.

End WithParsers.

Lemma parseChannel_failures_witness :
  let P := {| parseIDL := fun _ => Ok [];
              OmgidlMessageReader := fun _ _ => Ok (fun _ => Ok VNull);
              parseRos2idl := fun _ => Ok [];
              parseMessageDefinition := fun _ _ => Ok [];
              ROS2MessageReader := fun _ => Ok (fun _ => Ok VNull) |} in
  throws (parseChannel P (mkChannel "json" None) None)
  /\ throws (parseChannel P
               (mkChannel "cdr" (Some (mkSchema "pkg/Thing" "ros1msg" [x61%byte])))
               None)
  /\ parseChannel P
       (mkChannel "ros1" (Some (mkSchema "pkg/Thing" "ros1msg" []))) None
     = Throw "Schema for pkg/Thing is empty"
  /\ parseChannel P
       (mkChannel "cdr" (Some (mkSchema "std_msgs/Empty" "ros2msg" []))) None
     = Ok {| datatypes := parsedDefinitionsToDatatypes [] (Some "std_msgs/Empty");
             deserialize := fun _ => Ok VNull |}.
Proof.
  intros P.
  destruct (parseChannel_failures P) as (H1 & H2 & H3 & H4).
  split; [apply H1; discriminate|].
  split.
  { apply H2; [reflexivity|]. cbn. intros [H|[H|[H|[]]]]; discriminate. }
  split.
  { apply (H3 _ (mkSchema "pkg/Thing" "ros1msg" [])); try reflexivity.
    - cbn. tauto.
    - cbn. intros [H|[H|[]]]; discriminate.
    - discriminate. }
  apply (H4 _ (mkSchema "std_msgs/Empty" "ros2msg" [])); try reflexivity.
  left. cbn. tauto.
Defined.

End ParseChannelFacts.

Module CursorFacts.
Import Js Rostime Types Cursor.

(** The stashed item, as a list of zero or one item. *)
Lemma option_list_cases {A : Type} (o : option A) :
  option_list o = match o with Some x => [x] | None => [] end.
Proof. destruct o; reflexivity. Qed.

Lemma past_end_false (end_ : Time) (item : IteratorResult) :
  past_end end_ item = false ->
  match item with
  | message_event _ e => compare (receiveTime e) end_ <= 0
  | stamp t => compare t end_ < 0
  | problem _ _ => True
  end.
Proof. destruct item; cbn; intros H; [lia | exact I | lia]. Qed.

Lemma past_end_true (end_ : Time) (item : IteratorResult) :
  past_end end_ item = true ->
  match item with
  | message_event _ e => compare (receiveTime e) end_ > 0
  | stamp t => compare t end_ >= 0
  | problem _ _ => False
  end.
Proof. destruct item; cbn; intros H; [lia | discriminate | lia]. Qed.

(** *** The loops are those of the source *)

(** One turn of the loop of [nextBatch], written with [next] as the source
    has it. *)
Lemma nextBatch_loop_unfold cutoffTime results c :
  nextBatch_loop cutoffTime results (pending (iter c)) (abort c)
  = match next c with
    | (None, c') => (results, pending (iter c'), abort c')
    | (Some result, c') =>
        if ends_batch cutoffTime result
        then (results ++ [result], pending (iter c'), abort c')
        else nextBatch_loop cutoffTime (results ++ [result])
               (pending (iter c')) (abort c')
    end.
Proof.
  unfold next, iter_next.
  destruct c as [[items ret] last signal]; cbn [iter pending abort has_return].
  destruct items as [|x rest]; cbn [nextBatch_loop];
    destruct (aborted signal); reflexivity.
Qed.

(** The loop of [nextBatch] only moves items from the iterator to the
    batch: it never drops one and never reorders. *)
Lemma nextBatch_loop_conserves cutoffTime items :
  forall results signal out rest signal',
    nextBatch_loop cutoffTime results items signal = (out, rest, signal') ->
    exists taken, out = results ++ taken /\ items = taken ++ rest.
Proof.
  induction items as [|x items IH]; intros results signal out rest signal';
    cbn [nextBatch_loop]; destruct (aborted signal).
  - intros [= <- <- <-]. exists []. rewrite app_nil_r. auto.
  - intros [= <- <- <-]. exists []. rewrite app_nil_r. auto.
  - intros [= <- <- <-]. exists []. rewrite app_nil_r. auto.
  - destruct (ends_batch cutoffTime x).
    + intros [= <- <- <-]. exists [x]. auto.
    + intros H. apply IH in H as (taken & -> & ->).
      exists (x :: taken). rewrite <- app_assoc. auto.
Qed.

(** *** [nextBatch] *)

(** A batch that is returned starts with the first item the iterator had
    left. *)
Lemma nextBatch_first addTime durationMs c results c' :
  nextBatch addTime durationMs c = (Some results, c') ->
  aborted (abort c) = false
  /\ exists first more rest,
       results = first :: more /\ pending (iter c) = first :: rest.
Proof.
  unfold nextBatch, next, iter_next.
  destruct c as [[items ret] last signal]; cbn [iter pending abort has_return].
  destruct (aborted signal); [discriminate|].
  destruct items as [|first rest]; [discriminate|].
  assert (Hloop : forall cutoff out rest' signal',
    nextBatch_loop cutoff [first] rest (await_pull signal) = (out, rest', signal') ->
    exists more, out = first :: more).
  { intros cutoff out rest' signal' E.
    apply nextBatch_loop_conserves in E as (taken & -> & _). eauto. }
  destruct first as [id e | id p | t]; cbn [fst snd iter pending abort].
  - destruct (nextBatch_loop _ _ _ _) as [[out rest'] signal'] eqn:E.
    intros [= <- <-]. apply Hloop in E as (more & ->). eauto 10.
  - intros [= <- <-]. eauto 10.
  - destruct (nextBatch_loop _ _ _ _) as [[out rest'] signal'] eqn:E.
    intros [= <- <-]. apply Hloop in E as (more & ->). eauto 10.
Qed.

(** [undefined] is returned only when the first [next()] returned it. *)
Lemma nextBatch_undefined addTime durationMs c c' :
  nextBatch addTime durationMs c = (None, c') ->
  aborted (abort c) = true \/ pending (iter c) = [].
Proof.
  unfold nextBatch, next, iter_next.
  destruct c as [[items ret] last signal]; cbn [iter pending abort has_return].
  destruct (aborted signal); [auto|].
  destruct items as [|first rest]; [auto|].
  destruct first as [id e | id p | t]; cbn [fst snd iter pending abort];
    try discriminate;
    destruct (nextBatch_loop _ _ _ _) as [[out rest'] signal']; discriminate.
Qed.

(** C10: [nextBatch(durationMs)] never resolves to an empty array: it
    returns [undefined] when the cursor is aborted or the iterator is
    exhausted before it yields a first item, and otherwise an array that
    starts with the first item the iterator had left. *)
Theorem nextBatch_never_empty (addTime : Time -> Time -> Time)
    (durationMs : Z) (c : IteratorCursor) :
  match fst (nextBatch addTime durationMs c) with
  | None => aborted (abort c) = true \/ pending (iter c) = []
  | Some results =>
      aborted (abort c) = false
      /\ pending (iter c) <> []
      /\ results <> []
      /\ exists first more rest,
           results = first :: more /\ pending (iter c) = first :: rest
  end.
Proof.
  destruct (nextBatch addTime durationMs c) as [[results|] c'] eqn:E;
    cbn [fst].
  - apply nextBatch_first in E as (Hab & first & more & rest & -> & Hp).
    split; [exact Hab|]. split; [rewrite Hp; discriminate|].
    split; [discriminate|]. eauto.
  - eapply nextBatch_undefined, E.
Qed.

Lemma nextBatch_loop_signal cutoffTime items :
  forall results out rest signal',
    nextBatch_loop cutoffTime results items None = (out, rest, signal') ->
    signal' = None.
Proof.
  induction items as [|x items IH]; intros results out rest signal';
    cbn [nextBatch_loop aborted await_pull fmap option_fmap option_map].
  - intros [= _ _ <-]. reflexivity.
  - destruct (ends_batch cutoffTime x).
    + intros [= _ _ <-]. reflexivity.
    + apply IH.
Qed.

(** A batch takes its items off the front of the iterator, in order. *)
Lemma nextBatch_conserves addTime durationMs c results c' :
  nextBatch addTime durationMs c = (Some results, c') ->
  pending (iter c) = results ++ pending (iter c')
  /\ (abort c = None -> abort c' = None).
Proof.
  unfold nextBatch, next, iter_next.
  destruct c as [[items ret] last signal]; cbn [iter pending abort has_return].
  destruct (aborted signal); [discriminate|].
  destruct items as [|first rest]; [discriminate|].
  assert (Hloop : forall cutoff out rest' signal',
    nextBatch_loop cutoff [first] rest (await_pull signal) = (out, rest', signal') ->
    first :: rest = out ++ rest' /\ (signal = None -> signal' = None)).
  { intros cutoff out rest' signal' E. split.
    - apply nextBatch_loop_conserves in E as (taken & -> & ->). reflexivity.
    - intros ->. apply nextBatch_loop_signal in E. exact E. }
  destruct first as [id e | id p | t]; cbn [fst snd iter pending abort].
  - destruct (nextBatch_loop _ _ _ _) as [[out rest'] signal'] eqn:E.
    intros [= <- <-]. cbn. eapply Hloop, E.
  - intros [= <- <-]. cbn. split; [reflexivity|]. intros ->. reflexivity.
  - destruct (nextBatch_loop _ _ _ _) as [[out rest'] signal'] eqn:E.
    intros [= <- <-]. cbn. eapply Hloop, E.
Qed.

(** The consumer of [WorkerIterableSource.messageIterator], which stops at
    the first [undefined] or empty batch, re-emits every item of the
    iterator, in order, when the cursor is not aborted. *)
Lemma consume_all addTime (fuel : nat) :
  forall c,
    abort c = None ->
    (length (pending (iter c)) < fuel)%nat ->
    consume addTime fuel c = Some (pending (iter c)).
Proof.
  induction fuel as [|fuel IH]; intros c Hab Hlen; [lia|].
  cbn [consume].
  destruct (nextBatch addTime 17 c) as [[results|] c'] eqn:E.
  - pose proof (nextBatch_first _ _ _ _ _ E)
      as (_ & first & more & rest & -> & Hp).
    apply nextBatch_conserves in E as [Hcons Hsig].
    rewrite IH.
    + rewrite Hcons. reflexivity.
    + auto.
    + rewrite Hcons in Hlen. cbn in Hlen. rewrite length_app in Hlen. lia.
  - apply nextBatch_undefined in E as [Hne | ->]; [|reflexivity].
    rewrite Hab in Hne. discriminate.
Qed.

(** *** [readUntil] *)

(** What the loop of [readUntil] does when it is not aborted: it appends
    the items within the bound, stops at the first one past it, which it
    stashes, and otherwise runs the iterator dry. *)
Lemma readUntil_loop_spec end_ items :
  forall results signal out rest stash signal',
    readUntil_loop end_ results items signal = (Some out, rest, stash, signal') ->
    exists taken,
      out = results ++ taken
      /\ Forall (fun item => past_end end_ item = false) taken
      /\ items = taken ++ option_list stash ++ rest
      /\ match stash with
         | Some x => past_end end_ x = true
         | None => rest = []
         end.
Proof.
  induction items as [|x items IH]; intros results signal out rest stash signal';
    cbn [readUntil_loop]; destruct (aborted (await_pull signal)); try discriminate.
  - intros [= <- <- <- <-]. exists []. rewrite app_nil_r. auto.
  - destruct (past_end end_ x) eqn:Hx.
    + intros [= <- <- <- <-]. exists []. rewrite app_nil_r. cbn. auto.
    + intros H. apply IH in H as (taken & -> & Hall & -> & Hstash).
      exists (x :: taken). rewrite <- app_assoc. cbn. auto.
Qed.

(** The first item that satisfies a test splits a list in one way only. *)
Lemma first_match_unique {A : Type} (p : A -> bool) (l1 l2 : list A)
    (x y : A) (r1 r2 : list A) :
  Forall (fun a => p a = false) l1 -> p x = true ->
  Forall (fun a => p a = false) l2 -> p y = true ->
  l1 ++ x :: r1 = l2 ++ y :: r2 ->
  l1 = l2 /\ x = y /\ r1 = r2.
Proof.
  revert l2. induction l1 as [|a l1 IH]; intros [|b l2] H1 Hx H2 Hy E; cbn in E.
  - injection E as -> ->. auto.
  - injection E as -> _. inversion H2; subst. congruence.
  - injection E as <- _. inversion H1; subst. congruence.
  - injection E as -> E. inversion H1; inversion H2; subst.
    destruct (IH l2) as (-> & -> & ->); auto.
Qed.

Lemma readUntil_spec end_ c results c' :
  readUntil end_ c = (Some results, c') ->
  Forall (fun item => past_end end_ item = false) results
  /\ to_deliver c = results ++ to_deliver c'
  /\ match lastIteratorResult c' with
     | Some x => past_end end_ x = true
     | None => pending (iter c') = []
     end.
Proof.
  unfold readUntil, to_deliver.
  destruct c as [[items ret] last signal]; cbn [iter pending abort has_return
    lastIteratorResult].
  destruct (aborted signal); [discriminate|].
  destruct last as [last|].
  - destruct (past_end end_ last) eqn:Hlast.
    + intros [= <- <-]. cbn. auto.
    + destruct (readUntil_loop end_ [last] items signal)
        as [[[out rest] stash] signal'] eqn:E.
      intros [= -> <-]. cbn [iter pending lastIteratorResult].
      apply readUntil_loop_spec in E as (taken & -> & Hall & -> & Hstash).
      split; [|split].
      * cbn. constructor; assumption.
      * cbn. reflexivity.
      * exact Hstash.
  - destruct (readUntil_loop end_ [] items signal)
      as [[[out rest] stash] signal'] eqn:E.
    intros [= -> <-]. cbn [iter pending lastIteratorResult].
    apply readUntil_loop_spec in E as (taken & -> & Hall & -> & Hstash).
    split; [|split].
    + exact Hall.
    + reflexivity.
    + exact Hstash.
Qed.

(** A stashed item within the bound of the call is the first item of the
    result. *)
Lemma readUntil_starts_with_stash end_ c x results c' :
  lastIteratorResult c = Some x ->
  past_end end_ x = false ->
  readUntil end_ c = (Some results, c') ->
  exists more, results = x :: more.
Proof.
  unfold readUntil. intros -> ->.
  destruct (aborted (abort c)); [discriminate|].
  destruct (readUntil_loop end_ [x] (pending (iter c)) (abort c))
    as [[[out rest] stash] signal'] eqn:E.
  intros [= -> <-].
  apply readUntil_loop_spec in E as (taken & -> & _). eauto.
Qed.

(** S4 of the spec: stamps at 1, 2, 3, 4. *)
Example readUntil_stamps :
  let c0 := new_cursor
              (mkAsyncIterator
                 [stamp (mkTime 0 1); stamp (mkTime 0 2);
                  stamp (mkTime 0 3); stamp (mkTime 0 4)] true) None in
  let '(r1, c1) := readUntil (mkTime 0 2) c0 in
  let '(r2, c2) := readUntil (mkTime 0 3) c1 in
  r1 = Some [stamp (mkTime 0 1)]
  /\ lastIteratorResult c1 = Some (stamp (mkTime 0 2))
  /\ r2 = Some [stamp (mkTime 0 2)]
  /\ lastIteratorResult c2 = Some (stamp (mkTime 0 3))
  /\ pending (iter c2) = [stamp (mkTime 0 4)].
Proof. vm_compute. repeat split. Qed.

(** An abort that fires while an item is awaited loses that item. *)
Example readUntil_aborted_mid_loop :
  readUntil (mkTime 0 9)
    (new_cursor (mkAsyncIterator [stamp (mkTime 0 1); stamp (mkTime 0 2)] true)
       (Some 1%nat))
  = (None, {| iter := mkAsyncIterator [stamp (mkTime 0 2)] true;
              lastIteratorResult := None; abort := Some 0%nat |}).
Proof. reflexivity. Qed.

(** A cursor whose signal never fires gets an array from [readUntil]. *)
Lemma readUntil_loop_returns end_ items :
  forall results,
    exists out rest stash,
      readUntil_loop end_ results items None = (Some out, rest, stash, None).
Proof.
  induction items as [|x items IH]; intros results; cbn.
  - eauto.
  - destruct (past_end end_ x); [eauto|]. apply IH.
Qed.

Lemma readUntil_returns end_ c :
  abort c = None ->
  exists results c', readUntil end_ c = (Some results, c') /\ abort c' = None.
Proof.
  unfold readUntil. intros Hab. rewrite Hab. cbn [aborted].
  destruct (lastIteratorResult c) as [last|].
  - destruct (past_end end_ last); [eauto|].
    destruct (readUntil_loop_returns end_ (pending (iter c)) [last])
      as (out & rest & stash & ->). eauto.
  - destruct (readUntil_loop_returns end_ (pending (iter c)) [])
      as (out & rest & stash & ->). eauto.
Qed.

(** C3: a cursor that is not aborted gets an array from [readUntil(end)];
    and whenever [readUntil(end)] returns an array, it holds only messages
    with [receiveTime <= end] and stamps with [stamp < end]; nothing is
    lost: what the cursor had to deliver is the result followed by what it
    has still to deliver; the first item past the bound ([receiveTime > end]
    for a message, [stamp >= end] for a stamp) is the stashed one, the
    result is exactly what came before it; and a following [readUntil(end')]
    with the stashed item within its bound returns the stashed item as the
    first element of its result. *)
Theorem readUntil_bound_and_stash (end_ : Time) (c : IteratorCursor) :
  (abort c = None ->
   exists results c', readUntil end_ c = (Some results, c') /\ abort c' = None)
  /\ forall results c',
       readUntil end_ c = (Some results, c') ->
       (forall item, In item results ->
          match item with
          | message_event _ e => compare (receiveTime e) end_ <= 0
          | stamp t => compare t end_ < 0
          | problem _ _ => True
          end)
       /\ to_deliver c = results ++ to_deliver c'
       /\ (forall before x after,
             to_deliver c = before ++ x :: after ->
             Forall (fun item => past_end end_ item = false) before ->
             past_end end_ x = true ->
             results = before
             /\ lastIteratorResult c' = Some x
             /\ pending (iter c') = after)
       /\ (forall x, lastIteratorResult c' = Some x ->
             match x with
             | message_event _ e => compare (receiveTime e) end_ > 0
             | stamp t => compare t end_ >= 0
             | problem _ _ => False
             end)
       /\ (forall x end' results' c'',
             lastIteratorResult c' = Some x ->
             past_end end' x = false ->
             readUntil end' c' = (Some results', c'') ->
             exists more, results' = x :: more).
Proof.
  split; [apply readUntil_returns|].
  intros results c' H.
  pose proof (readUntil_spec _ _ _ _ H) as (Hall & Hcons & Hstash).
  repeat apply conj.
  - intros item Hin. apply past_end_false.
    rewrite Forall_forall in Hall. apply Hall, list_elem_of_In, Hin.
  - exact Hcons.
  - intros before x after Hsplit Hbefore Hx.
    rewrite Hcons in Hsplit. unfold to_deliver in Hsplit.
    destruct (lastIteratorResult c') as [y|].
    + cbn in Hsplit.
      destruct (first_match_unique (past_end end_) results before y x
                  (pending (iter c')) after) as (-> & -> & ->); auto.
    + rewrite Hstash in Hsplit. cbn in Hsplit. rewrite app_nil_r in Hsplit.
      subst results. apply Forall_app in Hall as [_ Hall].
      inversion Hall; subst. congruence.
  - intros x Hx. rewrite Hx in Hstash. apply past_end_true, Hstash.
  - intros x end' results' c'' Hx Hin H'.
    eapply readUntil_starts_with_stash; eauto.
Qed.

Lemma readUntil_bound_and_stash_witness :
  let s := fun n => stamp (mkTime 0 n) in
  let c := new_cursor (mkAsyncIterator [s 1; s 2; s 3; s 4] true) None in
  let c' := {| iter := mkAsyncIterator [s 3; s 4] true;
               lastIteratorResult := Some (s 2); abort := None |} in
  (exists results c'',
      readUntil (mkTime 0 2) c = (Some results, c'') /\ abort c'' = None)
  /\ readUntil (mkTime 0 2) c = (Some [s 1], c')
  /\ to_deliver c = [s 1] ++ to_deliver c'
  /\ ([s 1] = [s 1]
      /\ lastIteratorResult c' = Some (s 2)
      /\ pending (iter c') = [s 3; s 4])
  /\ (exists more,
        [s 2] = s 2 :: more).
Proof.
  intros s c c'.
  assert (H : readUntil (mkTime 0 2) c = (Some [s 1], c')) by reflexivity.
  destruct (readUntil_bound_and_stash (mkTime 0 2) c) as [Hreturns Hprops].
  destruct (Hprops [s 1] c' H) as (_ & Hcons & Hfirst & _ & Hnext).
  split; [apply Hreturns; reflexivity|].
  split; [exact H|].
  split; [exact Hcons|].
  split.
  - apply (Hfirst [s 1] (s 2) [s 3; s 4]).
    + reflexivity.
    + repeat constructor.
    + reflexivity.
  - apply (Hnext (s 2) (mkTime 0 3) [s 2]
             {| iter := mkAsyncIterator [s 4] true;
                lastIteratorResult := Some (s 3); abort := None |});
      reflexivity.
Defined.

(** *** [end] *)

(** After [end()], [next()] and [nextBatch()] of a cursor over a generator
    return [undefined]. *)
Lemma next_after_end addTime durationMs c :
  has_return (iter c) = true ->
  fst (next (end_cursor c)) = None
  /\ fst (nextBatch addTime durationMs (end_cursor c)) = None.
Proof.
  intros Hret. unfold nextBatch, next, end_cursor, iter_return, iter_next.
  rewrite Hret. cbn. destruct (aborted (abort c)); auto.
Qed.

(** After [end()], [readUntil] of a cursor that is not aborted still
    returns an array: empty, or holding the stashed item. *)
Lemma readUntil_after_end end_ c :
  has_return (iter c) = true ->
  aborted (abort c) = false ->
  aborted (await_pull (abort c)) = false ->
  fst (readUntil end_ (end_cursor c))
  = Some (match lastIteratorResult c with
          | Some last => if past_end end_ last then [] else [last]
          | None => []
          end).
Proof.
  intros Hret Hab Hab'. unfold readUntil, end_cursor, iter_return.
  rewrite Hret. cbn [iter pending abort lastIteratorResult has_return].
  destruct (abort c) as [[|[|k]]|]; try discriminate;
    destruct (lastIteratorResult c) as [last|]; cbn;
    try destruct (past_end end_ last); reflexivity.
Qed.

(** C4 fails for [readUntil]: after [end()] on a cursor over a generator
    that was not aborted, [next()] and [nextBatch()] return [undefined], but
    [readUntil(end)] returns an empty array. *)
Theorem readUntil_after_end_returns_array (addTime : Time -> Time -> Time) :
  let c := end_cursor
             (new_cursor
                (mkAsyncIterator [stamp (mkTime 0 1); stamp (mkTime 0 2)] true)
                None) in
  fst (next c) = None
  /\ fst (nextBatch addTime 17 c) = None
  /\ fst (readUntil (mkTime 0 5) c) = Some []
  /\ fst (readUntil (mkTime 0 5) c) <> None.
Proof. cbn. repeat split. discriminate. Qed.

End CursorFacts.

Module JsArrayFacts.
Import JsArray.

(** [sort] with a comparator that never puts two elements each strictly
    after the other. *)
Section Sort.
Context {A : Type} (compareFn : A -> A -> Z).
Hypothesis compareFn_asym : forall a b, compareFn a b > 0 -> compareFn b a <= 0.

Lemma insert_HdRel (y x : A) (l : list A) :
  compareFn y x <= 0 ->
  HdRel (fun a b => compareFn a b <= 0) y l ->
  HdRel (fun a b => compareFn a b <= 0) y (insert compareFn x l).
Proof.
  intros Hyx Hl. destruct l as [|z l]; cbn.
  - constructor. exact Hyx.
  - destruct (compareFn x z >? 0); constructor.
    + inversion Hl; assumption.
    + exact Hyx.
Qed.

Lemma insert_Sorted (x : A) (l : list A) :
  Sorted (fun a b => compareFn a b <= 0) l ->
  Sorted (fun a b => compareFn a b <= 0) (insert compareFn x l).
Proof.
  induction 1 as [|y l Hl IH Hhd]; cbn.
  - repeat constructor.
  - destruct (compareFn x y >? 0) eqn:E.
    + constructor; [exact IH|].
      apply insert_HdRel; [|exact Hhd].
      apply compareFn_asym. lia.
    + constructor; [constructor; assumption|].
      constructor. lia.
Qed.

Lemma sort_Sorted (l : list A) :
  Sorted (fun a b => compareFn a b <= 0) (sort compareFn l).
Proof.
  induction l as [|x l IH]; cbn.
  - constructor.
  - apply insert_Sorted, IH.
Qed.
End Sort.

Lemma insert_Permutation {A : Type} (compareFn : A -> A -> Z) (x : A) (l : list A) :
  Permutation (insert compareFn x l) (x :: l).
Proof.
  induction l as [|y l IH]; cbn; [reflexivity|].
  destruct (compareFn x y >? 0); [|reflexivity].
  rewrite IH. apply perm_swap.
Qed.

Lemma sort_Permutation {A : Type} (compareFn : A -> A -> Z) (l : list A) :
  Permutation (sort compareFn l) l.
Proof.
  induction l as [|x l IH]; cbn; [reflexivity|].
  rewrite insert_Permutation, IH. reflexivity.
Qed.

End JsArrayFacts.

Module McapUnindexedFacts.
Import Js Rostime Types ParseChannel McapUnindexed Fixtures.

Lemma compare_asym (a b : Time) : compare a b > 0 -> compare b a <= 0.
Proof. unfold compare. cbn. repeat case_match; lia. Qed.

Example unsorted_file_initializes :
  exists init src,
    initialize accepting 1024 unsorted_file = Ok (init, src)
    /\ init_start init = mkTime 0 2 /\ init_end init = mkTime 0 5
    /\ (receiveTime <$> default [] (JsMap.get 1 (default [] (msgEventsByChannel src))))
       = [mkTime 0 5; mkTime 0 3; mkTime 0 4; mkTime 0 2].
Proof. eexists _, _. vm_compute. repeat split. Qed.

(** The yielded items are message events, consecutive ones in the order the
    sort left them. *)
Lemma yielded_in_receive_order (sorted : list (Z * MessageEvent)) :
  Sorted (fun a b => compareReceiveTime a b <= 0) sorted ->
  Sorted in_receive_order
    (map (fun '(channelId, msgEvent) => message_event (Some channelId) msgEvent)
       sorted).
Proof.
  induction 1 as [|[ida ea] l Hl IH Hhd]; cbn; constructor; [exact IH|].
  destruct Hhd as [|[idb eb] l Hab]; cbn; constructor. exact Hab.
Qed.

(** What [messageIterator] yields: exactly the stored events that are within
    the time range and on a selected topic. *)
Lemma messageIterator_yields_selected args byChannel start end_ items :
  messageIterator args (mkSource (Some byChannel) (Some start) (Some end_))
  = Ok items ->
  topics args <> ∅ ->
  Permutation items
    (map (fun '(channelId, msgEvent) => message_event (Some channelId) msgEvent)
       (collect (topics args)
          (default start (Types.start args)) (default end_ (Types.end_ args))
          byChannel)).
Proof.
  unfold messageIterator. cbn [msgEventsByChannel source_start source_end].
  intros H Hne.
  assert (Hsize : (size (topics args) =? 0)%nat = false).
  { apply Nat.eqb_neq. intros Hz. apply Hne. apply map_size_empty_iff, Hz. }
  destruct (Types.start args), (Types.end_ args); cbn in *; rewrite Hsize in H;
    injection H as <-; apply Permutation_map, JsArrayFacts.sort_Permutation.
Qed.

(** C1: every [messageIterator] call on an initialized source (with or
    without [reverse], which the generator does not read) yields items of
    which any two consecutive message events have receive times in
    non-decreasing order, and it throws on a source that is not initialized
    only; the file with messages on [/a] logged at 5, 3, 4, 2 ns yields the
    receive times (0,2), (0,3), (0,4), (0,5); and an empty topic selection
    yields no items. *)
Theorem messageIterator_in_receive_order :
  (forall args src,
      match messageIterator args src with
      | Ok items =>
          Sorted in_receive_order items
          /\ Forall (fun item => exists id e, item = message_event id e) items
      | Throw _ => msgEventsByChannel src = None
      end)
  /\ (exists items,
         messageIterator
           {| topics := select ["/a"]; start := None; end_ := None;
              reverse := None |}
           (initialized unsorted_file) = Ok items
         /\ receiveTimes items
            = [mkTime 0 2; mkTime 0 3; mkTime 0 4; mkTime 0 5])
  /\ (forall byChannel source_start source_end start end_ reverse,
         messageIterator
           {| topics := ∅; start := start; end_ := end_; reverse := reverse |}
           (mkSource (Some byChannel) source_start source_end)
         = Ok []).
Proof.
  repeat apply conj.
  - intros args src. unfold messageIterator.
    destruct (msgEventsByChannel src) as [byChannel|]; [|reflexivity].
    destruct (if start args is Some s then Some s else source_start src)
      as [start|]; [|split; constructor].
    destruct (if end_ args is Some e then Some e else source_end src)
      as [end_|]; [|split; constructor].
    destruct (size (topics args) =? 0)%nat; [split; constructor|].
    split.
    + apply yielded_in_receive_order.
      apply (JsArrayFacts.sort_Sorted compareReceiveTime).
      intros a b. apply compare_asym.
    + apply Forall_forall. intros item Hin.
      apply list_elem_of_fmap in Hin as ([id e] & -> & _). eauto.
  - eexists. split; vm_compute; reflexivity.
  - intros byChannel s e start end_ reverse. unfold messageIterator.
    cbn [msgEventsByChannel topics Types.start Types.end_ source_start
         source_end].
    rewrite map_size_empty. cbn [Nat.eqb]. repeat case_match; reflexivity.
Qed.

(** C2 fails on the code: [getBackfillMessages] returns, for each
    requested topic, the event that comes last in the order of the store
    among those with [receiveTime <= time], and returns them in the order in
    which their topics were first met.  On the file of S3 ([/a] at 1, 3, 7,
    [/b] at 2, 5) the call at time (0,4) returns [/a@3, /b@2], which is not
    sorted by receive time; on the file of S2 ([/a] at 5, 3, 4, 2) the call
    at time (0,10) returns [/a@2], not the latest event [/a@5]. *)
Theorem getBackfillMessages_unsorted_and_not_latest :
  (exists events,
      getBackfillMessages
        {| backfill_topics := select ["/a"; "/b"]; time := mkTime 0 4 |}
        (initialized two_topic_file) = Ok events
      /\ map (fun e => (topic e, receiveTime e)) events
         = [("/a", mkTime 0 3); ("/b", mkTime 0 2)]
      /\ ~ Sorted (fun a b => compare a b <= 0) (map receiveTime events))
  /\ (exists events,
         getBackfillMessages
           {| backfill_topics := select ["/a"]; time := mkTime 0 10 |}
           (initialized unsorted_file) = Ok events
         /\ map (fun e => (topic e, receiveTime e)) events
            = [("/a", mkTime 0 2)]
         /\ In (mkTime 0 5)
              (map (fun entry => receiveTime (snd entry))
                 (stored_events
                    (default [] (msgEventsByChannel (initialized unsorted_file)))))
         /\ compare (mkTime 0 5) (mkTime 0 10) <= 0
         /\ compare (mkTime 0 2) (mkTime 0 5) < 0).
Proof.
  split.
  - eexists. split; [vm_compute; reflexivity|]. split; [reflexivity|].
    cbn. intros H. inversion H as [|? ? _ Hhd]; subst.
    inversion Hhd as [|? ? Hle]; subst. vm_compute in Hle. apply Hle. reflexivity.
  - eexists. split; [vm_compute; reflexivity|]. split; [reflexivity|].
    split; [vm_compute; tauto|]. split; vm_compute; congruence.
Qed.

End McapUnindexedFacts.

Module BagSourceFacts.
Import Js Rostime Types BagSource Fixtures.

Lemma Math_max_NaN (n : number) : Math_max n NaN = NaN.
Proof. destruct n; reflexivity. Qed.

(** The estimate table of a bag source is empty when the source is created
    and [initialize] leaves it as it is: nothing ever writes to it. *)
Lemma register_connections_estimates E conns :
  forall topics src topics' src',
    register_connections E conns topics src = Ok (topics', src') ->
    messageSizeEstimateByTopic src' = messageSizeEstimateByTopic src.
Proof.
  induction conns as [|[id connection] conns IH]; intros topics src topics' src';
    cbn [register_connections].
  - intros [= _ <-]. reflexivity.
  - destruct (conn_type connection) as [[|a schemaName]|]; try apply IH.
    destruct (MessageReader E (messageDefinition connection)) as [reader|m];
      cbn [bind]; [|discriminate].
    intros H. apply IH in H. exact H.
Qed.

Lemma initialize_estimates E input init src :
  initialize E (new_source input) = Ok (init, src) ->
  messageSizeEstimateByTopic src = ∅.
Proof.
  unfold initialize. cbn [BagSource.input new_source].
  destruct input; try discriminate;
    (destruct (open_bag E _) as [opened|m]; cbn [bind]; [|discriminate];
     destruct (register_connections E _ _ _) as [[topics src']|m] eqn:Hreg;
       [|discriminate];
     intros [= _ <-]; apply register_connections_estimates in Hreg; exact Hreg).
Qed.

(** With an empty estimate table every message event the loop yields has
    [sizeInBytes = Math.max(byteLength, undefined) = NaN]. *)
Lemma iterate_sizes_NaN end_ src msgs ended :
  messageSizeEstimateByTopic src = ∅ ->
  Forall (fun size => size = NaN) (sizes (fst (iterate end_ src msgs ended))).
Proof.
  intros Hempty. induction msgs as [|m msgs IH]; cbn [iterate]; [constructor|].
  destruct (if end_ is Some e then _ else false); [constructor|].
  destruct (datatypesByConnectionId src !! bag_connectionId m)
    as [[|a schemaName]|]; try constructor.
  destruct (readersByConnectionId src !! bag_connectionId m) as [readMessage|];
    [|exact IH].
  destruct (readMessage (bag_data m)) as [parsed|err]; [|constructor].
  destruct (iterate end_ src msgs ended) as [items failure]. cbn in *.
  constructor; [|exact IH].
  rewrite Hempty, lookup_empty. reflexivity.
Qed.

Lemma messageIterator_sizes_NaN E input init src args :
  initialize E (new_source input) = Ok (init, src) ->
  Forall (fun size => size = NaN) (sizes (fst (messageIterator args src))).
Proof.
  intros Hinit. unfold messageIterator.
  destruct (bag src) as [b|]; [|constructor].
  destruct (bag_messageIterator b _ _ _) as [msgs ended].
  apply iterate_sizes_NaN. eapply initialize_estimates, Hinit.
Qed.

(** C7 fails on the code: on a bag with two messages of 10 and 3 bytes on
    [/chatter], the iterator of the bag source yields two message events
    whose [sizeInBytes] is [NaN], not the number [max(10, estimate)]: the
    estimate read from [messageSizeEstimateByTopic] is [undefined]. *)
Theorem bag_sizeInBytes_is_NaN :
  exists e1 e2,
    messageIterator
      {| topics := select ["/chatter"]; start := None; end_ := None;
         reverse := None |}
      chatter_source
    = ([message_event None e1; message_event None e2], None)
    /\ sizeInBytes e1 = NaN /\ sizeInBytes e2 = NaN
    /\ Math_max (of_Z 10) (ToNumber None) = NaN.
Proof. eexists _, _. split; [vm_compute; reflexivity|]. repeat split. Qed.

End BagSourceFacts.

Module RangesFacts.
Import Ranges.

Lemma intersect_single (bounds : Range) (ranges : list Range) :
  intersect [bounds] ranges = omap (intersect_one bounds) ranges.
Proof. unfold intersect. cbn. apply app_nil_r. Qed.

Lemma omap_cons {A B : Type} (f : A -> option B) (x : A) (l : list A) :
  omap f (x :: l)
  = match f x with Some y => y :: omap f l | None => omap f l end.
Proof. reflexivity. Qed.

Lemma intersect_one_Some (b d c : Range) :
  intersect_one b d = Some c ->
  start c = Z.max (start b) (start d)
  /\ end_ c = Z.min (end_ b) (end_ d)
  /\ start c < end_ c.
Proof.
  unfold intersect_one. case_match; [|discriminate].
  intros [= <-]. cbn. lia.
Qed.

Lemma intersect_one_None (b d : Range) :
  intersect_one b d = None ->
  Z.min (end_ b) (end_ d) <= Z.max (start b) (start d).
Proof. unfold intersect_one. case_match; [discriminate|]. lia. Qed.

(** The first missing range lies within the bounds, is not empty, and starts
    at an offset that no downloaded range covers. *)
Lemma gaps_head_uncovered (b : Range) (ranges : list Range) :
  sorted_disjoint ranges ->
  forall from g,
    start b <= from ->
    Forall (fun d => from <= start d \/ from = start b) ranges ->
    head (gaps from (omap (intersect_one b) ranges) (end_ b)) = Some g ->
    (from <= start g /\ start g < end_ g /\ end_ g <= end_ b)
    /\ forall d, In d ranges -> ~ (start d <= start g < end_ d).
Proof.
  induction 1 as [|d ranges Hsorted IH Hd]; intros from g Hfrom Hinv.
  - cbn. case_match; [|discriminate]. intros [= <-]. cbn.
    split; [lia|]. intros d [].
  - rewrite omap_cons. inversion Hinv as [|? ? Hinv_d Hinv_rest]; subst.
    destruct (intersect_one b d) as [c|] eqn:Hc.
    + apply intersect_one_Some in Hc as (Hcs & Hce & Hne).
      cbn [gaps]. destruct (Z.ltb_spec from (start c)) as [Hgap|Hgap].
      * cbn. intros [= <-]. cbn. split; [lia|].
        intros d' [<- | Hin]; [lia|].
        rewrite Forall_forall in Hd. specialize (Hd d').
        pose proof (Hd ltac:(apply list_elem_of_In; exact Hin)). lia.
      * cbn [app]. intros Hg.
        assert (Hinv' : Forall (fun d' => end_ c <= start d' \/ end_ c = start b)
                          ranges).
        { eapply Forall_impl; [exact Hd|]. cbn. intros d' Hd'. lia. }
        destruct (IH (end_ c) g ltac:(lia) Hinv' Hg) as [Hin Hun].
        split; [lia|].
        intros d' [<- | Hd']; [lia | apply Hun, Hd'].
    + apply intersect_one_None in Hc. intros Hg.
      destruct (IH from g Hfrom Hinv_rest Hg) as [Hin Hun].
      split; [exact Hin|].
      intros d' [<- | Hd']; [lia | apply Hun, Hd'].
Qed.

Lemma missingRanges_head (bounds : Range) (ranges : list Range) (g : Range) :
  sorted_disjoint ranges ->
  head (missingRanges bounds ranges) = Some g ->
  (start bounds <= start g /\ start g < end_ g /\ end_ g <= end_ bounds)
  /\ forall d, In d ranges -> ~ (start d <= start g < end_ d).
Proof.
  intros Hsorted. unfold missingRanges, complement. rewrite intersect_single.
  apply gaps_head_uncovered; [exact Hsorted | lia |].
  apply Forall_forall. intros d _. right. reflexivity.
Qed.

(** From an offset that no downloaded range covers, up to a later offset,
    something is missing, and it starts at that offset. *)
Lemma missingRanges_from_uncovered (ranges : list Range) (from upto : Z) :
  from < upto ->
  (forall d, In d ranges -> ~ (start d <= from < end_ d)) ->
  exists g,
    head (missingRanges (mkRange from upto) ranges) = Some g /\ start g = from.
Proof.
  intros Hlt. unfold missingRanges, complement. rewrite intersect_single.
  cbn [start end_].
  induction ranges as [|d ranges IH]; intros Hun.
  - cbn. case_match; [|lia]. eexists. split; reflexivity.
  - rewrite omap_cons.
    destruct (intersect_one (mkRange from upto) d) as [c|] eqn:Hc.
    + apply intersect_one_Some in Hc as (Hcs & Hce & Hne). cbn in Hcs, Hce.
      pose proof (Hun d ltac:(left; reflexivity)).
      cbn [gaps]. destruct (Z.ltb_spec from (start c)) as [Hgap|Hgap]; [|lia].
      eexists. split; reflexivity.
    + apply IH. intros d' Hd'. apply Hun. right. exact Hd'.
Qed.

Example missingRanges_example :
  missingRanges (mkRange 10 50) [mkRange 0 20; mkRange 30 40; mkRange 60 70]
  = [mkRange 20 30; mkRange 40 50].
Proof. reflexivity. Qed.

End RangesFacts.

Module GetNewConnectionFacts.
Import Js Ranges GetNewConnection RangesFacts.

Lemma startNewConnection_should_start current notDownloaded first threshold :
  startNewConnection current notDownloaded first threshold = true
  <-> should_start current notDownloaded first threshold.
Proof.
  unfold startNewConnection, should_start.
  destruct current as [c|]; [|tauto].
  rewrite orb_true_iff, negb_true_iff, Z.ltb_lt. split.
  - intros H. right. exists c. tauto.
  - intros [H | (c' & [= <-] & H)]; [discriminate | tauto].
Qed.

Example new_connection_prefetch :
  getNewConnection
    {| currentRemainingRange := None;
       readRequestRange := Some (mkRange 10 20);
       downloadedRanges := [mkRange 0 12];
       lastResolvedCallbackEnd := None;
       maxRequestSize := Bounded 50; fileSize := 100;
       continueDownloadingThreshold := 5 |}
  = Ok (Some (mkRange 12 60)).
Proof. reflexivity. Qed.

Example new_connection_whole_file :
  getNewConnection
    {| currentRemainingRange := Some (mkRange 80 100);
       readRequestRange := Some (mkRange 10 20);
       downloadedRanges := [mkRange 0 12; mkRange 30 40];
       lastResolvedCallbackEnd := None;
       maxRequestSize := Unlimited; fileSize := 100;
       continueDownloadingThreshold := 5 |}
  = Ok (Some (mkRange 12 30)).
Proof. reflexivity. Qed.

Example keep_connection :
  getNewConnection
    {| currentRemainingRange := Some (mkRange 8 100);
       readRequestRange := Some (mkRange 10 20);
       downloadedRanges := [];
       lastResolvedCallbackEnd := None;
       maxRequestSize := Bounded 50; fileSize := 100;
       continueDownloadingThreshold := 5 |}
  = Ok None.
Proof. reflexivity. Qed.

(** The call with a pending read request [R], over what the code's own
    [missingRanges] gives for it. *)
Lemma with_read_request_over_missingRanges
    (current : option Range) (R : Range) (downloaded : list Range)
    (lastEnd : option Z) (maxRequestSize : size_limit) (fileSize threshold : Z)
    (first : Range) (rest : list Range) :
  let opts :=
    {| currentRemainingRange := current; readRequestRange := Some R;
       downloadedRanges := downloaded; lastResolvedCallbackEnd := lastEnd;
       GetNewConnection.maxRequestSize := maxRequestSize;
       GetNewConnection.fileSize := fileSize;
       continueDownloadingThreshold := threshold |} in
  missingRanges R downloaded = first :: rest ->
  sorted_disjoint downloaded ->
  end_ R <= fileSize ->
  exceeds (end_ R - start R) maxRequestSize = false ->
  (should_start current (first :: rest) first threshold
   <-> exists target, getNewConnection opts = Ok (Some target))
  /\ (~ should_start current (first :: rest) first threshold ->
      getNewConnection opts = Ok None)
  /\ (forall target,
        getNewConnection opts = Ok (Some target) ->
        match maxRequestSize with
        | Unlimited =>
            head (missingRanges (mkRange (start first) fileSize) downloaded)
            = Some target
        | Bounded limit =>
            if limit >=? fileSize then
              head (missingRanges (mkRange (start first) fileSize) downloaded)
              = Some target
            else if end_ first =? end_ R then
              target = mkRange (start first) (Z.min (start R + limit) fileSize)
            else target = first
        end).
Proof.
  intros opts Hmissing Hsorted Hfile Hsize.
  assert (Hhead : head (missingRanges R downloaded) = Some first)
    by (rewrite Hmissing; reflexivity).
  destruct (missingRanges_head R downloaded first Hsorted Hhead)
    as [(HRs & Hne & HRe) Huncovered].
  destruct (missingRanges_from_uncovered downloaded (start first) fileSize
              ltac:(lia) Huncovered) as (whole & Hwhole & _).
  assert (Hrun : getNewConnection opts
    = if negb (startNewConnection current (first :: rest) first threshold)
      then Ok None
      else if at_least maxRequestSize fileSize then Ok (Some whole)
      else if end_ first =? end_ R then
        Ok (Some (mkRange (start first) (min_plus (start R) maxRequestSize fileSize)))
      else Ok (Some first)).
  { unfold getNewConnection, getNewConnectionWithExistingReadRequest, opts.
    cbn [readRequestRange currentRemainingRange downloadedRanges
         GetNewConnection.maxRequestSize GetNewConnection.fileSize
         continueDownloadingThreshold].
    rewrite Hsize, Hmissing, Hwhole. reflexivity. }
  pose proof (startNewConnection_should_start current (first :: rest) first
                threshold) as Hiff.
  destruct (startNewConnection current (first :: rest) first threshold);
    cbn [negb] in Hrun.
  - assert (Hyes : should_start current (first :: rest) first threshold)
      by (apply Hiff; reflexivity).
    split; [|split].
    + split; [|intros _; exact Hyes]. intros _.
      rewrite Hrun. repeat case_match; eauto.
    + intros Hno. contradiction.
    + intros target. rewrite Hrun.
      destruct maxRequestSize as [limit|]; cbn [at_least min_plus].
      * destruct (limit >=? fileSize); [intros [= <-]; exact Hwhole|].
        destruct (end_ first =? end_ R); intros [= <-]; reflexivity.
      * intros [= <-]. exact Hwhole.
  - assert (Hno : ~ should_start current (first :: rest) first threshold)
      by (intros H; apply Hiff in H; discriminate).
    split; [|split].
    + split; [intros H; contradiction|].
      intros (target & Ht). rewrite Hrun in Ht. discriminate.
    + intros _. exact Hrun.
    + intros target. rewrite Hrun. discriminate.
Qed.

End GetNewConnectionFacts.

Module CachedFilelikeFacts.
Import Js Ranges GetNewConnection CachedFilelike Fixtures.

Example ten_bytes_opened :
  fileSize ten_bytes = Some 10 /\ cacheSizeInBytes ten_bytes = Bounded 100
  /\ fetches ten_bytes = [].
Proof. repeat split. Qed.

(** A read within the file is queued and opens a connection. *)
Example read_opens_connection :
  let '(result, st) := read no_data (Ok 10) 2 5 ten_bytes in
  result = Queued 0%nat /\ fetches st = [(2, 8)]
  /\ currentConnection st = Some (mkRange 2 10).
Proof. vm_compute. repeat split. Qed.

(** The zero-length case comes first: on an opened file of 10 bytes, the
    zero-length read at offset 11 resolves to an empty array, as every
    zero-length read does. *)
Lemma read_zero_length_beyond_file :
  11 + 0 > 10
  /\ fileSize ten_bytes = Some 10
  /\ read no_data (Ok 10) 11 0 ten_bytes = (Resolved [], ten_bytes)
  /\ forall message st, read no_data (Ok 10) 11 0 ten_bytes <> (Rejected message, st).
Proof.
  split; [lia|]. split; [reflexivity|]. split; [reflexivity|].
  intros message st. vm_compute. discriminate.
Qed.

Ltac rejected := eexists; reflexivity.

Section WithBuffer.
Context {Buffer : Type} (B : BufferOps Buffer).
Variable fileReader_open : result Z.

(** C5: on an opened cached file of size [N] with cache size [S], the
    cases of [read] in the order the spec lists them.  [read(offset, 0)]
    resolves to an empty byte array, whatever the offset, and leaves the
    state as it is (no connection is opened); [read(offset, length)] with
    [length > S] rejects, for every cache size [S >= 0] and, when the
    length is not zero (the first case), for every [S]; [read(offset,
    length)] with [offset + length > N] rejects when the length is not zero
    (the first case); and a rejected read opens no connection either. *)
Theorem read_edge_cases (st : State) (N : Z) :
  fileSize st = Some N ->
  (forall offset, read B fileReader_open offset 0 st = (Resolved [], st))
  /\ (forall offset length S,
         cacheSizeInBytes st = Bounded S ->
         0 <= S \/ length <> 0 ->
         length > S ->
         exists message,
           read B fileReader_open offset length st = (Rejected message, st))
  /\ (forall offset length,
         length <> 0 -> offset + length > N ->
         exists message,
           read B fileReader_open offset length st = (Rejected message, st)).
Proof.
  intros Hopen. repeat apply conj.
  - intros offset. reflexivity.
  - intros offset length S HS Hcase Hgt. unfold read.
    assert (Hnz : length <> 0) by lia.
    destruct (Z.eqb_spec length 0) as [|_]; [contradiction|].
    destruct ((offset <? 0) || (length <? 0)); [rejected|].
    rewrite HS. cbn [exceeds].
    destruct (Z.gtb_spec length S); [rejected | lia].
  - intros offset length Hnz Hgt. unfold read.
    destruct (Z.eqb_spec length 0) as [|_]; [contradiction|].
    destruct ((offset <? 0) || (length <? 0)); [rejected|].
    destruct (exceeds length (cacheSizeInBytes st)); [rejected|].
    unfold open. rewrite Hopen. unfold size. rewrite Hopen.
    destruct (Z.eqb_spec N 0); [rejected|].
    cbn [end_]. destruct (Z.gtb_spec (offset + length) N); [rejected | lia].
Qed.

(** The queue of pending requests only ever holds requests that [read] has
    checked: these are the read-request ranges [getNewConnection] is called
    with. *)
Lemma resolve_hits_kept (P : ReadRequest -> Prop) st requests :
  forall kept lastEnd settled,
    Forall P kept -> Forall P requests ->
    Forall P (fst (fst (resolve_hits B st requests kept lastEnd settled))).
Proof.
  induction requests as [|request requests IH]; intros kept lastEnd settled Hk Hr;
    cbn [resolve_hits]; [exact Hk|].
  inversion Hr; subst.
  destruct (negb (hasData B (virtualBuffer st) _ _)); apply IH; auto.
  apply Forall_app. auto.
Qed.

Lemma updateState_queue (P : ReadRequest -> Prop) st :
  Forall P (readRequests st) ->
  Forall P (readRequests (fst (updateState B st)))
  /\ fileSize (fst (updateState B st)) = fileSize st
  /\ cacheSizeInBytes (fst (updateState B st)) = cacheSizeInBytes st.
Proof.
  intros Hq. unfold updateState.
  destruct (closed st); [auto|].
  pose proof (resolve_hits_kept P st (readRequests st) []
                (lastResolvedCallbackEnd st) (resolved st)
                ltac:(constructor) Hq) as Hkept.
  destruct (resolve_hits B st (readRequests st) [] _ _)
    as [[kept lastEnd] settled].
  cbn [fst] in Hkept.
  destruct (size (with_requests st kept lastEnd settled)); [|auto].
  destruct (getNewConnection _) as [[newRange|]|]; auto.
Qed.

Lemma read_queue_checked (st : State) (offset length : Z) :
  queue_checked st ->
  queue_checked (snd (read B fileReader_open offset length st)).
Proof.
  intros Hq. unfold read.
  destruct (length =? 0); [exact Hq|].
  destruct ((offset <? 0) || (length <? 0)); [exact Hq|].
  destruct (exceeds length (cacheSizeInBytes st)) eqn:Hcache; [exact Hq|].
  assert (Hopen : match open B fileReader_open st with
                  | Ok st1 =>
                      queue_checked st1
                      /\ cacheSizeInBytes st1 = cacheSizeInBytes st
                  | Throw _ => True
                  end).
  { unfold open. unfold queue_checked in Hq.
    destruct (fileSize st) as [n|] eqn:Hn.
    - split; [|reflexivity]. unfold queue_checked. rewrite Hn. exact Hq.
    - destruct fileReader_open as [n|m]; cbn [bind]; [|exact I].
      split; [|reflexivity]. unfold queue_checked. cbn. rewrite Hq. constructor. }
  destruct (open B fileReader_open st) as [st1|m]; [|exact Hq].
  destruct Hopen as [Hq1 Hc1].
  unfold size. unfold queue_checked in Hq1.
  destruct (fileSize st1) as [N|] eqn:HN;
    [|cbn [snd]; unfold queue_checked; rewrite HN; exact Hq1].
  destruct (N =? 0); [cbn [snd]; unfold queue_checked; rewrite HN; exact Hq1|].
  cbn [end_]. destruct (Z.gtb_spec (offset + length) N) as [|Hfit];
    [cbn [snd]; unfold queue_checked; rewrite HN; exact Hq1|].
  match goal with |- context [updateState B ?st2] =>
    pose proof (updateState_queue
      (fun request =>
         end_ (range request) <= N
         /\ exceeds (end_ (range request) - start (range request))
              (cacheSizeInBytes st1) = false) st2) as Hupdate;
    destruct (updateState B st2) as [st3 failure] end.
  cbn [readRequests fileSize cacheSizeInBytes fst] in Hupdate.
  destruct Hupdate as (Hq3 & Hf3 & Hc3).
  { apply Forall_app. split; [exact Hq1|]. constructor; [|constructor].
    cbn [range start end_]. split; [exact Hfit|].
    replace (offset + length - offset) with length by lia.
    rewrite Hc1. exact Hcache. }
  assert (queue_checked st3).
  { unfold queue_checked. rewrite Hf3, Hc3. exact Hq3. }
  destruct failure; assumption.
Qed.

Lemma new_state_queue_checked (cache : option Z) :
  queue_checked (new_state B cache).
Proof. reflexivity. Qed.

End WithBuffer.

Lemma read_edge_cases_witness :
  read no_data (Ok 10) 3 0 ten_bytes = (Resolved [], ten_bytes)
  /\ (exists message,
        read no_data (Ok 10) 0 101 ten_bytes = (Rejected message, ten_bytes))
  /\ (exists message,
        read no_data (Ok 10) 8 3 ten_bytes = (Rejected message, ten_bytes)).
Proof.
  destruct (read_edge_cases no_data (Ok 10) ten_bytes 10 eq_refl)
    as (Hzero & Hcache & Hfile).
  split; [apply Hzero|].
  split; [apply (Hcache 0 101 100); [reflexivity | left; lia | lia]|].
  apply Hfile; lia.
Defined.

End CachedFilelikeFacts.

Module MemoryEstimationMore.
Import Js MemoryEstimation Notions.

(** Induction on values, through the lists of their parts. *)
Lemma value_nested_ind (P : value -> Prop) :
  P VNull -> P VUndefined -> (forall b, P (VBoolean b)) ->
  (forall n, P (VNumber n)) -> (forall z, P (VBigInt z)) ->
  (forall s, P (VString s)) -> (forall d, P (VSymbol d)) ->
  (forall f, P (VFunction f)) ->
  (forall elements, List.Forall P elements -> P (VArray elements)) ->
  (forall bytes, P (VTypedArray bytes)) ->
  (forall members, List.Forall P members -> P (VSet members)) ->
  (forall entries,
      List.Forall (fun entry => P (fst entry) /\ P (snd entry)) entries ->
      P (VMap entries)) ->
  (forall properties,
      List.Forall (fun property => P (snd property)) properties ->
      P (VObject properties)) ->
  forall v, P v.
Proof.
  intros Hnull Hundef Hbool Hnum Hbig Hstr Hsym Hfun Harr Hta Hset Hmap Hobj.
  fix IH 1. intros [| |b|n|z|s|d|f|elements|bytes|members|entries|properties].
  - exact Hnull.
  - exact Hundef.
  - apply Hbool.
  - apply Hnum.
  - apply Hbig.
  - apply Hstr.
  - apply Hsym.
  - apply Hfun.
  - apply Harr. induction elements as [|x elements IHl]; constructor;
      [apply IH | exact IHl].
  - apply Hta.
  - apply Hset. induction members as [|x members IHl]; constructor;
      [apply IH | exact IHl].
  - apply Hmap. induction entries as [|[k v] entries IHl]; constructor;
      [split; apply IH | exact IHl].
  - apply Hobj. induction properties as [|[k v] properties IHl]; constructor;
      [apply IH | exact IHl].
Qed.

Lemma not_throws_Ok {A : Type} (a : A) : ~ throws (Ok a).
Proof. intros [m H]. discriminate. Qed.

Lemma throws_Throw {A : Type} (m : string) : throws (@Throw A m).
Proof. exists m. reflexivity. Qed.

Lemma reduce_values_estimated (vals : list value) :
  List.Forall well_estimated vals ->
  forall acc,
    let r :=
      (fix reduce_values (acc : Z) (vals : list value) : result Z :=
         match vals with
         | [] => Ok acc
         | val :: rest =>
             size <- estimateObjectSize val ;; reduce_values (acc + size) rest
         end) acc vals in
    (forall t, r = Ok t -> acc <= t)
    /\ (throws r <-> existsb contains_callable vals = true).
Proof.
  induction 1 as [|v vals [Hsize Hthrow] _ IH]; intros acc; cbn zeta.
  - split.
    + intros t [= <-]. lia.
    + split; [intros H; destruct (not_throws_Ok _ H) | discriminate].
  - cbn [existsb]. destruct (estimateObjectSize v) as [n|m] eqn:E; cbn [bind].
    + pose proof (Hsize n eq_refl).
      destruct (IH (acc + n)) as [IHsize IHthrow]. cbn zeta in IHsize, IHthrow.
      split.
      * intros t Ht. apply IHsize in Ht. lia.
      * rewrite IHthrow. destruct (contains_callable v) eqn:Ec; [|reflexivity].
        destruct Hthrow as [_ Hthrow]. destruct (not_throws_Ok _ (Hthrow eq_refl)).
    + split; [discriminate|].
      destruct Hthrow as [Hthrow _]. rewrite (Hthrow (throws_Throw m)).
      split; [reflexivity | intros _; apply throws_Throw].
Qed.

Lemma reduce_entries_estimated (entries : list (value * value)) :
  List.Forall (fun entry => well_estimated (fst entry) /\ well_estimated (snd entry))
    entries ->
  forall acc,
    let r :=
      (fix reduce_entries (acc : Z) (es : list (value * value)) : result Z :=
         match es with
         | [] => Ok acc
         | (key, val) :: rest =>
             ksize <- estimateObjectSize key ;;
             vsize <- estimateObjectSize val ;;
             reduce_entries (acc + ksize + vsize) rest
         end) acc entries in
    (forall t, r = Ok t -> acc <= t)
    /\ (throws r
        <-> existsb (fun entry => contains_callable (fst entry)
                                  || contains_callable (snd entry)) entries
            = true).
Proof.
  induction 1 as [|[k v] entries [[Hks Hkt] [Hvs Hvt]] _ IH]; intros acc;
    cbn zeta; cbn [fst snd] in *.
  - split.
    + intros t [= <-]. lia.
    + split; [intros H; destruct (not_throws_Ok _ H) | discriminate].
  - cbn [existsb fst snd].
    destruct (estimateObjectSize k) as [kn|km] eqn:Ek; cbn [bind].
    + assert (Hck : contains_callable k = false).
      { destruct (contains_callable k); [|reflexivity].
        destruct Hkt as [_ Hkt]. destruct (not_throws_Ok _ (Hkt eq_refl)). }
      rewrite Hck. cbn [orb].
      destruct (estimateObjectSize v) as [vn|vm] eqn:Ev; cbn [bind].
      * pose proof (Hks kn eq_refl). pose proof (Hvs vn eq_refl).
        destruct (IH (acc + kn + vn)) as [IHsize IHthrow].
        cbn zeta in IHsize, IHthrow. split.
        -- intros t Ht. apply IHsize in Ht. lia.
        -- rewrite IHthrow. destruct (contains_callable v) eqn:Ec; [|reflexivity].
           destruct Hvt as [_ Hvt]. destruct (not_throws_Ok _ (Hvt eq_refl)).
      * split; [discriminate|].
        destruct Hvt as [Hvt _]. rewrite (Hvt (throws_Throw vm)).
        split; [reflexivity | intros _; apply throws_Throw].
    + split; [discriminate|].
      destruct Hkt as [Hkt _]. rewrite (Hkt (throws_Throw km)).
      split; [reflexivity | intros _; apply throws_Throw].
Qed.

Lemma reduce_props_estimated (properties : list (string * value)) :
  List.Forall (fun property => well_estimated (snd property)) properties ->
  forall acc,
    let r :=
      (fix reduce_props (acc : Z) (ps : list (string * value)) : result Z :=
         match ps with
         | [] => Ok acc
         | (_, val) :: rest =>
             size <- estimateObjectSize val ;; reduce_props (acc + size) rest
         end) acc properties in
    (forall t, r = Ok t -> acc <= t)
    /\ (throws r
        <-> existsb (fun property => contains_callable (snd property)) properties
            = true).
Proof.
  induction 1 as [|[k v] properties [Hsize Hthrow] _ IH]; intros acc;
    cbn zeta; cbn [fst snd] in *.
  - split.
    + intros t [= <-]. lia.
    + split; [intros H; destruct (not_throws_Ok _ H) | discriminate].
  - cbn [existsb fst snd].
    destruct (estimateObjectSize v) as [n|m] eqn:E; cbn [bind].
    + pose proof (Hsize n eq_refl).
      destruct (IH (acc + n)) as [IHsize IHthrow]. cbn zeta in IHsize, IHthrow.
      split.
      * intros t Ht. apply IHsize in Ht. lia.
      * rewrite IHthrow. destruct (contains_callable v) eqn:Ec; [|reflexivity].
        destruct Hthrow as [_ Hthrow]. destruct (not_throws_Ok _ (Hthrow eq_refl)).
    + split; [discriminate|].
      destruct Hthrow as [Hthrow _]. rewrite (Hthrow (throws_Throw m)).
      split; [reflexivity | intros _; apply throws_Throw].
Qed.

(** The dictionary of an object with many properties costs more than the
    property slots it replaces. *)
Lemma propertiesSize_nonneg (numProps : Z) :
  0 <= numProps -> 0 <= propertiesSize numProps.
Proof.
  intros Hn. unfold propertiesSize, MAX_NUM_FAST_PROPERTIES.
  destruct (Z.gtb_spec numProps 1020) as [Hbig|_]; [|lia].
  unfold propertiesDictSize, COMPRESSED_POINTER_SIZE.
  set (a := 3 * (numProps + 2)).
  assert (Ha : 1 < a) by (unfold a; lia).
  pose proof (Z.log2_up_spec a Ha) as [_ Hup].
  pose proof (Z.log2_up_pos a Ha) as Hpos.
  assert (Hpow : 2 ^ Z.log2_up a = 2 * 2 ^ (Z.log2_up a - 1)).
  { rewrite <- Z.pow_succ_r by lia. f_equal. lia. }
  revert Hup Hpow.
  generalize (2 ^ Z.log2_up a) (2 ^ (Z.log2_up a - 1)).
  unfold a. clear Hpos Ha a. intros X Y HX HY. lia.
Qed.

Lemma estimateObjectSize_well_estimated (v : value) : well_estimated v.
Proof.
  induction v using value_nested_ind; unfold well_estimated;
    cbn [estimateObjectSize contains_callable].
  1-3, 5: (split; [intros k [= <-]; cbv; discriminate
                  | split; [intros Ht; destruct (not_throws_Ok _ Ht) | discriminate]]).
  - split.
    + intros k [= <-]. destruct (Number_isInteger n); cbv; discriminate.
    + split; [intros Ht; destruct (not_throws_Ok _ Ht) | discriminate].
  - split.
    + intros k [= <-].
      cbv [COMPRESSED_POINTER_SIZE OBJECT_BASE_SIZE round_up_to_4].
      pose proof (Z.div_pos (Z.of_nat (String.length s) + 3) 4
                    ltac:(lia) ltac:(lia)).
      lia.
    + split; [intros Ht; destruct (not_throws_Ok _ Ht) | discriminate].
  - split; [discriminate | split; [reflexivity | intros _; apply throws_Throw]].
  - split; [discriminate | split; [reflexivity | intros _; apply throws_Throw]].
  - destruct (reduce_values_estimated elements H 0) as [Hsize Hthrow].
    cbn zeta in Hsize, Hthrow.
    match goal with |- context [bind ?r _] => destruct r as [t|m] eqn:E end;
      cbn [bind].
    + split.
      * intros k [= <-]. pose proof (Hsize t eq_refl). cbv [COMPRESSED_POINTER_SIZE
          ARRAY_BASE_SIZE OBJECT_BASE_SIZE]. lia.
      * rewrite <- Hthrow. split; intros Ht; destruct (not_throws_Ok _ Ht).
    + split; [discriminate|]. rewrite <- Hthrow.
      split; intros _; apply throws_Throw.
  - split.
    + intros k [= <-]. cbv [TYPED_ARRAY_BASE_SIZE COMPRESSED_POINTER_SIZE]. lia.
    + split; [intros Ht; destruct (not_throws_Ok _ Ht) | discriminate].
  - destruct (reduce_values_estimated members H 0) as [Hsize Hthrow].
    cbn zeta in Hsize, Hthrow.
    match goal with |- context [bind ?r _] => destruct r as [t|m] eqn:E end;
      cbn [bind].
    + split.
      * intros k [= <-]. pose proof (Hsize t eq_refl). cbv [COMPRESSED_POINTER_SIZE
          OBJECT_BASE_SIZE]. lia.
      * rewrite <- Hthrow. split; intros Ht; destruct (not_throws_Ok _ Ht).
    + split; [discriminate|]. rewrite <- Hthrow.
      split; intros _; apply throws_Throw.
  - destruct (reduce_entries_estimated entries H 0) as [Hsize Hthrow].
    cbn zeta in Hsize, Hthrow.
    match goal with |- context [bind ?r _] => destruct r as [t|m] eqn:E end;
      cbn [bind].
    + split.
      * intros k [= <-]. pose proof (Hsize t eq_refl). cbv [COMPRESSED_POINTER_SIZE
          OBJECT_BASE_SIZE]. lia.
      * rewrite <- Hthrow. split; intros Ht; destruct (not_throws_Ok _ Ht).
    + split; [discriminate|]. rewrite <- Hthrow.
      split; intros _; apply throws_Throw.
  - destruct (reduce_props_estimated properties H 0) as [Hsize Hthrow].
    cbn zeta in Hsize, Hthrow.
    pose proof (propertiesSize_nonneg (Z.of_nat (length properties))
                  ltac:(lia)) as Hprops.
    match goal with |- context [bind ?r _] => destruct r as [t|m] eqn:E end;
      cbn [bind].
    + split.
      * intros k [= <-]. pose proof (Hsize t eq_refl).
        cbv [OBJECT_BASE_SIZE COMPRESSED_POINTER_SIZE]. lia.
      * rewrite <- Hthrow. split; intros Ht; destruct (not_throws_Ok _ Ht).
    + split; [discriminate|]. rewrite <- Hthrow.
      split; intros _; apply throws_Throw.
Qed.

End MemoryEstimationMore.

(** The estimator on every value. *)
Module MemoryEstimationTotal.
Import Js MemoryEstimation Notions MemoryEstimationMore.

Example estimate_deep_callable :
  contains_callable (VMap [(VString "k", VSet [VArray [VSymbol "s"]])]) = true
  /\ throws (estimateObjectSize
               (VMap [(VString "k", VSet [VArray [VSymbol "s"]])])).
Proof. split; [reflexivity | eexists; reflexivity]. Qed.

(** X1: [estimateObjectSize] throws exactly for the values that hold a
    function or a symbol at some depth; for every other value it returns an
    estimate of at least 4 bytes. *)
Theorem estimateObjectSize_outcome (v : value) :
  match estimateObjectSize v with
  | Ok n => contains_callable v = false /\ 4 <= n
  | Throw _ => contains_callable v = true
  end.
Proof.
  destruct (estimateObjectSize_well_estimated v) as [Hsize [Hthrow Hcallable]].
  destruct (estimateObjectSize v) as [n|m] eqn:E.
  - split; [|apply Hsize; reflexivity].
    destruct (contains_callable v); [|reflexivity].
    destruct (not_throws_Ok _ (Hcallable eq_refl)).
  - apply Hthrow, throws_Throw.
Qed.

End MemoryEstimationTotal.

Module JsMapFacts.
Import JsMap.

Section OrderedMap.
Context {K V : Type} `{EqDecision K}.

Lemma get_set_eq (k : K) (v : V) (m : list (K * V)) :
  get k (set k v m) = Some v.
Proof.
  induction m as [|[k' v'] m IH]; cbn.
  - destruct (decide (k = k)); congruence.
  - destruct (decide (k' = k)) as [->|Hne]; cbn.
    + destruct (decide (k = k)); congruence.
    + destruct (decide (k' = k)); congruence.
Qed.

Lemma get_set_ne (k k0 : K) (v : V) (m : list (K * V)) :
  k0 <> k -> get k (set k0 v m) = get k m.
Proof.
  intros Hne. induction m as [|[k' v'] m IH]; cbn.
  - destruct (decide (k0 = k)); congruence.
  - destruct (decide (k' = k0)) as [->|Hne']; cbn.
    + destruct (decide (k0 = k)); congruence.
    + destruct (decide (k' = k)); congruence.
Qed.

Lemma get_In (k : K) (v : V) (m : list (K * V)) :
  get k m = Some v -> In (k, v) m.
Proof.
  induction m as [|[k' v'] m IH]; cbn; [discriminate|].
  destruct (decide (k' = k)) as [->|Hne].
  - intros [= ->]. left. reflexivity.
  - intros H. right. apply IH, H.
Qed.

Lemma In_set (k k0 : K) (v v0 : V) (m : list (K * V)) :
  In (k, v) (set k0 v0 m) -> (k = k0 /\ v = v0) \/ In (k, v) m.
Proof.
  induction m as [|[k' v'] m IH]; cbn.
  - intros [[= <- <-]|[]]. left. auto.
  - destruct (decide (k' = k0)) as [->|Hne]; cbn.
    + intros [[= <- <-]|Hin]; auto.
    + intros [Heq|Hin]; [auto|]. destruct (IH Hin); auto.
Qed.

Lemma In_set_new (k : K) (v : V) (m : list (K * V)) : In (k, v) (set k v m).
Proof. apply get_In, get_set_eq. Qed.

Lemma set_keys (k : K) (v : V) (m : list (K * V)) :
  map fst (set k v m)
  = if get k m is Some _ then map fst m else map fst m ++ [k].
Proof.
  induction m as [|[k' v'] m IH]; cbn; [reflexivity|].
  destruct (decide (k' = k)) as [->|Hne]; cbn; [reflexivity|].
  rewrite IH. destruct (get k m); reflexivity.
Qed.

Lemma get_None_keys (k : K) (m : list (K * V)) :
  get k m = None <-> ~ In k (map fst m).
Proof.
  induction m as [|[k' v'] m IH]; cbn; [tauto|].
  destruct (decide (k' = k)) as [->|Hne].
  - split; [discriminate | tauto].
  - rewrite IH. tauto.
Qed.

Lemma set_NoDup (k : K) (v : V) (m : list (K * V)) :
  List.NoDup (map fst m) -> List.NoDup (map fst (set k v m)).
Proof.
  intros Hnd. rewrite set_keys. destruct (get k m) eqn:E; [exact Hnd|].
  apply get_None_keys in E.
  apply NoDup_ListNoDup, NoDup_app. apply NoDup_ListNoDup in Hnd.
  split; [exact Hnd|]. split.
  - intros x Hx Hk. apply list_elem_of_In in Hx.
    apply list_elem_of_In in Hk. destruct Hk as [<-|[]]. contradiction.
  - apply NoDup_singleton.
Qed.

Lemma In_get (k : K) (v : V) (m : list (K * V)) :
  List.NoDup (map fst m) -> In (k, v) m -> get k m = Some v.
Proof.
  induction m as [|[k' v'] m IH]; cbn; [tauto|].
  intros Hnd [[= -> ->]|Hin].
  - destruct (decide (k = k)); congruence.
  - inversion Hnd as [|? ? Hnotin Hnd']; subst.
    destruct (decide (k' = k)) as [->|Hne]; [|auto].
    exfalso. apply Hnotin. apply (in_map fst) in Hin. exact Hin.
Qed.
End OrderedMap.

End JsMapFacts.

Module RostimeFacts.
Import Rostime.

(** [compare] decides the lexicographic order on seconds and nanoseconds. *)
Ltac compare_lia :=
  unfold compare in *;
  repeat match goal with
         | |- context [?x =? 0] => destruct (Z.eqb_spec x 0)
         | H : context [?x =? 0] |- _ => destruct (Z.eqb_spec x 0)
         end;
  lia.

Lemma compare_refl (a : Time) : compare a a = 0.
Proof. compare_lia. Qed.

Lemma compare_le_trans (a b c : Time) :
  compare a b <= 0 -> compare b c <= 0 -> compare a c <= 0.
Proof. intros H1 H2. compare_lia. Qed.

Lemma compare_lt_le_trans (a b c : Time) :
  compare a b < 0 -> compare b c <= 0 -> compare a c < 0.
Proof. intros H1 H2. compare_lia. Qed.

Lemma compare_gt_flip (a b : Time) : compare a b > 0 -> compare b a < 0.
Proof. intros H. compare_lia. Qed.

Lemma compare_le_flip (a b : Time) : compare a b <= 0 -> compare b a >= 0.
Proof. intros H. compare_lia. Qed.

End RostimeFacts.

Module McapInvariants.
Import Js Rostime Types ParseChannel McapUnindexed McapSteps Notions.
Import JsMapFacts RostimeFacts MemoryEstimationMore.

Section WithParsers.
Variable P : Parsers.

Lemma processRecord_transition (record : TypedMcapRecord) (st st' : InitState) :
  processRecord P record st = Ok st' -> transition st st'.
Proof.
  unfold processRecord. destruct record as [p|r|r|r|].
  - intros [= <-]. apply quiet; reflexivity.
  - destruct (schemasById st !! schema_id r) as [existing|];
      [destruct (decide (existing = r)); [|discriminate]|];
      intros [= <-]; apply quiet; reflexivity.
  - destruct (JsMap.get (channel_id r) (channelInfoById st)) as [existing|] eqn:Hinfo.
    { destruct (decide (channel existing = r)); [|discriminate].
      intros [= <-]. apply quiet; reflexivity. }
    destruct (decide (channel_id r ∈ channelIdsWithErrors st)) as [|Hnot].
    { intros [= <-]. apply quiet; reflexivity. }
    destruct (negb (schemaId r =? 0) && _); [discriminate|].
    destruct (parseChannel P _ None) as [parsed|m].
    + intros [= <-]. eapply channel_added; try reflexivity; assumption.
    + intros [= <-]. eapply channel_failed; try reflexivity; assumption.
  - destruct (JsMap.get (channelId r) (channelInfoById st)) as [info|] eqn:Hinfo.
    2:{ destruct (decide (channelId r ∈ channelIdsWithErrors st)); [|discriminate].
        intros [= <-]. apply quiet; reflexivity. }
    destruct (JsMap.get (channelId r) (messagesByChannel st)) as [messages|] eqn:Hmsgs.
    2:{ destruct (decide (channelId r ∈ channelIdsWithErrors st)); [|discriminate].
        intros [= <-]. apply quiet; reflexivity. }
    destruct (deserialize (parsedChannel info) (data r)) as [msg|m]; cbn [bind];
      [|discriminate].
    destruct (estimateMessageSize _ msg _) as [[est cache']|m] eqn:Hest;
      cbn [bind]; [|discriminate].
    intros [= <-].
    eapply (message_stored _ _ (channelId r) info messages _
              (Z.of_nat (length (data r))) est);
      try reflexivity; try assumption; try reflexivity; lia.
  - intros [= <-]. apply quiet; reflexivity.
Qed.

(** A property that every transition keeps holds after any run of
    [processRecords]. *)
Lemma processRecords_keeps (I : InitState -> Prop) :
  (forall st st', I st -> transition st st' -> I st') ->
  forall records st st',
    I st -> processRecords P records st = Ok st' -> I st'.
Proof.
  intros Hstep. induction records as [|record records IH]; intros st st' HI;
    cbn [processRecords].
  - intros [= <-]. exact HI.
  - destruct (processRecord P record st) as [st1|m] eqn:E; cbn [bind];
      [|discriminate].
    apply IH. eapply Hstep; [exact HI|]. eapply processRecord_transition, E.
Qed.
End WithParsers.

Lemma channels_consistent_step st st' :
  channels_consistent st -> transition st st' -> channels_consistent st'.
Proof.
  unfold channels_consistent. intros Hinv Hstep id events Hin.
  destruct Hstep as [Hm Hi He _ _ _
                    | r parsed name Hnew Hok Hm Hi He _ _ _
                    | bad Hnew He Hm Hi _ _ _
                    | cid info messages e len est Hinfo Hmsgs Htopic _ _ _ Hm Hi He _ _].
  - rewrite Hm in Hin. rewrite Hi, He. apply Hinv, Hin.
  - rewrite Hm in Hin. rewrite Hi, He.
    apply In_set in Hin as [[-> ->]|Hin].
    + split; [exact Hok|]. eexists. rewrite get_set_eq. split; [reflexivity|].
      constructor.
    + destruct (Hinv _ _ Hin) as (Hgood & info & Hget & Hall).
      split; [exact Hgood|]. exists info. split; [|exact Hall].
      rewrite get_set_ne; [exact Hget|]. intros Heq. rewrite Heq in Hnew.
      congruence.
  - rewrite Hm in Hin. rewrite Hi, He.
    destruct (Hinv _ _ Hin) as (Hgood & info & Hget & Hall).
    split; [|eauto]. intros Hbad. apply elem_of_union in Hbad as [Hbad|Hbad];
      [|contradiction].
    apply elem_of_singleton in Hbad. subst. congruence.
  - rewrite Hm in Hin. rewrite Hi, He.
    apply In_set in Hin as [[-> ->]|Hin]; [|apply Hinv, Hin].
    destruct (Hinv _ _ (get_In _ _ _ Hmsgs)) as (Hgood & info' & Hget & Hall).
    split; [exact Hgood|]. exists info'. split; [exact Hget|].
    apply Forall_app. split; [exact Hall|]. constructor; [|constructor].
    congruence.
Qed.

Lemma earliest_le (r : Time) (s : option Time) :
  compare (earliest r s) r <= 0
  /\ forall s0, s = Some s0 -> compare (earliest r s) s0 <= 0.
Proof.
  unfold earliest, isLessThan. destruct s as [s0|].
  - destruct (Z.ltb_spec (compare r s0) 0).
    + split; [rewrite compare_refl; lia|]. intros ? [= <-]. lia.
    + split; [|intros ? [= <-]; rewrite compare_refl; lia].
      pose proof (compare_le_flip r s0). compare_lia.
  - split; [rewrite compare_refl; lia | discriminate].
Qed.

Lemma latest_ge (r : Time) (e : option Time) :
  compare r (latest r e) <= 0
  /\ forall e0, e = Some e0 -> compare e0 (latest r e) <= 0.
Proof.
  unfold latest, isGreaterThan. destruct e as [e0|].
  - destruct (Z.gtb_spec (compare r e0) 0).
    + split; [rewrite compare_refl; lia|]. intros ? [= <-]. compare_lia.
    + split; [lia|]. intros ? [= <-]. rewrite compare_refl. lia.
  - split; [rewrite compare_refl; lia | discriminate].
Qed.

Lemma times_bounded_step st st' :
  times_bounded st -> transition st st' -> times_bounded st'.
Proof.
  unfold times_bounded. intros Hinv Hstep id events ev Hin Hev.
  destruct Hstep as [Hm _ _ _ Hs He
                    | r parsed name _ _ Hm _ _ _ Hs He
                    | bad _ _ Hm _ _ Hs He
                    | cid info messages e len est _ Hmsgs _ _ _ _ Hm _ _ Hs He].
  - rewrite Hm in Hin. rewrite Hs, He. eapply Hinv; eassumption.
  - rewrite Hm in Hin. rewrite Hs, He.
    apply In_set in Hin as [[-> ->]|Hin]; [destruct Hev|].
    eapply Hinv; eassumption.
  - rewrite Hm in Hin. rewrite Hs, He. eapply Hinv; eassumption.
  - rewrite Hm in Hin. rewrite Hs, He.
    destruct (earliest_le (receiveTime e) (startTime st)) as [Hnew_s Hold_s].
    destruct (latest_ge (receiveTime e) (endTime st)) as [Hnew_e Hold_e].
    assert (Hold : forall events0,
      In (id, events0) (messagesByChannel st) -> In ev events0 ->
      compare (earliest (receiveTime e) (startTime st)) (receiveTime ev) <= 0
      /\ compare (receiveTime ev) (latest (receiveTime e) (endTime st)) <= 0).
    { intros events0 Hin0 Hev0.
      destruct (Hinv _ _ _ Hin0 Hev0) as (s & en & Hs0 & He0 & Hlo & Hhi).
      split.
      - eapply compare_le_trans; [apply Hold_s, Hs0 | exact Hlo].
      - eapply compare_le_trans; [exact Hhi | apply Hold_e, He0]. }
    do 2 eexists. split; [reflexivity|]. split; [reflexivity|].
    apply In_set in Hin as [[-> ->]|Hin]; [|eapply Hold; eassumption].
    apply in_app_or in Hev as [Hev|[<-|[]]].
    + eapply Hold; [apply get_In, Hmsgs | exact Hev].
    + auto.
Qed.

Lemma Math_max_of_Z (a b : Z) : Math_max (of_Z a) (of_Z b) = of_Z (Z.max a b).
Proof.
  unfold Math_max, of_Z, Qle_bool. cbn [inject_Z Qnum Qden].
  rewrite !Z.mul_1_r. destruct (Z.leb_spec a b).
  - rewrite Z.max_r by lia. reflexivity.
  - rewrite Z.max_l by lia. reflexivity.
Qed.

Lemma Math_max_not_a_number (n : number) : Math_max n NaN = NaN.
Proof. destruct n; reflexivity. Qed.

Lemma In_stored_events (byChannel : list (Z * list MessageEvent)) id e :
  In (id, e) (stored_events byChannel)
  <-> exists events, In (id, events) byChannel /\ In e events.
Proof.
  unfold stored_events. rewrite in_flat_map. split.
  - intros ([id' events] & Hin & He). cbn in He.
    apply in_map_iff in He as (e' & [= <- <-] & He). eauto.
  - intros (events & Hin & He). exists (id, events). split; [exact Hin|].
    cbn. apply in_map_iff. eauto.
Qed.

Section SizesWithParsers.
Variable P : Parsers.

(** A property of the records seen so far and of the state, kept by every
    accepted record, holds after any run of [processRecords]. *)
Lemma processRecords_keeps_seen (I : list TypedMcapRecord -> InitState -> Prop) :
  (forall seen record st st',
      I seen st -> processRecord P record st = Ok st' ->
      I (seen ++ [record]) st') ->
  forall records seen st st',
    I seen st -> processRecords P records st = Ok st' ->
    I (seen ++ records) st'.
Proof.
  intros Hstep. induction records as [|record records IH];
    intros seen st st' HI; cbn [processRecords].
  - intros [= <-]. rewrite app_nil_r. exact HI.
  - destruct (processRecord P record st) as [st1|m] eqn:E; cbn [bind];
      [|discriminate].
    intros Hrun.
    replace (seen ++ record :: records) with ((seen ++ [record]) ++ records)
      by (rewrite <- app_assoc; reflexivity).
    eapply IH; [|exact Hrun]. eapply Hstep; [exact HI | exact E].
Qed.

Lemma sized_from_step (seen : list TypedMcapRecord) (record : TypedMcapRecord)
    (st st' : InitState) :
  sized_from seen st -> processRecord P record st = Ok st' ->
  sized_from (seen ++ [record]) st'.
Proof.
  intros (Hkeys & Hcache & Hsized).
  assert (Hseen : forall id events e,
            In (id, events) (messagesByChannel st) -> In e events ->
            exists r,
              In (MessageR r) (seen ++ [record]) /\ channelId r = id
              /\ receiveTime e = fromNanoSec (logTime r)
              /\ sized_as (messageSizeEstimateByTopic st) e
                   (Z.of_nat (length (data r)))).
  { intros id events e Hin He.
    destruct (Hsized _ _ _ Hin He) as (r & Hr & Hrest).
    exists r. split; [apply in_or_app; left; exact Hr | exact Hrest]. }
  assert (Hquiet : forall st1,
            messagesByChannel st1 = messagesByChannel st ->
            channelInfoById st1 = channelInfoById st ->
            messageSizeEstimateByTopic st1 = messageSizeEstimateByTopic st ->
            sized_from (seen ++ [record]) st1).
  { intros st1 Hm Hi Hc. unfold sized_from. rewrite Hm, Hi, Hc. auto. }
  unfold processRecord. destruct record as [p|r|r|r|].
  - intros [= <-]. apply Hquiet; reflexivity.
  - destruct (schemasById st !! schema_id r) as [existing|];
      [destruct (decide (existing = r)); [|discriminate]|];
      intros [= <-]; apply Hquiet; reflexivity.
  - destruct (JsMap.get (channel_id r) (channelInfoById st)) as [existing|]
      eqn:Hinfo.
    { destruct (decide (channel existing = r)); [|discriminate].
      intros [= <-]. apply Hquiet; reflexivity. }
    destruct (decide (channel_id r ∈ channelIdsWithErrors st)).
    { intros [= <-]. apply Hquiet; reflexivity. }
    destruct (negb (schemaId r =? 0) && _); [discriminate|].
    destruct (parseChannel P _ None) as [parsed|m];
      [|intros [= <-]; apply Hquiet; reflexivity].
    intros [= <-]. unfold sized_from.
    cbn [messagesByChannel channelInfoById messageSizeEstimateByTopic].
    pose proof (Hkeys _ Hinfo) as Hnone.
    split; [|split].
    + intros id. destruct (decide (channel_id r = id)) as [<-|Hne].
      * rewrite get_set_eq. discriminate.
      * rewrite !get_set_ne by exact Hne. apply Hkeys.
    + intros name est Hest.
      destruct (Hcache name est Hest)
        as (Hown & id & events & e0 & Hget & Hrest).
      split; [exact Hown|]. exists id, events, e0. split; [|exact Hrest].
      rewrite get_set_ne; [exact Hget|]. intros <-. congruence.
    + intros id events e Hin He.
      apply In_set in Hin as [[-> ->]|Hin]; [destruct He|].
      eapply Hseen; eassumption.
  - destruct (JsMap.get (channelId r) (channelInfoById st)) as [info|] eqn:Hinfo.
    2:{ destruct (decide (channelId r ∈ channelIdsWithErrors st)); [|discriminate].
        intros [= <-]. apply Hquiet; reflexivity. }
    destruct (JsMap.get (channelId r) (messagesByChannel st)) as [messages|]
      eqn:Hmsgs.
    2:{ destruct (decide (channelId r ∈ channelIdsWithErrors st)); [|discriminate].
        intros [= <-]. apply Hquiet; reflexivity. }
    destruct (deserialize (parsedChannel info) (data r)) as [msg|m];
      cbn [bind]; [|discriminate].
    set (name := channel_topic (channel info)).
    unfold estimateMessageSize.
    destruct (messageSizeEstimateByTopic st !! name) as [cached|] eqn:Hc.
    + cbn [bind fst snd]. intros [= <-]. unfold sized_from.
      cbn [messagesByChannel channelInfoById messageSizeEstimateByTopic].
      destruct (Hcache name cached Hc) as (Hown & _).
      split; [|split].
      * intros id Hid. destruct (decide (channelId r = id)) as [<-|Hne];
          [congruence|]. rewrite get_set_ne by exact Hne. apply Hkeys, Hid.
      * intros name0 est Hest.
        destruct (Hcache name0 est Hest)
          as (Hown0 & id & events & e0 & Hget & Hin0 & Hrest).
        split; [exact Hown0|].
        destruct (decide (channelId r = id)) as [<-|Hne].
        -- eexists _, _, e0. rewrite get_set_eq. split; [reflexivity|].
           split; [|exact Hrest]. apply in_or_app. left. congruence.
        -- exists id, events, e0. rewrite get_set_ne by exact Hne. auto.
      * intros id events e Hin He.
        apply In_set in Hin as [[-> ->]|Hin]; [|eapply Hseen; eassumption].
        apply in_app_or in He as [He|[<-|[]]].
        -- eapply Hseen; [apply get_In, Hmsgs | exact He].
        -- exists r. split; [apply in_or_app; right; left; reflexivity|].
           split; [reflexivity|]. split; [reflexivity|].
           unfold sized_as. cbn [topic sizeInBytes]. fold name. rewrite Hown.
           exists cached. split; [exact Hc|]. apply Math_max_of_Z.
    + destruct (JsObject.inherits name) eqn:Hown.
      * cbn [bind fst snd]. intros [= <-]. unfold sized_from.
        cbn [messagesByChannel channelInfoById messageSizeEstimateByTopic].
        split; [|split].
        -- intros id Hid. destruct (decide (channelId r = id)) as [<-|Hne];
             [congruence|]. rewrite get_set_ne by exact Hne. apply Hkeys, Hid.
        -- intros name0 est Hest.
           destruct (Hcache name0 est Hest)
             as (Hown0 & id & events & e0 & Hget & Hin0 & Hrest).
           split; [exact Hown0|].
           destruct (decide (channelId r = id)) as [<-|Hne].
           ++ eexists _, _, e0. rewrite get_set_eq. split; [reflexivity|].
              split; [|exact Hrest]. apply in_or_app. left. congruence.
           ++ exists id, events, e0. rewrite get_set_ne by exact Hne. auto.
        -- intros id events e Hin He.
           apply In_set in Hin as [[-> ->]|Hin]; [|eapply Hseen; eassumption].
           apply in_app_or in He as [He|[<-|[]]].
           ++ eapply Hseen; [apply get_In, Hmsgs | exact He].
           ++ exists r. split; [apply in_or_app; right; left; reflexivity|].
              split; [reflexivity|]. split; [reflexivity|].
              unfold sized_as. cbn [topic sizeInBytes size_number]. fold name.
              rewrite Hown. first [reflexivity | apply Math_max_not_a_number].
      * destruct (MemoryEstimation.estimateObjectSize msg) as [est|m] eqn:Hest;
          cbn [bind]; [|discriminate].
        cbn [fst snd]. intros [= <-]. unfold sized_from.
        cbn [messagesByChannel channelInfoById messageSizeEstimateByTopic].
        split; [|split].
        -- intros id Hid. destruct (decide (channelId r = id)) as [<-|Hne];
             [congruence|]. rewrite get_set_ne by exact Hne. apply Hkeys, Hid.
        -- intros name0 est0. destruct (decide (name = name0)) as [<-|Hne0].
           ++ rewrite lookup_insert_eq. intros [= <-]. split; [exact Hown|].
              eexists (channelId r), _, _. rewrite get_set_eq.
              split; [reflexivity|].
              split; [apply in_or_app; right; left; reflexivity|].
              split; [reflexivity | exact Hest].
           ++ rewrite lookup_insert_ne by exact Hne0. intros Hest0.
              destruct (Hcache name0 est0 Hest0)
                as (Hown0 & id & events & e0 & Hget & Hin0 & Hrest).
              split; [exact Hown0|].
              destruct (decide (channelId r = id)) as [<-|Hne].
              ** eexists _, _, e0. rewrite get_set_eq. split; [reflexivity|].
                 split; [|exact Hrest]. apply in_or_app. left. congruence.
              ** exists id, events, e0. rewrite get_set_ne by exact Hne. auto.
        -- assert (Hold : forall id events e,
                     In (id, events) (messagesByChannel st) -> In e events ->
                     exists r0,
                       In (MessageR r0) (seen ++ [MessageR r])
                       /\ channelId r0 = id
                       /\ receiveTime e = fromNanoSec (logTime r0)
                       /\ sized_as (<[name := est]> (messageSizeEstimateByTopic st))
                            e (Z.of_nat (length (data r0)))).
           { intros id events e Hin He.
             destruct (Hseen _ _ _ Hin He) as (r0 & Hr0 & Hid & Ht & Hs).
             exists r0. split; [exact Hr0|]. split; [exact Hid|].
             split; [exact Ht|]. unfold sized_as in *.
             destruct (JsObject.inherits (topic e)); [exact Hs|].
             destruct Hs as (est0 & Hest0 & Hsize). exists est0.
             split; [|exact Hsize]. rewrite lookup_insert_ne; [exact Hest0|].
             intros Heq. rewrite <- Heq in Hest0. congruence. }
           intros id events e Hin He.
           apply In_set in Hin as [[-> ->]|Hin]; [|eapply Hold; eassumption].
           apply in_app_or in He as [He|[<-|[]]].
           ++ eapply Hold; [apply get_In, Hmsgs | exact He].
           ++ exists r. split; [apply in_or_app; right; left; reflexivity|].
              split; [reflexivity|]. split; [reflexivity|].
              unfold sized_as. cbn [topic sizeInBytes size_number]. fold name.
              rewrite Hown. exists est. rewrite lookup_insert_eq.
              split; [reflexivity|]. apply Math_max_of_Z.
  - intros [= <-]. apply Hquiet; reflexivity.
Qed.

End SizesWithParsers.

End McapInvariants.

Module McapUnindexedMore.
Import Js Rostime Types ParseChannel McapUnindexed McapSteps Notions Fixtures.
Import JsMapFacts RostimeFacts McapInvariants.

Lemma summarize_fold (st : InitState) (infos : list ChannelInfo) :
  forall acc,
    let result :=
      fold_left
        (fun acc info =>
           let ch := channel info in
           let publisherId :=
             default (pretty (channel_id ch)) (metadata ch !! "callerid") in
           {| init_start := init_start acc;
              init_end := init_end acc;
              init_topics :=
                init_topics acc
                ++ [{| topic_name := channel_topic ch;
                       topic_schemaName := info_schemaName info |}];
              init_datatypes :=
                datatypes (parsedChannel info) ∪ init_datatypes acc;
              init_profile := init_profile acc;
              publishersByTopic :=
                <[channel_topic ch :=
                    {[publisherId]}
                    ∪ default ∅ (publishersByTopic acc !! channel_topic ch)]>
                  (publishersByTopic acc);
              topicStats :=
                match JsMap.get (channel_id ch) (messagesByChannel st) with
                | Some messages =>
                    <[channel_topic ch := Z.of_nat (length messages)]>
                      (topicStats acc)
                | None => topicStats acc
                end |})
        infos acc in
    init_start result = init_start acc
    /\ init_end result = init_end acc
    /\ init_topics result
       = init_topics acc
         ++ map (fun info => mkTopic (channel_topic (channel info))
                               (info_schemaName info)) infos.
Proof.
  induction infos as [|info infos IH]; intros acc; cbn zeta; cbn [fold_left map].
  - rewrite app_nil_r. auto.
  - match goal with |- context [fold_left _ infos ?acc'] =>
      destruct (IH acc') as (Hs & He & Ht) end.
    cbn zeta in Hs, He, Ht. rewrite Hs, He, Ht. cbn.
    rewrite <- app_assoc. auto.
Qed.

Lemma summarize_fields (st : InitState) (start end_ : Time) :
  init_start (summarize st start end_) = start
  /\ init_end (summarize st start end_) = end_
  /\ init_topics (summarize st start end_)
     = map (fun info => mkTopic (channel_topic (channel info))
                          (info_schemaName info))
         (JsMap.values (channelInfoById st)).
Proof.
  unfold summarize.
  match goal with |- context [fold_left _ _ ?acc] =>
    destruct (summarize_fold st (JsMap.values (channelInfoById st)) acc)
      as (Hs & He & Ht) end.
  cbn zeta in Hs, He, Ht. rewrite Hs, He, Ht. auto.
Qed.

Section WithParsers.
Variable P : Parsers.

(** What a successful [initialize] is made of. *)
Lemma initialize_Ok size records init src :
  initialize P size records = Ok (init, src) ->
  size <= 1024 * 1024 * 1024
  /\ exists st,
       processRecords P records init_state = Ok st
       /\ init = summarize st (default (mkTime 0 0) (startTime st))
                   (default (mkTime 0 0) (endTime st))
       /\ src = {| msgEventsByChannel := Some (messagesByChannel st);
                   source_start := Some (default (mkTime 0 0) (startTime st));
                   source_end := Some (default (mkTime 0 0) (endTime st)) |}.
Proof.
  unfold initialize. destruct (Z.gtb_spec size (1024 * 1024 * 1024));
    [discriminate|].
  destruct (processRecords P records init_state) as [st|m]; cbn [bind];
    [|discriminate].
  intros [= <- <-]. split; [lia|]. eauto.
Qed.

Lemma init_state_invariants :
  channels_consistent init_state /\ times_bounded init_state
  /\ sized_from [] init_state.
Proof.
  unfold channels_consistent, times_bounded, sized_from. cbn.
  split; [tauto|]. split; [tauto|]. split; [reflexivity|].
  split; [|tauto]. intros name est H. rewrite lookup_empty in H.
  discriminate.
Qed.

(** X2: after [initialize], every stored event was received between the
    [start] and the [end] that [initialize] returns (and that the source
    keeps as defaults for its iterators); in particular [start <= end] as
    soon as one event is stored. *)
Theorem initialize_time_bounds size records init src :
  initialize P size records = Ok (init, src) ->
  source_start src = Some (init_start init)
  /\ source_end src = Some (init_end init)
  /\ exists store,
       msgEventsByChannel src = Some store
       /\ forall id e,
            In (id, e) (stored_events store) ->
            compare (init_start init) (receiveTime e) <= 0
            /\ compare (receiveTime e) (init_end init) <= 0
            /\ compare (init_start init) (init_end init) <= 0.
Proof.
  intros H. apply initialize_Ok in H as (_ & st & Hrun & -> & ->).
  destruct (summarize_fields st (default (mkTime 0 0) (startTime st))
              (default (mkTime 0 0) (endTime st))) as (Hs & He & _).
  rewrite Hs, He. cbn [source_start source_end msgEventsByChannel].
  split; [reflexivity|]. split; [reflexivity|].
  exists (messagesByChannel st). split; [reflexivity|].
  intros id e Hin. apply In_stored_events in Hin as (events & Hin & He').
  pose proof (processRecords_keeps P times_bounded times_bounded_step
                records init_state st (proj1 (proj2 init_state_invariants)) Hrun)
    as Hinv.
  destruct (Hinv id events e Hin He') as (s & en & -> & -> & Hlo & Hhi).
  cbn [default]. split; [exact Hlo|]. split; [exact Hhi|].
  eapply compare_le_trans; eassumption.
Qed.

(** X3: after [initialize], every stored event comes from a message record
    of the stream, on its channel and with its log time, and its
    [sizeInBytes] is the larger of the wire length of that record and the
    estimate of its topic; there is one estimate per topic, which is what
    [estimateObjectSize] gives (at least 4) for a stored message of that
    topic.  A topic named as a property that a plain object inherits
    ([constructor], [toString], [__proto__], ...) never gets an estimate:
    the events on it carry [NaN]. *)
Theorem initialize_sizes size records init src :
  initialize P size records = Ok (init, src) ->
  exists store (estimates : gmap string Z),
    msgEventsByChannel src = Some store
    /\ (forall name est,
          estimates !! name = Some est ->
          JsObject.inherits name = false /\ 4 <= est
          /\ exists id e0,
               In (id, e0) (stored_events store) /\ topic e0 = name
               /\ MemoryEstimation.estimateObjectSize (message e0) = Ok est)
    /\ forall id e,
         In (id, e) (stored_events store) ->
         exists r,
           In (MessageR r) records /\ channelId r = id
           /\ receiveTime e = fromNanoSec (logTime r)
           /\ if JsObject.inherits (topic e) then sizeInBytes e = NaN
              else
                exists est,
                  estimates !! topic e = Some est
                  /\ sizeInBytes e
                     = of_Z (Z.max (Z.of_nat (length (data r))) est).
Proof.
  intros H. apply initialize_Ok in H as (_ & st & Hrun & -> & ->).
  exists (messagesByChannel st), (messageSizeEstimateByTopic st).
  split; [reflexivity|].
  pose proof (processRecords_keeps_seen P sized_from (sized_from_step P)
                records [] init_state st (proj2 (proj2 init_state_invariants))
                Hrun) as (_ & Hcache & Hsized).
  cbn [app] in Hsized. split.
  - intros name est Hest.
    destruct (Hcache name est Hest)
      as (Hown & id & events & e0 & Hget & Hin & Htopic & Hsize).
    split; [exact Hown|].
    split;
      [apply (proj1 (MemoryEstimationMore.estimateObjectSize_well_estimated
                       (message e0))), Hsize|].
    exists id, e0. split; [|auto].
    apply In_stored_events. exists events. split; [apply get_In, Hget | exact Hin].
  - intros id e Hin. apply In_stored_events in Hin as (events & Hin & He').
    exact (Hsized id events e Hin He').
Qed.

(** X4: [initialize] rejects a stream larger than 1 GiB; and when it
    succeeds, every stored event is filed under a channel that parsed, and
    the topic it carries is one of the topics [initialize] returns. *)
Theorem initialize_topics size records init src :
  (size > 1024 * 1024 * 1024 -> throws (initialize P size records))
  /\ (initialize P size records = Ok (init, src) ->
      size <= 1024 * 1024 * 1024
      /\ exists store,
           msgEventsByChannel src = Some store
           /\ forall id e,
                In (id, e) (stored_events store) ->
                exists t, In t (init_topics init) /\ topic_name t = topic e).
Proof.
  split.
  - intros Hbig. unfold initialize.
    destruct (Z.gtb_spec size (1024 * 1024 * 1024)); [eexists; reflexivity | lia].
  - intros H. apply initialize_Ok in H as (Hsize & st & Hrun & -> & ->).
    split; [exact Hsize|].
    exists (messagesByChannel st). split; [reflexivity|].
    intros id e Hin. apply In_stored_events in Hin as (events & Hin & He').
    pose proof (processRecords_keeps P channels_consistent channels_consistent_step
                  records init_state st (proj1 init_state_invariants) Hrun)
      as Hinv.
    destruct (Hinv id events Hin) as (_ & info & Hget & Hall).
    destruct (summarize_fields st (default (mkTime 0 0) (startTime st))
                (default (mkTime 0 0) (endTime st))) as (_ & _ & ->).
    exists (mkTopic (channel_topic (channel info)) (info_schemaName info)).
    split.
    + apply in_map_iff. exists info. split; [reflexivity|].
      unfold JsMap.values. apply in_map_iff. exists (id, info).
      split; [reflexivity | apply get_In, Hget].
    + cbn. rewrite Forall_forall in Hall. symmetry.
      apply Hall, list_elem_of_In, He'.
Qed.

(** X5: replaying a header, schema or channel record that was accepted
    leaves the state as it is: only message records accumulate. *)
Theorem processRecord_replay (record : TypedMcapRecord) (st st' : InitState) :
  (forall r, record <> MessageR r) ->
  processRecord P record st = Ok st' ->
  processRecord P record st' = Ok st'.
Proof.
  intros Hnot. unfold processRecord. destruct record as [p|r|r|r|].
  - intros [= <-]. reflexivity.
  - destruct (schemasById st !! schema_id r) as [existing|] eqn:E;
      [destruct (decide (existing = r)); [|discriminate]|];
      intros [= <-]; cbn [schemasById]; rewrite lookup_insert_eq;
      (destruct (decide (r = r)); [|congruence]);
      rewrite insert_insert_eq; reflexivity.
  - destruct (JsMap.get (channel_id r) (channelInfoById st)) as [existing|] eqn:Hinfo.
    { destruct (decide (channel existing = r)) as [Heq|]; [|discriminate].
      intros [= <-]. rewrite Hinfo.
      destruct (decide (channel existing = r)); congruence. }
    destruct (decide (channel_id r ∈ channelIdsWithErrors st)) as [Hin|Hnotin].
    { intros [= <-]. rewrite Hinfo.
      destruct (decide (channel_id r ∈ channelIdsWithErrors st)); congruence. }
    destruct (negb (schemaId r =? 0) && _); [discriminate|].
    destruct (parseChannel P _ None) as [parsed|m].
    + intros [= <-]. cbn [channelInfoById]. rewrite get_set_eq. cbn [channel].
      destruct (decide (r = r)); congruence.
    + intros [= <-]. cbn [channelInfoById channelIdsWithErrors]. rewrite Hinfo.
      destruct (decide (channel_id r ∈ {[channel_id r]} ∪ channelIdsWithErrors st))
        as [|Hno]; [reflexivity|].
      exfalso. apply Hno. set_solver.
  - destruct (Hnot r eq_refl).
  - intros [= <-]. reflexivity.
Qed.
End WithParsers.

Lemma initialize_time_bounds_witness :
  exists init src,
    initialize accepting 1024 unsorted_file = Ok (init, src)
    /\ source_start src = Some (init_start init)
    /\ init_start init = mkTime 0 2 /\ init_end init = mkTime 0 5.
Proof.
  destruct (initialize accepting 1024 unsorted_file) as [[init src]|m] eqn:E;
    [|vm_compute in E; discriminate].
  exists init, src. split; [reflexivity|].
  destruct (initialize_time_bounds accepting 1024 unsorted_file init src E)
    as (Hs & _ & _).
  split; [exact Hs|]. vm_compute in E. injection E as <- <-. split; reflexivity.
Defined.

Lemma initialize_sizes_witness :
  exists init src store,
    initialize accepting 1024 inherited_topic_file = Ok (init, src)
    /\ msgEventsByChannel src = Some store
    /\ map (fun entry => (topic (snd entry), sizeInBytes (snd entry)))
         (stored_events store)
       = [("/a", of_Z 12); ("/a", of_Z 12); ("constructor", NaN)]
    /\ exists estimates : gmap string Z,
         forall id e,
           In (id, e) (stored_events store) ->
           exists r,
             In (MessageR r) inherited_topic_file /\ channelId r = id
             /\ receiveTime e = fromNanoSec (logTime r)
             /\ if JsObject.inherits (topic e) then sizeInBytes e = NaN
                else
                  exists est,
                    estimates !! topic e = Some est
                    /\ sizeInBytes e
                       = of_Z (Z.max (Z.of_nat (length (data r))) est).
Proof.
  destruct (initialize accepting 1024 inherited_topic_file)
    as [[init src]|m] eqn:E; [|vm_compute in E; discriminate].
  exists init, src.
  destruct (initialize_sizes accepting 1024 inherited_topic_file init src E)
    as (store & estimates & Hstore & _ & Hsized).
  exists store. split; [reflexivity|]. split; [exact Hstore|].
  split; [|exists estimates; exact Hsized].
  vm_compute in E. injection E as _ <-.
  cbn [msgEventsByChannel] in Hstore. injection Hstore as <-.
  vm_compute. reflexivity.
Defined.

Lemma initialize_topics_witness :
  throws (initialize accepting (2 * 1024 * 1024 * 1024) unsorted_file)
  /\ exists init src,
       initialize accepting 1024 two_topic_file = Ok (init, src)
       /\ 1024 <= 1024 * 1024 * 1024
       /\ map topic_name (init_topics init) = ["/a"; "/b"].
Proof.
  split.
  - apply (proj1 (initialize_topics accepting (2 * 1024 * 1024 * 1024)
                    unsorted_file
                    (summarize init_state (mkTime 0 0) (mkTime 0 0)) new_source)).
    lia.
  - destruct (initialize accepting 1024 two_topic_file) as [[init src]|m] eqn:E;
      [|vm_compute in E; discriminate].
    exists init, src. split; [reflexivity|].
    destruct (proj2 (initialize_topics accepting 1024 two_topic_file init src) E)
      as (Hsize & _).
    split; [exact Hsize|]. vm_compute in E. injection E as <- <-. reflexivity.
Defined.

Lemma processRecord_replay_witness :
  exists st,
    processRecord accepting (SchemaR a_schema) init_state = Ok st
    /\ processRecord accepting (SchemaR a_schema) st = Ok st.
Proof.
  destruct (processRecord accepting (SchemaR a_schema) init_state)
    as [st|m] eqn:E; [|vm_compute in E; discriminate].
  exists st. split; [reflexivity|].
  apply (processRecord_replay accepting (SchemaR a_schema) init_state st);
    [discriminate | exact E].
Defined.

End McapUnindexedMore.

Module McapQueries.
Import Js Rostime Types ParseChannel McapUnindexed Notions Fixtures.
Import JsMapFacts RostimeFacts.

Lemma filter_none {A : Type} (Q : A -> Prop) `{forall x, Decision (Q x)}
    (l : list A) :
  (forall x, In x l -> ~ Q x) -> filter Q l = [].
Proof.
  induction l as [|x l IH]; intros Hnone; [reflexivity|].
  rewrite filter_cons_False by (apply Hnone; left; reflexivity).
  apply IH. intros y Hy. apply Hnone. right. exact Hy.
Qed.

Lemma isTimeInRangeInclusive_spec (t s e : Time) :
  isTimeInRangeInclusive t s e = true
  <-> compare s t <= 0 /\ compare t e <= 0.
Proof.
  unfold isTimeInRangeInclusive.
  destruct (Z.gtb_spec (compare s t) 0); destruct (Z.ltb_spec (compare e t) 0);
    cbn; split; try discriminate; try (intros [? ?]); try reflexivity;
    try lia.
  - pose proof (compare_le_flip t e). compare_lia.
  - intros _. split; [lia|]. compare_lia.
Qed.

(** X6: on an initialized source, with a topic selected, [messageIterator]
    yields each stored event that was received within [start, end] (both
    inclusive; the source's own bounds where the call gives none) on a
    selected topic, once, with the id of its channel, and nothing else. *)
Theorem messageIterator_selects args store start end_ items :
  messageIterator args (mkSource (Some store) (Some start) (Some end_))
  = Ok items ->
  topics args <> ∅ ->
  let lo := default start (Types.start args) in
  let hi := default end_ (Types.end_ args) in
  length items = length (collect (topics args) lo hi store)
  /\ forall item,
       In item items
       <-> exists id e events,
             item = message_event (Some id) e
             /\ In (id, events) store /\ In e events
             /\ compare lo (receiveTime e) <= 0
             /\ compare (receiveTime e) hi <= 0
             /\ is_Some (topics args !! topic e).
Proof.
  intros H Hne lo hi.
  pose proof (McapUnindexedFacts.messageIterator_yields_selected
                _ _ _ _ _ H Hne) as Hperm.
  fold lo hi in Hperm. split.
  - rewrite (Permutation_length Hperm). apply length_map.
  - intros item. split.
    + intros Hin. apply (Permutation_in _ Hperm) in Hin.
      apply in_map_iff in Hin as ([id e] & <- & Hc).
      unfold collect in Hc.
      apply list_elem_of_In, list_elem_of_filter in Hc as [Hq Hs].
      cbn [snd] in Hq. apply andb_prop in Hq as [Ht Hsel].
      apply isTimeInRangeInclusive_spec in Ht as [Hlo Hhi].
      apply bool_decide_eq_true in Hsel.
      apply list_elem_of_In, McapInvariants.In_stored_events in Hs
        as (events & Hstore & He).
      exists id, e, events. auto 10.
    + intros (id & e & events & -> & Hstore & He & Hlo & Hhi & Hsel).
      apply (Permutation_in _ (Permutation_sym Hperm)).
      apply in_map_iff. exists (id, e). split; [reflexivity|].
      unfold collect. apply list_elem_of_In, list_elem_of_filter. split.
      * cbn [snd]. apply andb_true_intro. split.
        -- apply isTimeInRangeInclusive_spec. auto.
        -- apply bool_decide_eq_true. exact Hsel.
      * apply list_elem_of_In, McapInvariants.In_stored_events. eauto.
Qed.

Lemma messageIterator_selects_witness :
  exists items,
    messageIterator
      {| topics := select ["/b"]; start := Some (mkTime 0 1);
         end_ := Some (mkTime 0 4); reverse := None |}
      (mkSource
         (msgEventsByChannel (initialized two_topic_file))
         (Some (mkTime 0 1)) (Some (mkTime 0 7))) = Ok items
    /\ receiveTimes items = [mkTime 0 2]
    /\ length items
       = length (collect (select ["/b"]) (mkTime 0 1) (mkTime 0 4)
                   (default [] (msgEventsByChannel (initialized two_topic_file)))).
Proof.
  eexists. split; [vm_compute; reflexivity|]. split; [reflexivity|].
  match goal with |- length ?items = _ =>
    apply (messageIterator_selects
             {| topics := select ["/b"]; start := Some (mkTime 0 1);
                end_ := Some (mkTime 0 4); reverse := None |}
             (default [] (msgEventsByChannel (initialized two_topic_file)))
             (mkTime 0 1) (mkTime 0 7) items)
  end.
  - vm_compute. reflexivity.
  - intros H. apply (f_equal (fun m : TopicSelection => m !! "/b")) in H.
    vm_compute in H. discriminate.
Defined.

(** X7: a [messageIterator] call whose [start] is after its [end] yields
    nothing, on every initialized source. *)
Theorem messageIterator_empty_range args store source_start source_end s e :
  start args = Some s -> end_ args = Some e -> compare s e > 0 ->
  messageIterator args (mkSource (Some store) source_start source_end) = Ok [].
Proof.
  intros Hs He Hgt. unfold messageIterator.
  cbn [msgEventsByChannel McapUnindexed.source_start McapUnindexed.source_end].
  rewrite Hs, He. destruct (size (topics args) =? 0)%nat; [reflexivity|].
  unfold collect. rewrite filter_none; [reflexivity|].
  intros [id ev] _ Hin. cbn [snd] in Hin.
  apply andb_prop in Hin as [Hin _].
  apply isTimeInRangeInclusive_spec in Hin as [Hlo Hhi].
  pose proof (compare_le_trans _ _ _ Hlo Hhi). lia.
Qed.

Lemma messageIterator_empty_range_witness :
  messageIterator
    {| topics := select ["/a"]; start := Some (mkTime 0 6);
       end_ := Some (mkTime 0 3); reverse := None |}
    (mkSource (Some (default [] (msgEventsByChannel (initialized two_topic_file))))
       (Some (mkTime 0 1)) (Some (mkTime 0 7)))
  = Ok [].
Proof.
  apply (messageIterator_empty_range _ _ _ _ (mkTime 0 6) (mkTime 0 3));
    [reflexivity | reflexivity | vm_compute; reflexivity].
Defined.

(** The map [getBackfillMessages] builds, event by event. *)
Lemma backfill_fold (topics : TopicSelection) (time : Time)
    (stored : list (Z * MessageEvent)) :
  forall byTopic,
    List.NoDup (map fst byTopic) ->
    (forall k v, In (k, v) byTopic -> topic v = k) ->
    let result :=
      fold_left
        (fun (byTopic : list (string * MessageEvent)) '(_, msgEvent) =>
           if (compare (receiveTime msgEvent) time <=? 0)
              && bool_decide (is_Some (topics !! topic msgEvent))
           then JsMap.set (topic msgEvent) msgEvent byTopic
           else byTopic)
        stored byTopic in
    List.NoDup (map fst result)
    /\ (forall k v, In (k, v) result -> topic v = k)
    /\ forall name,
         JsMap.get name result
         = match last_qualifying topics time name (map snd stored) with
           | Some e => Some e
           | None => JsMap.get name byTopic
           end.
Proof.
  induction stored as [|[id e] stored IH]; intros byTopic Hnd Hkeys; cbn zeta.
  - cbn. auto.
  - cbn [fold_left map snd last_qualifying].
    match goal with |- context [fold_left _ stored ?acc] =>
      set (byTopic' := acc) end.
    assert (Hnd' : List.NoDup (map fst byTopic')).
    { unfold byTopic'. destruct (_ && _); [apply set_NoDup|]; exact Hnd. }
    assert (Hkeys' : forall k v, In (k, v) byTopic' -> topic v = k).
    { unfold byTopic'. intros k v Hin. destruct (_ && _); [|eauto].
      apply In_set in Hin as [[-> ->]|Hin]; eauto. }
    destruct (IH byTopic' Hnd' Hkeys') as (Hnd2 & Hkeys2 & Hget).
    cbn zeta in Hnd2, Hkeys2, Hget.
    split; [exact Hnd2|]. split; [exact Hkeys2|].
    intros name. rewrite Hget.
    destruct (last_qualifying topics time name (map snd stored)); [reflexivity|].
    unfold byTopic', qualifies.
    destruct ((compare (receiveTime e) time <=? 0)
              && bool_decide (is_Some (topics !! topic e))); cbn [andb].
    + destruct (decide (topic e = name)) as [Heq|Hne].
      * rewrite bool_decide_eq_true_2 by exact Heq. subst name.
        apply get_set_eq.
      * rewrite bool_decide_eq_false_2 by exact Hne.
        apply get_set_ne, Hne.
    + reflexivity.
Qed.

(** X8: [getBackfillMessages] returns at most one event per topic, and the
    event it returns for a topic is the last one, in the order of the store
    (channel by channel, each channel in file order), that is on a requested
    topic and was received at or before [time]. *)
Theorem getBackfillMessages_last_stored args store source_start source_end
    events :
  getBackfillMessages args (mkSource (Some store) source_start source_end)
  = Ok events ->
  List.NoDup (map topic events)
  /\ forall e,
       In e events
       <-> last_qualifying (backfill_topics args) (time args) (topic e)
             (map snd (stored_events store)) = Some e.
Proof.
  unfold getBackfillMessages. cbn [msgEventsByChannel]. intros [= <-].
  destruct (backfill_fold (backfill_topics args) (time args)
              (stored_events store) [] ltac:(constructor)
              ltac:(intros k v [])) as (Hnd & Hkeys & Hget).
  cbn zeta in Hnd, Hkeys, Hget.
  match type of Hnd with List.NoDup (map fst ?m) => set (byTopic := m) in * end.
  split.
  - replace (map topic (JsMap.values byTopic)) with (map fst byTopic);
      [exact Hnd|].
    unfold JsMap.values. rewrite map_map. apply map_ext_in.
    intros [k v] Hin. cbn. symmetry. apply Hkeys, Hin.
  - intros e. unfold JsMap.values. rewrite in_map_iff. split.
    + intros ([k v] & <- & Hin). cbn [snd].
      pose proof (Hkeys _ _ Hin) as Hk. subst k.
      apply (In_get _ _ _ Hnd) in Hin. rewrite Hget in Hin.
      destruct (last_qualifying _ _ _ _); [exact Hin | discriminate].
    + intros Hlast. exists (topic e, e). split; [reflexivity|].
      apply get_In. rewrite Hget, Hlast. reflexivity.
Qed.

Lemma getBackfillMessages_last_stored_witness :
  exists events,
    getBackfillMessages
      {| backfill_topics := select ["/a"; "/b"]; time := mkTime 0 4 |}
      (mkSource (Some (default [] (msgEventsByChannel (initialized two_topic_file))))
         None None) = Ok events
    /\ List.NoDup (map topic events)
    /\ map (fun e => (topic e, receiveTime e)) events
       = [("/a", mkTime 0 3); ("/b", mkTime 0 2)].
Proof.
  eexists. split; [vm_compute; reflexivity|]. split; [|reflexivity].
  match goal with |- List.NoDup (map topic ?events) =>
    apply (getBackfillMessages_last_stored
             {| backfill_topics := select ["/a"; "/b"]; time := mkTime 0 4 |}
             (default [] (msgEventsByChannel (initialized two_topic_file)))
             None None events)
  end.
  vm_compute. reflexivity.
Defined.

End McapQueries.

Module CursorMore.
Import Js Rostime Types Cursor Notions BatchNotions.
Import RostimeFacts CursorFacts.

(** The loop of [nextBatch] takes items off the front of the iterator; all
    but the last one it takes are neither problems nor past the cutoff; and
    when it stops with items left and no abort, the last one it took is. *)
Lemma nextBatch_loop_shape cutoffTime items :
  forall results signal out rest signal',
    nextBatch_loop cutoffTime results items signal = (out, rest, signal') ->
    exists taken,
      out = results ++ taken /\ items = taken ++ rest
      /\ List.Forall (fun item => ends_batch cutoffTime item = false)
           (removelast taken)
      /\ (rest <> [] -> aborted signal' = false ->
          exists final, last taken = Some final
                        /\ ends_batch cutoffTime final = true).
Proof.
  induction items as [|x items IH]; intros results signal out rest signal';
    cbn [nextBatch_loop]; destruct (aborted signal) eqn:Hab.
  - intros [= <- <- <-]. exists []. rewrite app_nil_r.
    repeat split; [constructor | congruence].
  - intros [= <- <- <-]. exists []. rewrite app_nil_r.
    repeat split; [constructor | congruence].
  - intros [= <- <- <-]. exists []. rewrite app_nil_r.
    repeat split; [constructor | congruence].
  - destruct (ends_batch cutoffTime x) eqn:Hx.
    + intros [= <- <- <-]. exists [x].
      repeat split; [constructor | eauto].
    + intros H. apply IH in H as (taken & -> & -> & Hall & Hlast).
      exists (x :: taken). rewrite <- app_assoc.
      split; [reflexivity|]. split; [reflexivity|]. split.
      * destruct taken as [|y taken]; [constructor|].
        change (removelast (x :: y :: taken)) with (x :: removelast (y :: taken)).
        constructor; assumption.
      * intros Hrest Hsig. destruct (Hlast Hrest Hsig) as (final & Hf & He).
        exists final. split; [|exact He].
        destruct taken as [|y taken]; [discriminate | exact Hf].
Qed.

(** X9: a batch [nextBatch(durationMs)] returns is taken off the front of
    the iterator in order, and leaves the stash alone; a first item that is
    a problem is returned alone; otherwise every item after the first,
    except the last of the batch, is neither a problem nor later than the
    cutoff (the time of the first item plus [durationMs]); and a batch that
    stops while the iterator has items left and no abort was seen ends with
    a problem or an item later than the cutoff. *)
Theorem nextBatch_window addTime durationMs c results c' :
  nextBatch addTime durationMs c = (Some results, c') ->
  pending (iter c) = results ++ pending (iter c')
  /\ lastIteratorResult c' = lastIteratorResult c
  /\ exists first more,
       results = first :: more
       /\ (is_problem first = true -> more = [])
       /\ List.Forall
            (fun item => ends_batch (cutoff_of addTime durationMs first) item
                         = false)
            (removelast more)
       /\ (is_problem first = false ->
           pending (iter c') <> [] -> aborted (abort c') = false ->
           exists final,
             last more = Some final
             /\ ends_batch (cutoff_of addTime durationMs first) final = true).
Proof.
  unfold nextBatch, next, iter_next.
  destruct c as [[items ret] stash signal];
    cbn [iter pending abort has_return lastIteratorResult].
  destruct (aborted signal); [discriminate|].
  destruct items as [|first rest]; [discriminate|].
  assert (Hloop : forall out rest' signal',
    nextBatch_loop (cutoff_of addTime durationMs first) [first] rest
      (await_pull signal) = (out, rest', signal') ->
    first :: rest = out ++ rest'
    /\ exists more,
         out = first :: more
         /\ List.Forall
              (fun item => ends_batch (cutoff_of addTime durationMs first) item
                           = false) (removelast more)
         /\ (rest' <> [] -> aborted signal' = false ->
             exists final,
               last more = Some final
               /\ ends_batch (cutoff_of addTime durationMs first) final = true)).
  { intros out rest' signal' E.
    apply nextBatch_loop_shape in E as (taken & -> & -> & Hall & Hlast).
    split; [reflexivity|]. exists taken. auto. }
  destruct first as [id e | id p | t]; cbn [fst snd iter pending abort].
  - destruct (nextBatch_loop _ _ _ _) as [[out rest'] signal'] eqn:E.
    intros [= <- <-]. cbn [iter pending lastIteratorResult abort].
    destruct (Hloop _ _ _ eq_refl) as (Hcons & more & -> & Hall & Hlast).
    split; [exact Hcons|]. split; [reflexivity|].
    exists (message_event id e), more.
    split; [reflexivity|]. split; [discriminate|]. split; [exact Hall|].
    intros _. exact Hlast.
  - intros [= <- <-]. cbn [iter pending lastIteratorResult abort].
    split; [reflexivity|]. split; [reflexivity|].
    exists (problem id p), []. split; [reflexivity|]. split; [reflexivity|].
    split; [constructor | discriminate].
  - destruct (nextBatch_loop _ _ _ _) as [[out rest'] signal'] eqn:E.
    intros [= <- <-]. cbn [iter pending lastIteratorResult abort].
    destruct (Hloop _ _ _ eq_refl) as (Hcons & more & -> & Hall & Hlast).
    split; [exact Hcons|]. split; [reflexivity|].
    exists (stamp t), more.
    split; [reflexivity|]. split; [discriminate|]. split; [exact Hall|].
    intros _. exact Hlast.
Qed.

Lemma nextBatch_window_witness :
  let add := fun a b => mkTime (sec a + sec b) (nsec a + nsec b) in
  let s := fun n => stamp (mkTime 0 n) in
  let c := new_cursor
             (mkAsyncIterator [s 1; s 2; s 20000000; s 20000001] true) None in
  exists c',
    nextBatch add 17 c = (Some [s 1; s 2; s 20000000], c')
    /\ pending (iter c) = [s 1; s 2; s 20000000] ++ pending (iter c')
    /\ lastIteratorResult c' = lastIteratorResult c.
Proof.
  intros add s c.
  destruct (nextBatch add 17 c) as [results c'] eqn:E.
  assert (Hres : results = Some [s 1; s 2; s 20000000])
    by (vm_compute in E; injection E as <- _; reflexivity).
  subst results. exists c'. split; [reflexivity|].
  destruct (nextBatch_window add 17 c _ c' E) as (Hcons & Hstash & _).
  split; [exact Hcons | exact Hstash].
Defined.



(** *** [readUntil] as a split of what the cursor has to deliver *)

Lemma readUntil_loop_never_aborted end_ items :
  forall results,
    readUntil_loop end_ results items None
    = (Some (results ++ take_within end_ items),
       tail (drop_within end_ items), head (drop_within end_ items), None).
Proof.
  induction items as [|x items IH]; intros results; cbn.
  - rewrite app_nil_r. reflexivity.
  - destruct (past_end end_ x).
    + rewrite app_nil_r. reflexivity.
    + rewrite IH, <- app_assoc. reflexivity.
Qed.

Lemma readUntil_never_aborted end_ c :
  abort c = None ->
  readUntil end_ c
  = (Some (take_within end_ (to_deliver c)), after_readUntil end_ c).
Proof.
  unfold readUntil, after_readUntil, to_deliver.
  destruct c as [[items ret] stash signal];
    cbn [iter pending abort has_return lastIteratorResult].
  intros ->. cbn [aborted]. destruct stash as [last|]; simpl.
  - destruct (past_end end_ last); simpl; [reflexivity|].
    rewrite readUntil_loop_never_aborted. reflexivity.
  - rewrite readUntil_loop_never_aborted. reflexivity.
Qed.

Lemma past_end_mono (T T' : Time) (item : IteratorResult) :
  compare T T' <= 0 -> past_end T item = false -> past_end T' item = false.
Proof.
  intros HT. destruct item as [id e|id p|t]; cbn; [|reflexivity|].
  - intros H. rewrite Z.gtb_ltb in H. apply Z.ltb_ge in H.
    rewrite Z.gtb_ltb. apply Z.ltb_ge.
    pose proof (compare_le_trans (receiveTime e) T T'). lia.
  - intros H. rewrite Z.geb_leb in H. apply Z.leb_gt in H.
    rewrite Z.geb_leb. apply Z.leb_gt.
    pose proof (compare_lt_le_trans t T T'). lia.
Qed.

Lemma take_drop_within (T T' : Time) (items : list IteratorResult) :
  compare T T' <= 0 ->
  take_within T' items
  = take_within T items ++ take_within T' (drop_within T items)
  /\ drop_within T' (drop_within T items) = drop_within T' items.
Proof.
  intros HT. induction items as [|x items [IHt IHd]]; cbn; [auto|].
  destruct (past_end T x) eqn:Hx; cbn.
  - auto.
  - rewrite (past_end_mono T T' x HT Hx). rewrite IHt at 1. auto.
Qed.

Lemma to_deliver_after end_ c :
  to_deliver (after_readUntil end_ c) = drop_within end_ (to_deliver c).
Proof.
  unfold after_readUntil. unfold to_deliver at 1.
  cbn [iter pending lastIteratorResult].
  destruct (drop_within end_ (to_deliver c)); reflexivity.
Qed.

(** X11: on a cursor that is not aborted, reading until [T] and then until
    [T'], with [T <= T'], returns in two pieces exactly what reading until
    [T'] at once returns, and leaves the cursor in the same state: the
    stash makes [readUntil] calls compose. *)
Theorem readUntil_composes (T T' : Time) (c : IteratorCursor) :
  abort c = None ->
  compare T T' <= 0 ->
  exists r1 c1 r2 c2,
    readUntil T c = (Some r1, c1)
    /\ readUntil T' c1 = (Some r2, c2)
    /\ readUntil T' c = (Some (r1 ++ r2), c2).
Proof.
  intros Hab HT.
  exists (take_within T (to_deliver c)), (after_readUntil T c),
    (take_within T' (to_deliver (after_readUntil T c))),
    (after_readUntil T' (after_readUntil T c)).
  split; [apply readUntil_never_aborted, Hab|].
  split; [apply readUntil_never_aborted; reflexivity|].
  rewrite (readUntil_never_aborted T' c Hab).
  destruct (take_drop_within T T' (to_deliver c) HT) as [Htake Hdrop].
  assert (Hafter : after_readUntil T' (after_readUntil T c)
                   = after_readUntil T' c).
  { unfold after_readUntil at 1. rewrite to_deliver_after, Hdrop. reflexivity. }
  rewrite Hafter, to_deliver_after, <- Htake. reflexivity.
Qed.

Lemma readUntil_composes_witness :
  let s := fun n => stamp (mkTime 0 n) in
  let c := new_cursor (mkAsyncIterator [s 1; s 2; s 3; s 4] true) None in
  exists r1 c1 r2 c2,
    readUntil (mkTime 0 2) c = (Some r1, c1)
    /\ readUntil (mkTime 0 4) c1 = (Some r2, c2)
    /\ readUntil (mkTime 0 4) c = (Some (r1 ++ r2), c2).
Proof.
  intros s c.
  apply (readUntil_composes (mkTime 0 2) (mkTime 0 4) c);
    [reflexivity | vm_compute; discriminate].
Defined.

End CursorMore.

Module RangesMore.
Import Ranges Notions RangesFacts.

(** The downloaded ranges, clipped to the bounds: still sorted and
    disjoint, each one non-empty and within the bounds, and covering the
    same offsets of the bounds. *)
Lemma clipped_sorted (b : Range) (ranges : list Range) :
  sorted_disjoint ranges ->
  sorted_disjoint (omap (intersect_one b) ranges)
  /\ List.Forall (fun c => start b <= start c /\ start c < end_ c
                           /\ end_ c <= end_ b)
       (omap (intersect_one b) ranges).
Proof.
  unfold sorted_disjoint.
  induction 1 as [|d ranges Hsorted (IHs & IHb) Hd].
  - cbn. split; constructor.
  - rewrite omap_cons. destruct (intersect_one b d) as [c|] eqn:Hc.
    + apply intersect_one_Some in Hc as (Hcs & Hce & Hne).
      split.
      * constructor; [exact IHs|].
        apply Forall_forall. intros c' Hc'.
        apply list_elem_of_omap in Hc' as (d' & Hd' & Hcd').
        apply intersect_one_Some in Hcd' as (Hcs' & _ & _).
        rewrite Forall_forall in Hd. specialize (Hd d' Hd'). lia.
      * constructor; [lia | exact IHb].
    + split; [exact IHs | exact IHb].
Qed.

Lemma clipped_covers (b : Range) (ranges : list Range) (x : Z) :
  inside x b ->
  (exists c, In c (omap (intersect_one b) ranges) /\ inside x c)
  <-> (exists d, In d ranges /\ inside x d).
Proof.
  unfold inside. intros Hb. split.
  - intros (c & Hc & Hx). apply list_elem_of_In, list_elem_of_omap in Hc
      as (d & Hd & Hcd).
    apply intersect_one_Some in Hcd as (Hcs & Hce & _).
    exists d. split; [apply list_elem_of_In, Hd | lia].
  - intros (d & Hd & Hx).
    destruct (intersect_one b d) as [c|] eqn:Hc.
    + exists c. split.
      * apply list_elem_of_In, list_elem_of_omap. exists d.
        split; [apply list_elem_of_In, Hd | exact Hc].
      * apply intersect_one_Some in Hc as (Hcs & Hce & _). lia.
    + apply intersect_one_None in Hc. lia.
Qed.

Lemma gaps_inside (intervals : list Range) (upto : Z) :
  sorted_disjoint intervals ->
  forall from,
    List.Forall (fun c => from <= start c /\ start c < end_ c /\ end_ c <= upto)
      intervals ->
    forall x,
      (exists g, In g (gaps from intervals upto) /\ inside x g)
      <-> (from <= x < upto /\ forall c, In c intervals -> ~ inside x c).
Proof.
  unfold sorted_disjoint, inside.
  induction 1 as [|c intervals Hsorted IH Hc]; intros from Hall x.
  - cbn [gaps]. destruct (Z.ltb_spec from upto).
    + split.
      * intros (g & [<-|[]] & Hx). cbn in Hx. split; [lia | intros ? []].
      * intros [Hx _]. eexists. split; [left; reflexivity | cbn; lia].
    + split; [intros (g & [] & _) | lia].
  - inversion Hall as [|? ? (Hfrom & Hne & Hupto) Hall']; subst.
    assert (Hall'' : List.Forall (fun c' => end_ c <= start c'
                                           /\ start c' < end_ c'
                                           /\ end_ c' <= upto) intervals).
    { apply Forall_forall. intros c' Hc'.
      rewrite Forall_forall in Hc, Hall'.
      pose proof (Hc c' Hc'). pose proof (Hall' c' Hc'). lia. }
    specialize (IH (end_ c) Hall'' x).
    cbn [gaps]. split.
    + intros (g & Hg & Hx). apply in_app_or in Hg as [Hg|Hg].
      * destruct (Z.ltb_spec from (start c)); [|destruct Hg].
        destruct Hg as [<-|[]]. cbn in Hx. split; [lia|].
        intros c' [<-|Hc']; [lia|].
        rewrite Forall_forall in Hc.
        pose proof (Hc c' ltac:(apply list_elem_of_In; exact Hc')). lia.
      * destruct (proj1 IH (ex_intro _ g (conj Hg Hx))) as [Hx' Hun].
        split; [lia|]. intros c' [<-|Hc']; [lia | apply Hun, Hc'].
    + intros [Hx Hun].
      pose proof (Hun c ltac:(left; reflexivity)) as Hnc.
      destruct (Z.lt_ge_cases x (start c)) as [Hlt|Hge].
      * exists (mkRange from (start c)). split; [|cbn; lia].
        apply in_or_app. left. destruct (Z.ltb_spec from (start c)); [|lia].
        left. reflexivity.
      * destruct (proj2 IH) as (g & Hg & Hxg).
        { split; [lia|]. intros c' Hc'. apply Hun. right. exact Hc'. }
        exists g. split; [apply in_or_app; right; exact Hg | exact Hxg].
Qed.

(** X12: over sorted, disjoint downloaded ranges, [missingRanges] is the
    complement within the bounds: an offset lies in one of the ranges it
    returns exactly when it lies within the bounds and in no downloaded
    range. *)
Theorem missingRanges_complement (bounds : Range) (ranges : list Range) (x : Z) :
  sorted_disjoint ranges ->
  (exists g, In g (missingRanges bounds ranges) /\ inside x g)
  <-> (inside x bounds /\ forall d, In d ranges -> ~ inside x d).
Proof.
  intros Hsorted. unfold missingRanges, complement. rewrite intersect_single.
  destruct (clipped_sorted bounds ranges Hsorted) as (Hcs & Hcb).
  rewrite (gaps_inside _ _ Hcs (start bounds)).
  - fold (inside x bounds). split.
    + intros [Hb Hun]. split; [exact Hb|]. intros d Hd Hx.
      destruct (proj2 (clipped_covers bounds ranges x Hb)
                  (ex_intro _ d (conj Hd Hx))) as (c & Hc & Hxc).
      exact (Hun c Hc Hxc).
    + intros [Hb Hun]. split; [exact Hb|]. intros c Hc Hxc.
      destruct (proj1 (clipped_covers bounds ranges x Hb)
                  (ex_intro _ c (conj Hc Hxc))) as (d & Hd & Hxd).
      exact (Hun d Hd Hxd).
  - eapply Forall_impl; [exact Hcb|]. cbn. intros c H. lia.
Qed.

Lemma missingRanges_complement_witness :
  (exists g,
      In g (missingRanges (mkRange 10 50)
              [mkRange 0 20; mkRange 30 40; mkRange 60 70])
      /\ inside 45 g)
  <-> (inside 45 (mkRange 10 50)
       /\ forall d, In d [mkRange 0 20; mkRange 30 40; mkRange 60 70] ->
                    ~ inside 45 d).
Proof.
  apply missingRanges_complement. unfold sorted_disjoint.
  repeat constructor; cbn; lia.
Defined.

(** X13: over sorted, disjoint, non-empty ranges, [isRangeCoveredByRanges]
    answers whether one of the ranges contains the whole (non-empty) query;
    a query that two adjacent ranges cover together is not "covered". *)
Theorem isRangeCoveredByRanges_contained (q : Range) (ranges : list Range) :
  sorted_disjoint ranges ->
  List.Forall (fun r => start r < end_ r) ranges ->
  start q < end_ q ->
  isRangeCoveredByRanges q ranges = true
  <-> exists r, In r ranges /\ start r <= start q /\ end_ q <= end_ r.
Proof.
  unfold sorted_disjoint. intros Hsorted Hne Hq.
  induction Hsorted as [|r ranges Hsorted IH Hr]; cbn [isRangeCoveredByRanges].
  - split; [discriminate | intros (r & [] & _)].
  - inversion Hne as [|? ? Hr_ne Hne']; subst.
    unfold isBefore, isDuring.
    destruct (Z.leb_spec (end_ q) (start r)) as [Hbefore|Hnot].
    + split; [discriminate|].
      intros (r' & [<-|Hin] & Hs & He); [lia|].
      rewrite Forall_forall in Hr, Hne'.
      pose proof (Hr r' ltac:(apply list_elem_of_In; exact Hin)).
      pose proof (Hne' r' ltac:(apply list_elem_of_In; exact Hin)). lia.
    + destruct (Z.leb_spec (start r) (start q)); destruct (Z.leb_spec (end_ q) (end_ r));
        cbn [andb].
      * split; [|reflexivity]. intros _. exists r. split; [left; reflexivity|lia].
      * rewrite (IH Hne'). split.
        -- intros (r' & Hin & H'). exists r'. split; [right; exact Hin | exact H'].
        -- intros (r' & [<-|Hin] & Hs & He); [lia|]. eauto.
      * rewrite (IH Hne'). split.
        -- intros (r' & Hin & H'). exists r'. split; [right; exact Hin | exact H'].
        -- intros (r' & [<-|Hin] & Hs & He); [lia|]. eauto.
      * rewrite (IH Hne'). split.
        -- intros (r' & Hin & H'). exists r'. split; [right; exact Hin | exact H'].
        -- intros (r' & [<-|Hin] & Hs & He); [lia|]. eauto.
Qed.

Lemma isRangeCoveredByRanges_contained_witness :
  (isRangeCoveredByRanges (mkRange 32 38) [mkRange 0 20; mkRange 30 40] = true
   <-> exists r, In r [mkRange 0 20; mkRange 30 40]
                 /\ start r <= 32 /\ 38 <= end_ r)
  /\ isRangeCoveredByRanges (mkRange 15 25) [mkRange 0 20; mkRange 20 40] = false.
Proof.
  split; [|reflexivity].
  apply (isRangeCoveredByRanges_contained (mkRange 32 38)
           [mkRange 0 20; mkRange 30 40]).
  - unfold sorted_disjoint. repeat constructor; cbn; lia.
  - repeat constructor; cbn; lia.
  - cbn. lia.
Defined.

End RangesMore.

Module GetNewConnectionMore.
Import Js Ranges Notions GetNewConnection RangesFacts.

(** With a pending request: the range returned starts at the first missing
    offset of the request, is not empty and ends within the file. *)
Lemma with_request_target current R downloaded limit fileSize threshold target :
  sorted_disjoint downloaded ->
  end_ R <= fileSize ->
  getNewConnectionWithExistingReadRequest current R downloaded limit fileSize
    threshold = Ok (Some target) ->
  (exists first,
      head (missingRanges R downloaded) = Some first
      /\ start target = start first)
  /\ start R <= start target < end_ R
  /\ start target < end_ target <= fileSize
  /\ forall d, In d downloaded -> ~ inside (start target) d.
Proof.
  intros Hsorted Hfile. unfold getNewConnectionWithExistingReadRequest.
  destruct (exceeds (end_ R - start R) limit) eqn:Hsize; [discriminate|].
  destruct (missingRanges R downloaded) as [|first rest] eqn:Hmissing;
    [discriminate|].
  assert (Hhead : head (missingRanges R downloaded) = Some first)
    by (rewrite Hmissing; reflexivity).
  destruct (missingRanges_head R downloaded first Hsorted Hhead)
    as [(HRs & Hne & HRe) Huncovered].
  destruct (negb (startNewConnection current (first :: rest) first threshold));
    [discriminate|].
  assert (Hsame : start target = start first ->
                  start target < end_ target <= fileSize ->
                  (exists first0,
                      Some first = Some first0 /\ start target = start first0)
                  /\ start R <= start target < end_ R
                  /\ start target < end_ target <= fileSize
                  /\ forall d, In d downloaded -> ~ inside (start target) d).
  { intros Hs Hin. split; [eauto|]. split; [lia|]. split; [exact Hin|].
    unfold inside. rewrite Hs. exact Huncovered. }
  destruct (at_least limit fileSize) eqn:Hwhole.
  - intros [= Ht].
    destruct (missingRanges_from_uncovered downloaded (start first) fileSize
                ltac:(lia) Huncovered) as (whole & Hw & Hws).
    rewrite Hw in Ht. injection Ht as ->.
    destruct (missingRanges_head _ downloaded target Hsorted Hw)
      as [(_ & Hne' & He') _]. cbn [end_] in He'.
    apply Hsame; [exact Hws | lia].
  - destruct limit as [l|]; [|discriminate]. cbn [exceeds min_plus] in *.
    rewrite Z.gtb_ltb in Hsize. apply Z.ltb_ge in Hsize.
    destruct (end_ first =? end_ R); intros [= <-]; cbn [start end_];
      apply Hsame; cbn [start end_]; try reflexivity; lia.
Qed.

(** Without a request and without a connection: the read-ahead range is
    not empty, ends within the file, starts at an offset that is not
    downloaded, and, when the cache is smaller than the file, lies within
    one cache size after the last resolved read. *)
Lemma without_connection_target downloaded lastEnd limit fileSize target :
  sorted_disjoint downloaded ->
  getNewConnectionWithoutExistingConnection downloaded lastEnd limit fileSize
  = Some target ->
  start target < end_ target <= fileSize
  /\ (forall d, In d downloaded -> ~ inside (start target) d)
  /\ (at_least limit fileSize = false ->
      exists e l,
        lastEnd = Some e /\ limit = Bounded l
        /\ e <= start target /\ end_ target <= e + l)
  /\ ((forall e, lastEnd = Some e -> 0 <= e) -> 0 <= start target).
Proof.
  intros Hsorted. unfold getNewConnectionWithoutExistingConnection.
  destruct (at_least limit fileSize) eqn:Hwhole.
  - destruct (negb (isRangeCoveredByRanges _ downloaded)); intros Hhead;
      destruct (missingRanges_head _ downloaded target Hsorted Hhead)
        as [(Hs & Hne & He) Hun]; cbn [start end_] in *;
      (split; [lia|]; split; [exact Hun|]; split; [discriminate|]).
    + intros Hlast. destruct lastEnd as [e|]; cbn in Hs;
        [pose proof (Hlast e eq_refl)|]; lia.
    + intros _. lia.
  - destruct lastEnd as [e|]; [|discriminate].
    destruct limit as [l|]; [|discriminate]. cbn [min_plus].
    intros Hhead.
    destruct (missingRanges_head _ downloaded target Hsorted Hhead)
      as [(Hs & Hne & He) Hun]; cbn [start end_] in *.
    split; [lia|]. split; [exact Hun|]. split.
    + intros _. exists e, l. repeat split; lia.
    + intros Hlast. pose proof (Hlast e eq_refl). lia.
Qed.

(** Whatever range [getNewConnection] returns is not empty and ends within
    the file. *)
Lemma target_within_file (opts : Options) (target : Range) :
  sorted_disjoint (downloadedRanges opts) ->
  (forall R, readRequestRange opts = Some R -> end_ R <= fileSize opts) ->
  getNewConnection opts = Ok (Some target) ->
  start target < end_ target <= fileSize opts.
Proof.
  intros Hsorted Hreq. unfold getNewConnection.
  destruct (readRequestRange opts) as [R|].
  - intros H. eapply with_request_target in H as (_ & _ & Hin & _);
      [exact Hin | exact Hsorted | apply Hreq; reflexivity].
  - destruct (currentRemainingRange opts); [discriminate|].
    intros [= H]. apply without_connection_target in H as (Hin & _);
      [exact Hin | exact Hsorted].
Qed.

(** With requests and resolved reads at offsets that are not negative, the
    range returned does not start at a negative offset either. *)
Lemma target_nonneg (opts : Options) (target : Range) :
  sorted_disjoint (downloadedRanges opts) ->
  (forall R, readRequestRange opts = Some R ->
             0 <= start R /\ end_ R <= fileSize opts) ->
  (forall e, lastResolvedCallbackEnd opts = Some e -> 0 <= e) ->
  getNewConnection opts = Ok (Some target) ->
  0 <= start target.
Proof.
  intros Hsorted Hreq Hlast. unfold getNewConnection.
  destruct (readRequestRange opts) as [R|].
  - destruct (Hreq R eq_refl) as [HR0 HRe].
    intros H. eapply with_request_target in H as (_ & HR & _);
      [lia | exact Hsorted | exact HRe].
  - destruct (currentRemainingRange opts); [discriminate|].
    intros [= H]. apply without_connection_target in H as (_ & _ & _ & H0);
      [auto | exact Hsorted].
Qed.

(** X14: over sorted, disjoint downloaded ranges, and with the pending
    request (if any) ending within the file, a range [getNewConnection]
    returns is never empty, never reaches past the end of the file and
    never starts at an offset that is already downloaded; with a pending
    request it starts inside the request; and without one, nothing is
    returned while a connection is live. *)
Theorem getNewConnection_target (opts : Options) (target : Range) :
  sorted_disjoint (downloadedRanges opts) ->
  (forall R, readRequestRange opts = Some R -> end_ R <= fileSize opts) ->
  getNewConnection opts = Ok (Some target) ->
  start target < end_ target <= fileSize opts
  /\ (forall d, In d (downloadedRanges opts) -> ~ inside (start target) d)
  /\ (forall R, readRequestRange opts = Some R -> inside (start target) R)
  /\ (readRequestRange opts = None -> currentRemainingRange opts = None).
Proof.
  intros Hsorted Hreq. unfold getNewConnection.
  destruct (readRequestRange opts) as [R|].
  - intros H. eapply with_request_target in H as (_ & HR & Hin & Hun);
      [| exact Hsorted | apply Hreq; reflexivity].
    split; [exact Hin|]. split; [exact Hun|].
    split; [intros R' [= <-]; exact HR | discriminate].
  - destruct (currentRemainingRange opts); [discriminate|].
    intros [= H]. apply without_connection_target in H as (Hin & Hun & _);
      [| exact Hsorted].
    split; [exact Hin|]. split; [exact Hun|].
    split; [discriminate | reflexivity].
Qed.

Lemma getNewConnection_target_witness :
  let opts :=
    {| currentRemainingRange := None;
       readRequestRange := Some (mkRange 10 20);
       downloadedRanges := [mkRange 0 12; mkRange 30 40];
       lastResolvedCallbackEnd := None;
       maxRequestSize := Bounded 50; fileSize := 100;
       continueDownloadingThreshold := 5 |} in
  getNewConnection opts = Ok (Some (mkRange 12 60))
  /\ 12 < 60 <= 100
  /\ (forall d, In d [mkRange 0 12; mkRange 30 40] -> ~ inside 12 d).
Proof.
  intros opts. split; [reflexivity|].
  destruct (getNewConnection_target opts (mkRange 12 60)) as (Hin & Hun & _).
  - unfold sorted_disjoint. repeat constructor. cbn. lia.
  - intros R [= <-]. cbn. lia.
  - reflexivity.
  - split; [exact Hin | exact Hun].
Defined.

(** X15: with nothing requested, no live connection and a cache smaller
    than the file, [getNewConnection] reads ahead only after a read has
    been resolved, and then only within one cache size after the end of
    the last resolved read. *)
Theorem getNewConnection_read_ahead (opts : Options) (cache : Z) :
  sorted_disjoint (downloadedRanges opts) ->
  readRequestRange opts = None ->
  currentRemainingRange opts = None ->
  maxRequestSize opts = Bounded cache ->
  cache < fileSize opts ->
  exists answer,
    getNewConnection opts = Ok answer
    /\ match lastResolvedCallbackEnd opts with
       | None => answer = None
       | Some lastEnd =>
           forall target,
             answer = Some target ->
             lastEnd <= start target /\ start target < end_ target
             /\ end_ target <= lastEnd + cache
             /\ end_ target <= fileSize opts
       end.
Proof.
  intros Hsorted Hreq Hcur Hmax Hsmall. unfold getNewConnection.
  rewrite Hreq, Hcur. eexists. split; [reflexivity|].
  assert (Hwhole : at_least (maxRequestSize opts) (fileSize opts) = false).
  { rewrite Hmax. cbn. rewrite Z.geb_leb. apply Z.leb_gt. exact Hsmall. }
  destruct (lastResolvedCallbackEnd opts) as [lastEnd|] eqn:Hlast.
  - intros target Ht.
    apply without_connection_target in Ht
      as (Hin & _ & Hwindow & _); [|exact Hsorted].
    destruct (Hwindow Hwhole) as (e & l & [= <-] & Hl & Hs & He).
    rewrite Hmax in Hl. injection Hl as <-. lia.
  - unfold getNewConnectionWithoutExistingConnection. rewrite Hwhole.
    reflexivity.
Qed.

Lemma getNewConnection_read_ahead_witness :
  let opts :=
    {| currentRemainingRange := None; readRequestRange := None;
       downloadedRanges := [mkRange 0 25; mkRange 30 40];
       lastResolvedCallbackEnd := Some 20;
       maxRequestSize := Bounded 50; fileSize := 100;
       continueDownloadingThreshold := 5 |} in
  getNewConnection opts = Ok (Some (mkRange 25 30))
  /\ exists answer,
       getNewConnection opts = Ok answer
       /\ forall target,
            answer = Some target ->
            20 <= start target /\ start target < end_ target
            /\ end_ target <= 20 + 50 /\ end_ target <= 100.
Proof.
  intros opts. split; [reflexivity|].
  apply (getNewConnection_read_ahead opts 50).
  - unfold sorted_disjoint. repeat constructor. cbn. lia.
  - reflexivity.
  - reflexivity.
  - reflexivity.
  - cbn. lia.
Defined.

End GetNewConnectionMore.

Module GetNewConnectionClaim.
Import Js Ranges Notions MissingSpec GetNewConnection.
Import RangesFacts RangesMore GetNewConnectionFacts.

(** The gaps the complement returns are not empty and do not touch. *)
Lemma gaps_canonical (intervals : list Range) (upto : Z) :
  sorted_disjoint intervals ->
  forall from,
    List.Forall (fun c => from <= start c /\ start c < end_ c /\ end_ c <= upto)
      intervals ->
    List.Forall (fun g => from <= start g /\ start g < end_ g)
      (gaps from intervals upto)
    /\ StronglySorted (fun a b => end_ a < start b) (gaps from intervals upto).
Proof.
  unfold sorted_disjoint.
  induction 1 as [|c intervals Hsorted IH Hc]; intros from Hall; cbn [gaps].
  - destruct (Z.ltb_spec from upto).
    + split; [repeat constructor; cbn; lia | repeat constructor].
    + split; constructor.
  - inversion Hall as [|? ? (Hfrom & Hne & Hupto) Hall']; subst.
    assert (Hall'' : List.Forall (fun c' => end_ c <= start c'
                                           /\ start c' < end_ c'
                                           /\ end_ c' <= upto) intervals).
    { apply Forall_forall. intros c' Hc'.
      rewrite Forall_forall in Hc, Hall'.
      pose proof (Hc c' Hc'). pose proof (Hall' c' Hc'). lia. }
    destruct (IH (end_ c) Hall'') as [Hgaps Hsep].
    assert (Hlater : List.Forall (fun g => from <= start g /\ start g < end_ g)
                       (gaps (end_ c) intervals upto)).
    { eapply Forall_impl; [exact Hgaps|]. cbn. intros g Hg. lia. }
    destruct (Z.ltb_spec from (start c)); cbn [app].
    + split.
      * constructor; [cbn; lia | exact Hlater].
      * constructor; [exact Hsep|].
        eapply Forall_impl; [exact Hgaps|]. cbn. intros g Hg. lia.
    + split; [exact Hlater | exact Hsep].
Qed.

(** Over sorted, disjoint downloaded ranges, what [missingRanges] returns
    is the missing portion. *)
Lemma missingRanges_missing_portion (R : Range) (downloaded : list Range) :
  sorted_disjoint downloaded ->
  missing_portion R downloaded (missingRanges R downloaded).
Proof.
  intros Hsorted. unfold missing_portion, missingRanges, complement.
  rewrite intersect_single.
  destruct (clipped_sorted R downloaded Hsorted) as (Hcs & Hcb).
  assert (Hbounds : List.Forall
                      (fun c => start R <= start c /\ start c < end_ c
                                /\ end_ c <= end_ R)
                      (omap (intersect_one R) downloaded)) by exact Hcb.
  destruct (gaps_canonical _ _ Hcs (start R) Hbounds) as [Hgaps Hsep].
  split; [|split; [exact Hsep|]].
  - eapply Forall_impl; [exact Hgaps|]. cbn. intros g Hg. lia.
  - intros x. rewrite (gaps_inside _ _ Hcs (start R) Hbounds).
    fold (inside x R). unfold downloaded_at. split.
    + intros [HR Hun]. split; [exact HR|]. intros (d & Hd & Hx).
      destruct (proj2 (clipped_covers R downloaded x HR)
                  (ex_intro _ d (conj Hd Hx))) as (c & Hc & Hxc).
      exact (Hun c Hc Hxc).
    + intros [HR Hun]. split; [exact HR|]. intros c Hc Hxc.
      apply Hun. apply (proj1 (clipped_covers R downloaded x HR)). eauto.
Qed.

(** Two lists of ranges that are not empty, in ascending order and do not
    touch, and that hold the same offsets, are the same list. *)
Lemma canonical_unique (L : list Range) :
  forall L',
    List.Forall (fun g => start g < end_ g) L ->
    StronglySorted (fun a b => end_ a < start b) L ->
    List.Forall (fun g => start g < end_ g) L' ->
    StronglySorted (fun a b => end_ a < start b) L' ->
    (forall x, (exists g, In g L /\ inside x g)
               <-> (exists g, In g L' /\ inside x g)) ->
    L = L'.
Proof.
  unfold inside.
  induction L as [|a L IH]; intros L' Hne Hsep Hne' Hsep' Hsame.
  - destruct L' as [|a' L']; [reflexivity|]. exfalso.
    inversion Hne' as [|? ? Ha' _]; subst.
    destruct (proj2 (Hsame (start a'))) as (g & [] & _).
    exists a'. split; [left; reflexivity | lia].
  - destruct L' as [|a' L'].
    { exfalso. inversion Hne as [|? ? Ha _]; subst.
      destruct (proj1 (Hsame (start a))) as (g & [] & _).
      exists a. split; [left; reflexivity | lia]. }
    inversion Hne as [|? ? Ha HneL]; subst.
    inversion Hne' as [|? ? Ha' HneL']; subst.
    inversion Hsep as [|? ? HsepL Hafter]; subst.
    inversion Hsep' as [|? ? HsepL' Hafter']; subst.
    rewrite List.Forall_forall in Hafter, Hafter', HneL, HneL'.
    assert (Hstart : start a = start a').
    { destruct (Z.lt_trichotomy (start a) (start a')) as [Hlt|[Heq|Hgt]];
        [exfalso | exact Heq | exfalso].
      - destruct (proj1 (Hsame (start a))) as (g & [<-|Hg] & Hx);
          [exists a; split; [left; reflexivity | lia] | lia |].
        pose proof (Hafter' g Hg). lia.
      - destruct (proj2 (Hsame (start a'))) as (g & [<-|Hg] & Hx);
          [exists a'; split; [left; reflexivity | lia] | lia |].
        pose proof (Hafter g Hg). lia. }
    assert (Hend : end_ a = end_ a').
    { destruct (Z.lt_trichotomy (end_ a) (end_ a')) as [Hlt|[Heq|Hgt]];
        [exfalso | exact Heq | exfalso].
      - destruct (proj2 (Hsame (end_ a))) as (g & [<-|Hg] & Hx);
          [exists a'; split; [left; reflexivity | lia] | lia |].
        pose proof (Hafter g Hg). lia.
      - destruct (proj1 (Hsame (end_ a'))) as (g & [<-|Hg] & Hx);
          [exists a; split; [left; reflexivity | lia] | lia |].
        pose proof (Hafter' g Hg). lia. }
    assert (Heq : a = a') by (destruct a, a'; cbn in *; congruence).
    subst a'. f_equal.
    apply IH; try assumption;
      try (apply List.Forall_forall; assumption).
    intros x. split.
    + intros (g & Hg & Hx).
      destruct (proj1 (Hsame x)) as (g' & [<-|Hg'] & Hx');
        [exists g; split; [right; exact Hg | exact Hx] | | eauto].
      pose proof (Hafter g Hg). lia.
    + intros (g & Hg & Hx).
      destruct (proj2 (Hsame x)) as (g' & [<-|Hg'] & Hx');
        [exists g; split; [right; exact Hg | exact Hx] | | eauto].
      pose proof (Hafter' g Hg). lia.
Qed.

Lemma missing_portion_unique (R : Range) (downloaded N : list Range) :
  sorted_disjoint downloaded ->
  missing_portion R downloaded N ->
  N = missingRanges R downloaded.
Proof.
  intros Hsorted (Hne & Hsep & Hsame).
  destruct (missingRanges_missing_portion R downloaded Hsorted)
    as (Hne' & Hsep' & Hsame').
  apply canonical_unique; try assumption.
  intros x. rewrite Hsame, Hsame'. reflexivity.
Qed.

(** C6, as the claim states it (for every call), fails.  With no current
    connection and a request that is not downloaded at all: a request
    longer than [maxRequestSize] makes the call throw, and a request past
    the end of the file gets no connection; and over downloaded ranges that
    are not sorted, the range returned is not [N[0]], the first missing
    sub-range, but one that starts inside a downloaded range. *)
Lemma getNewConnection_not_for_every_call :
  (missing_portion (mkRange 0 60) [] [mkRange 0 60]
   /\ should_start None [mkRange 0 60] (mkRange 0 60) 5
   /\ throws
        (getNewConnection
           {| currentRemainingRange := None;
              readRequestRange := Some (mkRange 0 60);
              downloadedRanges := []; lastResolvedCallbackEnd := None;
              maxRequestSize := Bounded 50; fileSize := 100;
              continueDownloadingThreshold := 5 |}))
  /\ (missing_portion (mkRange 12 20) [] [mkRange 12 20]
      /\ should_start None [mkRange 12 20] (mkRange 12 20) 5
      /\ getNewConnection
           {| currentRemainingRange := None;
              readRequestRange := Some (mkRange 12 20);
              downloadedRanges := []; lastResolvedCallbackEnd := None;
              maxRequestSize := Unlimited; fileSize := 10;
              continueDownloadingThreshold := 5 |}
         = Ok None)
  /\ (missing_portion (mkRange 10 20) [mkRange 15 18; mkRange 10 12]
        [mkRange 12 15; mkRange 18 20]
      /\ getNewConnection
           {| currentRemainingRange := None;
              readRequestRange := Some (mkRange 10 20);
              downloadedRanges := [mkRange 15 18; mkRange 10 12];
              lastResolvedCallbackEnd := None;
              maxRequestSize := Bounded 50; fileSize := 100;
              continueDownloadingThreshold := 5 |}
         = Ok (Some (mkRange 10 15))
      /\ mkRange 10 15 <> mkRange 12 15
      /\ downloaded_at 10 [mkRange 15 18; mkRange 10 12]).
Proof.
  assert (Hwhole : forall R, start R < end_ R -> missing_portion R [] [R]).
  { intros R HR. split; [repeat constructor; exact HR|].
    split; [repeat constructor|]. intros x. split.
    - intros (g & [<-|[]] & Hx). split; [exact Hx|]. intros (d & [] & _).
    - intros [Hx _]. exists R. split; [left; reflexivity | exact Hx]. }
  split; [|split].
  - split; [apply Hwhole; cbn; lia|]. split; [left; reflexivity|].
    eexists. reflexivity.
  - split; [apply Hwhole; cbn; lia|]. split; [left; reflexivity|].
    reflexivity.
  - split; [|split; [reflexivity|split; [discriminate|]]].
    + split; [repeat constructor; cbn; lia|].
      split; [repeat constructor; cbn; lia|].
      intros x. unfold downloaded_at, inside. split.
      * intros (g & [<-|[<-|[]]] & Hx); cbn in Hx;
          (split; [cbn; lia|]);
          intros (d & [<-|[<-|[]]] & Hd); cbn in Hd; lia.
      * cbn. intros [Hx Hun].
        destruct (Z.lt_ge_cases x 12);
          [exfalso; apply Hun; exists (mkRange 10 12);
           split; [right; left; reflexivity | cbn; lia]|].
        destruct (Z.lt_ge_cases x 15);
          [exists (mkRange 12 15); split; [left; reflexivity | cbn; lia]|].
        destruct (Z.lt_ge_cases x 18);
          [exfalso; apply Hun; exists (mkRange 15 18);
           split; [left; reflexivity | cbn; lia]|].
        exists (mkRange 18 20). split; [right; left; reflexivity | cbn; lia].
    + exists (mkRange 10 12).
      split; [right; left; reflexivity | unfold inside; cbn; lia].
Qed.

(** C6 (amended): for a call of [getNewConnection] with a pending read
    request [R] that ends within the file and is no longer than
    [maxRequestSize] (as [read] has checked), over downloaded ranges that
    are sorted and disjoint, and of which the missing portion is [N =
    first :: rest] (the sub-ranges of [R] that are not downloaded): a new
    connection range is returned exactly when there is no current
    connection, or the current connection's remaining range does not
    overlap [N], or it starts more than the threshold before [N[0]]; and
    the range returned is the first missing sub-range of [[N[0].start,
    fileSize)] when [maxRequestSize >= fileSize], otherwise [N[0]] with its
    end extended to [min(R.start + maxRequestSize, fileSize)] when
    [N[0].end = R.end], and otherwise exactly [N[0]]. *)
Theorem getNewConnection_with_read_request
    (current : option Range) (R : Range) (downloaded : list Range)
    (lastEnd : option Z) (maxRequestSize : size_limit) (fileSize threshold : Z)
    (first : Range) (rest : list Range) :
  let opts :=
    {| currentRemainingRange := current; readRequestRange := Some R;
       downloadedRanges := downloaded; lastResolvedCallbackEnd := lastEnd;
       GetNewConnection.maxRequestSize := maxRequestSize;
       GetNewConnection.fileSize := fileSize;
       continueDownloadingThreshold := threshold |} in
  missing_portion R downloaded (first :: rest) ->
  sorted_disjoint downloaded ->
  end_ R <= fileSize ->
  exceeds (end_ R - start R) maxRequestSize = false ->
  (should_start current (first :: rest) first threshold
   <-> exists target, getNewConnection opts = Ok (Some target))
  /\ (~ should_start current (first :: rest) first threshold ->
      getNewConnection opts = Ok None)
  /\ (forall target,
        getNewConnection opts = Ok (Some target) ->
        match maxRequestSize with
        | Unlimited =>
            exists N',
              missing_portion (mkRange (start first) fileSize) downloaded N'
              /\ head N' = Some target
        | Bounded limit =>
            if limit >=? fileSize then
              exists N',
                missing_portion (mkRange (start first) fileSize) downloaded N'
                /\ head N' = Some target
            else if end_ first =? end_ R then
              target = mkRange (start first) (Z.min (start R + limit) fileSize)
            else target = first
        end).
Proof.
  intros opts Hportion Hsorted Hfile Hsize.
  pose proof (missing_portion_unique _ _ _ Hsorted Hportion) as Hmissing.
  symmetry in Hmissing.
  destruct (with_read_request_over_missingRanges current R downloaded lastEnd
              maxRequestSize fileSize threshold first rest Hmissing Hsorted
              Hfile Hsize) as (Hiff & Hnone & Htarget).
  split; [exact Hiff|]. split; [exact Hnone|].
  intros target Ht. specialize (Htarget target Ht).
  pose proof (missingRanges_missing_portion (mkRange (start first) fileSize)
                downloaded Hsorted) as Hwhole.
  destruct maxRequestSize as [limit|]; [destruct (limit >=? fileSize)|];
    eauto.
Qed.

Lemma getNewConnection_with_read_request_witness :
  let opts :=
    {| currentRemainingRange := Some (mkRange 80 100);
       readRequestRange := Some (mkRange 10 20);
       downloadedRanges := [mkRange 0 12; mkRange 30 40];
       lastResolvedCallbackEnd := None;
       maxRequestSize := Bounded 50; fileSize := 100;
       continueDownloadingThreshold := 5 |} in
  (should_start (Some (mkRange 80 100)) [mkRange 12 20] (mkRange 12 20) 5
   <-> exists target, getNewConnection opts = Ok (Some target))
  /\ (mkRange 12 60 = mkRange 12 (Z.min (10 + 50) 100)).
Proof.
  intros opts.
  assert (Hsorted : sorted_disjoint [mkRange 0 12; mkRange 30 40]).
  { repeat constructor. cbn. lia. }
  assert (Hportion : missing_portion (mkRange 10 20)
                       [mkRange 0 12; mkRange 30 40] [mkRange 12 20]).
  { split; [repeat constructor; cbn; lia|]. split; [repeat constructor|].
    intros x. unfold downloaded_at, inside. split.
    - intros (g & [<-|[]] & Hx). cbn in Hx. split; [cbn; lia|].
      intros (d & [<-|[<-|[]]] & Hd); cbn in Hd; lia.
    - cbn. intros [Hx Hun]. exists (mkRange 12 20).
      split; [left; reflexivity|]. cbn.
      destruct (Z.lt_ge_cases x 12); [|lia].
      exfalso. apply Hun. exists (mkRange 0 12).
      split; [left; reflexivity | cbn; lia]. }
  destruct (getNewConnection_with_read_request (Some (mkRange 80 100))
              (mkRange 10 20) [mkRange 0 12; mkRange 30 40] None (Bounded 50)
              100 5 (mkRange 12 20) [] Hportion Hsorted
              ltac:(cbn; lia) eq_refl) as (Hiff & _ & Htarget).
  split; [exact Hiff|].
  apply (Htarget (mkRange 12 60)). reflexivity.
Defined.

End GetNewConnectionClaim.

Module CachedFilelikeMore.
Import Js Ranges Notions GetNewConnection CachedFilelike CacheNotions.
Import GetNewConnectionMore.

Lemma Forall_filter_bool {A : Type} (P : A -> Prop) (f : A -> bool)
    (l : list A) :
  List.Forall P l -> List.Forall P (List.filter f l).
Proof.
  induction 1 as [|x l Hx Hl IH]; cbn; [constructor|].
  destruct (f x); [constructor|]; assumption.
Qed.

Section WithBuffer.
Context {Buffer : Type} (B : BufferOps Buffer).

(** The [filter] of [#updateState], in one piece: the misses stay queued in
    their order, the hits are resolved in their order, and the end of the
    last hit is remembered. *)
Lemma resolve_hits_spec (st : State) (requests : list ReadRequest) :
  forall kept lastEnd settled,
    resolve_hits B st requests kept lastEnd settled
    = (kept ++ List.filter
                 (fun request => negb (is_hit B (virtualBuffer st) request))
                 requests,
       match last (List.filter (is_hit B (virtualBuffer st)) requests) with
       | Some request => Some (end_ (range request))
       | None => lastEnd
       end,
       settled ++ map (served B (virtualBuffer st))
                    (List.filter (is_hit B (virtualBuffer st)) requests)).
Proof.
  induction requests as [|request requests IH]; intros kept lastEnd settled.
  - cbn. rewrite !app_nil_r. reflexivity.
  - cbn [resolve_hits List.filter].
    change (hasData B (virtualBuffer st) (start (range request))
              (end_ (range request)))
      with (is_hit B (virtualBuffer st) request).
    destruct (is_hit B (virtualBuffer st) request); cbn [negb]; rewrite IH.
    + rewrite last_cons. cbn [map]. rewrite <- app_assoc.
      destruct (last _); reflexivity.
    + rewrite <- app_assoc. reflexivity.
Qed.

(** What one run of [#updateState] does to a cached file that is not
    closed. *)
Lemma updateState_spec (st : State) :
  closed st = false ->
  let buffer := virtualBuffer st in
  let kept :=
    List.filter (fun request => negb (is_hit B buffer request))
      (readRequests st) in
  let lastEnd :=
    match last (List.filter (is_hit B buffer) (readRequests st)) with
    | Some request => Some (end_ (range request))
    | None => lastResolvedCallbackEnd st
    end in
  let st' := fst (updateState B st) in
  readRequests st' = kept
  /\ lastResolvedCallbackEnd st' = lastEnd
  /\ resolved st'
     = resolved st
       ++ map (served B buffer) (List.filter (is_hit B buffer) (readRequests st))
  /\ virtualBuffer st' = buffer
  /\ fileSize st' = fileSize st
  /\ cacheSizeInBytes st' = cacheSizeInBytes st
  /\ (fetches st' = fetches st
      \/ exists opts target N,
           getNewConnection opts = Ok (Some target)
           /\ fileSize st = Some N /\ GetNewConnection.fileSize opts = N
           /\ downloadedRanges opts = getRangesWithData B buffer
           /\ readRequestRange opts = range <$> head kept
           /\ GetNewConnection.lastResolvedCallbackEnd opts = lastEnd
           /\ fetches st'
              = fetches st ++ [(start target, end_ target - start target)]).
Proof.
  intros Hopen buffer kept lastEnd. unfold updateState. rewrite Hopen.
  rewrite resolve_hits_spec. cbn [app]. fold buffer. fold kept. fold lastEnd.
  unfold size. cbn [fileSize with_requests].
  destruct (fileSize st) as [N|] eqn:HN; [|cbn; auto 10].
  destruct (N =? 0); [cbn; auto 10|].
  match goal with |- context [getNewConnection ?o] =>
    destruct (getNewConnection o) as [[target|]|message] eqn:Hnew;
    [|cbn; auto 10 ..];
    cbn; repeat (split; [first [reflexivity | exact HN]|]); right;
    exists o, target, N
  end.
  cbn. auto 10.
Qed.

Lemma read_accepted (fileReader_open : result Z) (st : State)
    (N offset length : Z) :
  fileSize st = Some N -> N <> 0 ->
  0 <= offset -> 0 < length ->
  exceeds length (cacheSizeInBytes st) = false ->
  offset + length <= N ->
  snd (read B fileReader_open offset length st)
  = fst (updateState B (enqueue offset length st)).
Proof.
  intros HN Hnz Hoff Hlen Hcache Hfit. unfold read.
  destruct (Z.eqb_spec length 0); [lia|].
  destruct (Z.ltb_spec offset 0); [lia|].
  destruct (Z.ltb_spec length 0); [lia|]. cbn [orb].
  rewrite Hcache. unfold open. rewrite HN. cbn beta iota.
  unfold size. rewrite HN.
  destruct (Z.eqb_spec N 0); [contradiction|].
  cbn [end_]. destruct (Z.gtb_spec (offset + length) N); [lia|].
  cbn zeta. unfold enqueue. rewrite HN.
  destruct (updateState B _) as [st3 [message|]]; reflexivity.
Qed.

(** X16: a [read] that passes its checks, on an opened cached file that is
    not closed, runs the queue once: the requests that the cache can serve,
    the new one included, are resolved at once with the cached bytes, in
    their order of arrival; exactly the ones it cannot serve stay queued,
    in that order; and when the new request is served, the end of its range
    becomes the point read-ahead continues from. *)
Theorem read_serves_hits (fileReader_open : result Z) (st : State)
    (N offset length : Z) :
  fileSize st = Some N -> N <> 0 -> closed st = false ->
  0 <= offset -> 0 < length ->
  exceeds length (cacheSizeInBytes st) = false ->
  offset + length <= N ->
  let request :=
    mkReadRequest (mkRange offset (offset + length)) (next_promise st) in
  let queue := readRequests st ++ [request] in
  let buffer := virtualBuffer st in
  let st' := snd (read B fileReader_open offset length st) in
  readRequests st'
  = List.filter (fun request => negb (is_hit B buffer request)) queue
  /\ resolved st'
     = resolved st ++ map (served B buffer) (List.filter (is_hit B buffer) queue)
  /\ virtualBuffer st' = buffer
  /\ (is_hit B buffer request = true ->
      lastResolvedCallbackEnd st' = Some (offset + length)
      /\ In (served B buffer request) (resolved st')).
Proof.
  intros HN Hnz Hopen Hoff Hlen Hcache Hfit request queue buffer st'.
  subst st'. rewrite (read_accepted _ _ N) by assumption.
  destruct (updateState_spec (enqueue offset length st) Hopen)
    as (Hq & Hl & Hr & Hb & _).
  cbn [enqueue readRequests virtualBuffer resolved lastResolvedCallbackEnd]
    in Hq, Hl, Hr, Hb.
  fold request in Hq, Hl, Hr. fold queue in Hq, Hl, Hr.
  fold buffer in Hq, Hl, Hr, Hb.
  split; [exact Hq|]. split; [exact Hr|]. split; [exact Hb|].
  intros Hhit. split.
  - rewrite Hl. unfold queue. rewrite List.filter_app. cbn [List.filter].
    rewrite Hhit, last_snoc. reflexivity.
  - rewrite Hr. apply in_or_app. right. apply in_map.
    apply List.filter_In. split; [|exact Hhit].
    unfold queue. apply in_or_app. right. left. reflexivity.
Qed.

Hypothesis ranges_sorted :
  forall buffer, sorted_disjoint (getRangesWithData B buffer).

Lemma updateState_in_file (st : State) :
  requests_in_file st -> requests_in_file (fst (updateState B st)).
Proof.
  intros Hinv. destruct (closed st) eqn:Hopen.
  { unfold updateState. rewrite Hopen. exact Hinv. }
  destruct (updateState_spec st Hopen)
    as (Hq & Hl & _ & _ & Hf & Hc & Hfetch).
  unfold requests_in_file in *. rewrite Hf, Hc, Hq, Hl.
  destruct (fileSize st) as [N|] eqn:HN.
  - destruct Hinv as (Hreq & Hlast & Hfetches).
    assert (Hkept : List.Forall
              (fun request =>
                 0 <= start (range request) < end_ (range request)
                 /\ end_ (range request) <= N
                 /\ exceeds (end_ (range request) - start (range request))
                      (cacheSizeInBytes st) = false)
              (List.filter
                 (fun request => negb (is_hit B (virtualBuffer st) request))
                 (readRequests st)))
      by (apply Forall_filter_bool, Hreq).
    assert (Hlast' : forall e,
              match last (List.filter (is_hit B (virtualBuffer st))
                            (readRequests st)) with
              | Some request => Some (end_ (range request))
              | None => lastResolvedCallbackEnd st
              end = Some e -> 0 <= e).
    { intros e. destruct (last _) as [request|] eqn:Hhit; [|apply Hlast].
      intros [= <-]. apply last_Some in Hhit as (front & Hhit).
      assert (Hin : In request (List.filter (is_hit B (virtualBuffer st))
                                  (readRequests st))).
      { rewrite Hhit. apply in_or_app. right. left. reflexivity. }
      apply List.filter_In in Hin as [Hin _].
      rewrite List.Forall_forall in Hreq. specialize (Hreq _ Hin). lia. }
    split; [exact Hkept|]. split; [exact Hlast'|].
    destruct Hfetch as [-> | (opts & target & N' & Hnew & [= <-] & HoN & Hod
                              & Hor & Hol & ->)]; [exact Hfetches|].
    apply Forall_app. split; [exact Hfetches|].
    constructor; [|constructor].
    assert (Hsorted : sorted_disjoint (downloadedRanges opts))
      by (rewrite Hod; apply ranges_sorted).
    assert (Hrequest : forall R, readRequestRange opts = Some R ->
                                 0 <= start R /\ end_ R <= GetNewConnection.fileSize opts).
    { intros R. rewrite Hor, HoN.
      destruct (List.filter _ (readRequests st)) as [|request kept];
        [discriminate|].
      cbn. intros [= <-]. inversion Hkept; subst. lia. }
    pose proof (target_within_file opts target Hsorted
                  (fun R HR => proj2 (Hrequest R HR)) Hnew) as Hin.
    pose proof (target_nonneg opts target Hsorted Hrequest
                  ltac:(rewrite Hol; exact Hlast') Hnew) as Hnn.
    rewrite HoN in Hin. unfold in_file. cbn [fst snd]. lia.
  - destruct Hinv as (Hreq & Hlast & Hfetches).
    rewrite Hreq. cbn. rewrite Hlast.
    destruct Hfetch as [-> | (opts & target & N' & _ & [=] & _)].
    auto.
Qed.

Lemma read_in_file (fileReader_open : result Z) (st : State)
    (offset length : Z) :
  requests_in_file st ->
  requests_in_file (snd (read B fileReader_open offset length st)).
Proof.
  intros Hinv. unfold read.
  destruct (Z.eqb_spec length 0); [exact Hinv|].
  destruct (Z.ltb_spec offset 0); [exact Hinv|].
  destruct (Z.ltb_spec length 0); [exact Hinv|]. cbn [orb].
  destruct (exceeds length (cacheSizeInBytes st)) eqn:Hcache; [exact Hinv|].
  assert (Hopened : match open B fileReader_open st with
                    | Ok st1 =>
                        requests_in_file st1
                        /\ cacheSizeInBytes st1 = cacheSizeInBytes st
                    | Throw _ => True
                    end).
  { unfold open. destruct (fileSize st) as [N|] eqn:HN; [auto|].
    destruct fileReader_open as [N|message]; cbn [bind]; [|exact I].
    unfold requests_in_file in *. rewrite HN in Hinv.
    destruct Hinv as (-> & -> & ->). cbn.
    repeat split; try constructor. discriminate. }
  destruct (open B fileReader_open st) as [st1|message]; [|exact Hinv].
  destruct Hopened as [Hinv1 Hc1].
  unfold size. destruct (fileSize st1) as [N|] eqn:HN; [|exact Hinv1].
  destruct (Z.eqb_spec N 0); [exact Hinv1|].
  cbn [end_]. destruct (Z.gtb_spec (offset + length) N); [exact Hinv1|].
  cbn zeta.
  assert (Hinv2 : requests_in_file (enqueue offset length st1)).
  { unfold requests_in_file in *. cbn [enqueue fileSize readRequests
      cacheSizeInBytes lastResolvedCallbackEnd fetches].
    rewrite HN in *. destruct Hinv1 as (Hreq & Hlast & Hfetches).
    split; [|split; assumption].
    apply Forall_app. split; [exact Hreq|]. constructor; [|constructor].
    cbn [range start end_].
    replace (offset + length - offset) with length by lia.
    rewrite Hc1. repeat split; try lia. exact Hcache. }
  pose proof (updateState_in_file _ Hinv2) as Hinv3.
  unfold enqueue in Hinv3. rewrite HN in Hinv3.
  destruct (updateState B _) as [st3 [message|]]; exact Hinv3.
Qed.

Lemma reads_in_file (calls : list (result Z * Z * Z)) :
  forall st, requests_in_file st -> requests_in_file (reads B calls st).
Proof.
  induction calls as [|[[fileReader_open offset] length] calls IH];
    intros st Hinv; [exact Hinv|].
  cbn [reads fold_left]. apply IH, read_in_file, Hinv.
Qed.

(** X17: whatever sequence of [read] calls a new cached file serves, one
    after the other with no stream event in between (each call with any
    outcome of opening the file), over a buffer that reports its data as
    sorted, disjoint ranges: every [fileReader.fetch(offset, length)] it has
    issued asks for at least one byte, at an offset that is not negative,
    and for no byte past the end of the file, so that the header
    [bytes=first-last] that [BrowserHttpReader.fetch] sends for it names a
    range of the file that is not empty; and nothing is fetched or queued
    before the file is opened. *)
Theorem reads_fetch_in_file (cache : option Z)
    (calls : list (result Z * Z * Z)) :
  let st := reads B calls (new_state B cache) in
  match fileSize st with
  | None => fetches st = [] /\ readRequests st = []
  | Some N =>
      forall offset length,
        In (offset, length) (fetches st) ->
        (0 <= offset /\ 0 < length /\ offset + length <= N)
        /\ 0 <= fst (BrowserHttpReader.range_header offset length)
             <= snd (BrowserHttpReader.range_header offset length)
        /\ snd (BrowserHttpReader.range_header offset length) < N
  end.
Proof.
  intros st.
  assert (Hinv : requests_in_file st).
  { apply reads_in_file. unfold requests_in_file. cbn. auto. }
  unfold requests_in_file in Hinv.
  destruct (fileSize st) as [N|].
  - destruct Hinv as (_ & _ & Hfetches). intros offset length Hin.
    rewrite List.Forall_forall in Hfetches.
    pose proof (Hfetches _ Hin) as Hfetch. unfold in_file in Hfetch.
    cbn [fst snd BrowserHttpReader.range_header] in *. lia.
  - destruct Hinv as (Hq & _ & Hf). auto.
Qed.

End WithBuffer.

Lemma read_serves_hits_witness :
  let st' := snd (read downloaded_prefix (Ok 10) 1 4 six_of_ten) in
  readRequests st' = [] /\ resolved st' = [(O, repeat x00%byte 4)]
  /\ lastResolvedCallbackEnd st' = Some 5
  /\ In (served downloaded_prefix 6 (mkReadRequest (mkRange 1 5) O))
       (resolved st').
Proof.
  intros st'. split; [reflexivity|]. split; [reflexivity|].
  destruct (read_serves_hits downloaded_prefix (Ok 10) six_of_ten 10 1 4
              eq_refl ltac:(lia) eq_refl ltac:(lia) ltac:(lia) eq_refl
              ltac:(lia)) as (_ & _ & _ & Hhit).
  exact (Hhit eq_refl).
Defined.

Lemma reads_fetch_in_file_witness :
  let calls :=
    [(Throw "offline", 2, 5); (Ok 10, 6, 3); (Ok 10, 8, 3); (Ok 10, 0, 3)] in
  let st := reads Fixtures.no_data calls (new_state Fixtures.no_data (Some 4)) in
  fetches st = [(6, 4)]
  /\ BrowserHttpReader.range_header 6 4 = (6, 9)
  /\ forall offset length,
       In (offset, length) (fetches st) ->
       (0 <= offset /\ 0 < length /\ offset + length <= 10)
       /\ 0 <= fst (BrowserHttpReader.range_header offset length)
            <= snd (BrowserHttpReader.range_header offset length)
       /\ snd (BrowserHttpReader.range_header offset length) < 10.
Proof.
  intros calls st. split; [vm_compute; reflexivity|]. split; [reflexivity|].
  pose proof (reads_fetch_in_file Fixtures.no_data
                ltac:(intros []; constructor) (Some 4) calls) as Hfetches.
  vm_compute in Hfetches. vm_compute. exact Hfetches.
Defined.

End CachedFilelikeMore.

Module BagSourceMore.
Import Js Rostime Types BagSource BagBackfill BagNotions.
Import JsMapFacts.

(** *** [messageIterator] *)

Lemma iterate_items (end_ : option Time) (src : Source)
    (msgs : list BagMessage) (ended : option string) :
  let items := fst (iterate end_ src msgs ended) in
  List.Forall (fun item => exists e, item = message_event None e) items
  /\ (forall t, end_ = Some t ->
        List.Forall (fun e => compare (receiveTime e) t <= 0) (events_of items))
  /\ sublist (map (fun e => (topic e, receiveTime e)) (events_of items))
       (map (fun m => (bag_topic m, timestamp m)) msgs)
  /\ (forall failure,
        snd (iterate end_ src msgs ended) = Some failure ->
        ended = Some failure
        \/ exists m readMessage,
             In m msgs
             /\ readersByConnectionId src !! bag_connectionId m = Some readMessage
             /\ readMessage (bag_data m) = Throw failure).
Proof.
  induction msgs as [|m msgs (IHshape & IHend & IHsub & IHfail)];
    cbn [iterate].
  - cbn. split; [constructor|].
    split; [intros t _; constructor|]. split; [constructor | auto].
  - assert (Hstop : let items := @nil IteratorResult in
              List.Forall (fun item => exists e, item = message_event None e) items
              /\ (forall t, end_ = Some t ->
                    List.Forall (fun e => compare (receiveTime e) t <= 0)
                      (events_of items))
              /\ sublist (map (fun e => (topic e, receiveTime e)) (events_of items))
                   (map (fun m => (bag_topic m, timestamp m)) (m :: msgs))).
    { cbn. split; [constructor|].
      split; [intros t _; constructor | apply sublist_nil_l]. }
    destruct Hstop as (Hs1 & Hs2 & Hs3).
    assert (Hlater : forall failure,
              (ended = Some failure
               \/ exists m0 readMessage,
                    In m0 msgs
                    /\ readersByConnectionId src !! bag_connectionId m0
                       = Some readMessage
                    /\ readMessage (bag_data m0) = Throw failure) ->
              ended = Some failure
              \/ exists m0 readMessage,
                   In m0 (m :: msgs)
                   /\ readersByConnectionId src !! bag_connectionId m0
                      = Some readMessage
                   /\ readMessage (bag_data m0) = Throw failure).
    { intros failure [H | (m0 & readMessage & Hin & Hrest)]; [left; exact H|].
      right. exists m0, readMessage. split; [right; exact Hin | exact Hrest]. }
    destruct (if end_ is Some e then compare (timestamp m) e >? 0 else false)
      eqn:Hpast; [cbn; repeat split; auto; discriminate|].
    destruct (datatypesByConnectionId src !! bag_connectionId m)
      as [[|a schemaName]|]; try (cbn; repeat split; auto; discriminate).
    destruct (readersByConnectionId src !! bag_connectionId m)
      as [readMessage|] eqn:Hreader.
    + destruct (readMessage (bag_data m)) as [parsed|err] eqn:Hread.
      * destruct (iterate end_ src msgs ended) as [items failure].
        cbn [fst snd] in *. split; [|split; [|split]].
        -- constructor; [eauto | exact IHshape].
        -- intros t Ht. cbn. constructor; [|apply IHend, Ht].
           cbn. rewrite Ht in Hpast. rewrite Z.gtb_ltb in Hpast.
           apply Z.ltb_ge in Hpast. exact Hpast.
        -- cbn. apply sublist_skip, IHsub.
        -- intros f Hf. apply Hlater, IHfail, Hf.
      * cbn [fst snd]. split; [exact Hs1|]. split; [exact Hs2|].
        split; [exact Hs3|]. intros f [= <-]. right.
        exists m, readMessage. split; [left; reflexivity | auto].
    + cbn [map]. split; [exact IHshape|]. split; [exact IHend|].
      split; [apply sublist_cons, IHsub|].
      intros f Hf. apply Hlater, IHfail, Hf.
Qed.

Lemma iterate_all_pass (end_ : option Time) (src : Source)
    (msgs : list BagMessage) (ended : option string) :
  List.Forall (passes end_ src) msgs ->
  snd (iterate end_ src msgs ended) = ended
  /\ map (fun e => (topic e, receiveTime e))
       (events_of (fst (iterate end_ src msgs ended)))
     = map (fun m => (bag_topic m, timestamp m)) msgs.
Proof.
  induction 1 as [|m msgs (Hend & (schemaName & Htype & Hne)
                           & (readMessage & parsed & Hreader & Hread)) Hrest
                   [IHnone IHall]];
    cbn [iterate]; [split; reflexivity|].
  assert (Hpast : (if end_ is Some e then compare (timestamp m) e >? 0
                   else false) = false).
  { destruct end_ as [t|]; [|reflexivity]. specialize (Hend t eq_refl).
    rewrite Z.gtb_ltb. apply Z.ltb_ge. exact Hend. }
  rewrite Hpast, Htype, Hreader, Hread.
  destruct schemaName as [|a schemaName]; [contradiction|].
  destruct (iterate end_ src msgs ended) as [items failure]. cbn [fst snd] in *.
  split; [exact IHnone|]. cbn. f_equal. exact IHall.
Qed.

(** X18: the bag source's [messageIterator] yields message events only,
    none received after [args.end], and in the order the bag's own iterator
    gives its messages, with their topics and timestamps; it ends with an
    exception only when the bag's iterator threw (as the first [next()]
    does when the library refuses the call) or a reader threw on one of
    the messages; and when every message of the bag's iterator is within
    [end], on a registered connection and read without an exception, none
    is left out and the iterator ends as the bag's iterator does: with its
    exception if it threw, without one otherwise. *)
Theorem bag_messageIterator_items (args : MessageIteratorArgs) (src : Source)
    (b : Bag) :
  bag src = Some b ->
  let outcome :=
    bag_messageIterator b (dom (topics args)) (reverse args) (start args) in
  let msgs := fst outcome in
  let items := fst (messageIterator args src) in
  List.Forall (fun item => exists e, item = message_event None e) items
  /\ (forall t, end_ args = Some t ->
        List.Forall (fun e => compare (receiveTime e) t <= 0) (events_of items))
  /\ sublist (map (fun e => (topic e, receiveTime e)) (events_of items))
       (map (fun m => (bag_topic m, timestamp m)) msgs)
  /\ (forall failure,
        snd (messageIterator args src) = Some failure ->
        snd outcome = Some failure
        \/ exists m readMessage,
             In m msgs
             /\ readersByConnectionId src !! bag_connectionId m = Some readMessage
             /\ readMessage (bag_data m) = Throw failure)
  /\ (List.Forall (passes (end_ args) src) msgs ->
      snd (messageIterator args src) = snd outcome
      /\ map (fun e => (topic e, receiveTime e)) (events_of items)
         = map (fun m => (bag_topic m, timestamp m)) msgs).
Proof.
  intros Hbag outcome msgs items. subst items msgs.
  unfold messageIterator. rewrite Hbag. fold outcome.
  destruct outcome as [msgs ended]. cbn [fst snd].
  destruct (iterate_items (end_ args) src msgs ended)
    as (Hshape & Hend & Hsub & Hfail).
  split; [exact Hshape|]. split; [exact Hend|]. split; [exact Hsub|].
  split; [exact Hfail|]. apply iterate_all_pass.
Qed.

Lemma bag_messageIterator_items_witness :
  let args :=
    {| topics := Fixtures.select ["/chatter"; "/odom"]; start := None;
       end_ := Some (mkTime 3 0); reverse := None |} in
  let items := fst (messageIterator args two_topics_source) in
  map (fun e => (topic e, receiveTime e)) (events_of items)
  = [("/chatter", mkTime 1 0); ("/odom", mkTime 2 0); ("/chatter", mkTime 3 0)]
  /\ List.Forall (fun e => compare (receiveTime e) (mkTime 3 0) <= 0)
       (events_of items).
Proof.
  intros args items. split; [vm_compute; reflexivity|].
  destruct (bag_messageIterator_items args two_topics_source two_topics
              ltac:(reflexivity)) as (_ & Hend & _).
  exact (Hend (mkTime 3 0) eq_refl).
Defined.

(** A bag that [initialize] accepts and whose iterator throws: the
    exception ends [messageIterator], which has yielded nothing. *)
Example messageIterator_of_failing_bag :
  bag no_messages_source = Some no_messages
  /\ messageIterator
       {| topics := Fixtures.select ["/chatter"]; start := None;
          end_ := None; reverse := None |} no_messages_source
     = ([], Some "cannot iterate").
Proof. split; reflexivity. Qed.

(** *** [initialize] *)

Section WithExternals.
Variable E : Externals.

Lemma register_connections_spec (conns : list (Z * Connection)) :
  forall topics src topics' src',
    register_connections E conns topics src = Ok (topics', src') ->
    List.NoDup (map fst topics) ->
    (forall k t, In (k, t) topics -> topic_name t = k) ->
    registered src ->
    List.NoDup (map fst topics')
    /\ (forall k t, In (k, t) topics' -> topic_name t = k)
    /\ registered src'
    /\ bag src' = bag src
    /\ (forall id, is_Some (datatypesByConnectionId src !! id) ->
                   is_Some (datatypesByConnectionId src' !! id))
    /\ (forall k, is_Some (JsMap.get k topics) -> is_Some (JsMap.get k topics'))
    /\ (forall id connection schemaName,
          In (id, connection) conns -> typed connection schemaName ->
          is_Some (datatypesByConnectionId src' !! id)
          /\ is_Some (JsMap.get (conn_topic connection) topics'))
    /\ (forall k t,
          In (k, t) topics' ->
          In (k, t) topics
          \/ exists id connection schemaName,
               In (id, connection) conns /\ typed connection schemaName
               /\ conn_topic connection = k
               /\ topic_schemaName t = Some schemaName).
Proof.
  induction conns as [|[id connection] conns IH];
    intros topics src topics' src'; cbn [register_connections].
  - intros [= <- <-] Hnd Hkeys Hreg. repeat (split; [solve [auto]|]).
    split; [intros ? ? ? [] | intros k t Hin; left; exact Hin].
  - assert (Hskip : forall schema,
              conn_type connection = schema ->
              (forall schemaName, ~ typed connection schemaName) ->
              register_connections E conns topics src = Ok (topics', src') ->
              List.NoDup (map fst topics) ->
              (forall k t, In (k, t) topics -> topic_name t = k) ->
              registered src ->
              List.NoDup (map fst topics')
              /\ (forall k t, In (k, t) topics' -> topic_name t = k)
              /\ registered src'
              /\ bag src' = bag src
              /\ (forall id, is_Some (datatypesByConnectionId src !! id) ->
                             is_Some (datatypesByConnectionId src' !! id))
              /\ (forall k, is_Some (JsMap.get k topics) ->
                            is_Some (JsMap.get k topics'))
              /\ (forall id0 connection0 schemaName,
                    In (id0, connection0) ((id, connection) :: conns) ->
                    typed connection0 schemaName ->
                    is_Some (datatypesByConnectionId src' !! id0)
                    /\ is_Some (JsMap.get (conn_topic connection0) topics'))
              /\ (forall k t,
                    In (k, t) topics' ->
                    In (k, t) topics
                    \/ exists id0 connection0 schemaName,
                         In (id0, connection0) ((id, connection) :: conns)
                         /\ typed connection0 schemaName
                         /\ conn_topic connection0 = k
                         /\ topic_schemaName t = Some schemaName)).
    { intros schema Hschema Huntyped Hrun Hnd Hkeys Hreg.
      destruct (IH _ _ _ _ Hrun Hnd Hkeys Hreg)
        as (H1 & H2 & H3 & H4 & H5 & H6 & H7 & H8).
      repeat (split; [assumption|]). split.
      - intros id0 connection0 schemaName [[= <- <-]|Hin] Htyped;
          [destruct (Huntyped _ Htyped) | eauto].
      - intros k t Hin. destruct (H8 k t Hin)
          as [Hold | (id0 & connection0 & schemaName & Hin0 & Hrest)];
          [left; exact Hold|].
        right. exists id0, connection0, schemaName.
        split; [right; exact Hin0 | exact Hrest]. }
    destruct (conn_type connection) as [[|a schemaName]|] eqn:Htype.
    + apply (Hskip _ eq_refl). intros s [Hs Hne]. congruence.
    + clear Hskip.
      destruct (MessageReader E (messageDefinition connection)) as [reader|m];
        cbn [bind]; [|discriminate].
      intros Hrun Hnd Hkeys Hreg.
      set (name := conn_topic connection) in *.
      set (full := String a schemaName) in *.
      match type of Hrun with
      | register_connections E conns ?t ?s = _ =>
          set (topics1 := t) in *; set (src1 := s) in *
      end.
      assert (Hnd1 : List.NoDup (map fst topics1)).
      { unfold topics1. destruct (JsMap.get name topics); [exact Hnd|].
        apply set_NoDup, Hnd. }
      assert (Hkeys1 : forall k t, In (k, t) topics1 -> topic_name t = k).
      { unfold topics1. intros k t Hin.
        destruct (JsMap.get name topics); [eauto|].
        apply In_set in Hin as [[-> ->]|Hin]; eauto. }
      assert (Hreg1 : registered src1).
      { intros id0 s0. unfold src1. cbn.
        destruct (decide (id0 = id)) as [->|Hne].
        - rewrite !lookup_insert_eq. intros [= <-].
          split; [discriminate | eauto].
        - rewrite !lookup_insert_ne by congruence. apply Hreg. }
      destruct (IH _ _ _ _ Hrun Hnd1 Hkeys1 Hreg1)
        as (H1 & H2 & H3 & H4 & H5 & H6 & H7 & H8).
      assert (Hname : is_Some (JsMap.get name topics1)).
      { unfold topics1. destruct (JsMap.get name topics) eqn:Hget;
          [rewrite Hget; eauto|].
        rewrite get_set_eq. eauto. }
      split; [exact H1|]. split; [exact H2|]. split; [exact H3|].
      split; [exact H4|]. split.
      { intros id0 Hsome. apply H5. unfold src1. cbn.
        destruct (decide (id0 = id)) as [->|Hne];
          [rewrite lookup_insert_eq; eauto
          | rewrite lookup_insert_ne by congruence; exact Hsome]. }
      split.
      { intros k Hsome. apply H6. unfold topics1.
        destruct (JsMap.get name topics) eqn:Hget; [exact Hsome|].
        destruct (decide (name = k)) as [<-|Hne];
          [rewrite get_set_eq; eauto | rewrite get_set_ne by exact Hne].
        exact Hsome. }
      split.
      { intros id0 connection0 s0 [[= <- <-]|Hin] Htyped; [|eauto].
        split; [|apply H6, Hname].
        apply H5. unfold src1. cbn. rewrite lookup_insert_eq. eauto. }
      intros k t Hin. destruct (H8 k t Hin)
        as [Hold | (id0 & connection0 & s0 & Hin0 & Hrest)].
      * unfold topics1 in Hold.
        destruct (JsMap.get name topics); [left; exact Hold|].
        apply In_set in Hold as [[-> ->]|Hold]; [|left; exact Hold].
        right. exists id, connection, full.
        split; [left; reflexivity|]. split; [split; [exact Htype|discriminate]|].
        split; reflexivity.
      * right. exists id0, connection0, s0.
        split; [right; exact Hin0 | exact Hrest].
    + apply (Hskip _ eq_refl). intros s [Hs Hne]. congruence.
Qed.

(** X19: when [initialize] of a bag source succeeds, the bag is open, the
    reported bounds are the bag's (zero where it has none), the topics
    have distinct names and each comes from a connection with a message
    type, whose type it reports; and every connection with a message type
    has its topic reported, and a reader and a non-empty datatype
    registered under its id, so that [messageIterator] does not stop at its
    messages. *)
Theorem bag_initialize_registers (input : DataSourceInput)
    (init : Initalization) (src : Source) :
  initialize E (new_source input) = Ok (init, src) ->
  exists opened,
    open_bag E input = Ok opened /\ bag src = Some opened
    /\ init_start init = default (mkTime 0 0) (bag_startTime opened)
    /\ init_end init = default (mkTime 0 0) (bag_endTime opened)
    /\ List.NoDup (map topic_name (init_topics init))
    /\ registered src
    /\ (forall t,
          In t (init_topics init) ->
          exists id connection schemaName,
            In (id, connection) (connections opened)
            /\ typed connection schemaName
            /\ conn_topic connection = topic_name t
            /\ topic_schemaName t = Some schemaName)
    /\ (forall id connection schemaName,
          In (id, connection) (connections opened) ->
          typed connection schemaName ->
          is_Some (datatypesByConnectionId src !! id)
          /\ exists t, In t (init_topics init)
                       /\ topic_name t = conn_topic connection).
Proof.
  unfold initialize. cbn [BagSource.input new_source].
  assert (Hopen : forall opened,
    open_bag E input = Ok opened ->
    match register_connections E (connections opened) []
            {| BagSource.input := input; bag := Some opened;
               readersByConnectionId := ∅; datatypesByConnectionId := ∅;
               messageSizeEstimateByTopic := ∅ |} with
    | Ok (topics, src') =>
        Ok ({| init_start := default (mkTime 0 0) (bag src' ≫= bag_startTime);
               init_end := default (mkTime 0 0) (bag src' ≫= bag_endTime);
               init_topics := JsMap.values topics |}, src')
    | Throw m => Throw ("Failed to initialize ROS bag: " ++ m)%string
    end = Ok (init, src) ->
    exists opened0,
      Ok opened = Ok opened0 /\ bag src = Some opened0
      /\ init_start init = default (mkTime 0 0) (bag_startTime opened0)
      /\ init_end init = default (mkTime 0 0) (bag_endTime opened0)
      /\ List.NoDup (map topic_name (init_topics init))
      /\ registered src
      /\ (forall t,
            In t (init_topics init) ->
            exists id connection schemaName,
              In (id, connection) (connections opened0)
              /\ typed connection schemaName
              /\ conn_topic connection = topic_name t
              /\ topic_schemaName t = Some schemaName)
      /\ (forall id connection schemaName,
            In (id, connection) (connections opened0) ->
            typed connection schemaName ->
            is_Some (datatypesByConnectionId src !! id)
            /\ exists t, In t (init_topics init)
                         /\ topic_name t = conn_topic connection)).
  { intros opened _.
    destruct (register_connections E _ _ _) as [[topics src']|m] eqn:Hrun;
      [|discriminate].
    intros [= <- <-].
    destruct (register_connections_spec _ _ _ _ _ Hrun)
      as (Hnd & Hkeys & Hreg & Hbag & _ & _ & Hall & Hfrom).
    { constructor. }
    { intros k t []. }
    { intros id s. cbn. rewrite lookup_empty. discriminate. }
    cbn [bag] in Hbag. exists opened. cbn [init_start init_end init_topics].
    rewrite Hbag. cbn [mbind option_bind].
    split; [reflexivity|]. split; [reflexivity|].
    split; [reflexivity|]. split; [reflexivity|].
    split.
    { replace (map topic_name (JsMap.values topics)) with (map fst topics);
        [exact Hnd|].
      unfold JsMap.values. rewrite map_map. apply map_ext_in.
      intros [k t] Hin. cbn. symmetry. apply Hkeys, Hin. }
    split; [exact Hreg|]. split.
    - intros t Hin. unfold JsMap.values in Hin.
      apply in_map_iff in Hin as ([k t'] & <- & Hin). cbn [snd].
      destruct (Hfrom k t' Hin)
        as [[] | (id & connection & s & Hc & Htyped & Hk & Hs)].
      exists id, connection, s. rewrite (Hkeys _ _ Hin). auto.
    - intros id connection s Hin Htyped.
      destruct (Hall id connection s Hin Htyped) as [Hd [t Ht]].
      split; [exact Hd|]. apply get_In in Ht.
      exists t. split; [|apply (Hkeys _ _ Ht)].
      unfold JsMap.values. apply in_map_iff. exists (conn_topic connection, t).
      split; [reflexivity | exact Ht]. }
  destruct input; try discriminate;
    (destruct (open_bag E _) as [opened|m] eqn:Ho; cbn [bind]; [|discriminate];
     intros Hrun; destruct (Hopen opened eq_refl Hrun) as (o & [= <-] & Hrest);
     exists opened; split; [reflexivity | exact Hrest]).
Qed.

End WithExternals.

Lemma bag_initialize_registers_witness :
  exists init,
    initialize two_topics_externals (new_source (input_url "two_topics.bag"))
    = Ok (init, two_topics_source)
    /\ map topic_name (init_topics init) = ["/chatter"; "/odom"]
    /\ List.NoDup (map topic_name (init_topics init))
    /\ registered two_topics_source.
Proof.
  eexists. split; [reflexivity|]. split; [reflexivity|].
  destruct (bag_initialize_registers two_topics_externals
              (input_url "two_topics.bag") _ two_topics_source
              ltac:(reflexivity))
    as (opened & _ & _ & _ & _ & Hnd & Hreg & _).
  split; [exact Hnd | exact Hreg].
Defined.

(** *** [getBackfillMessages] *)




End BagSourceMore.

Module ParseChannelMore.
Import Js ParseChannel ParseNotions.

Lemma from_step (index : nat) (d : MessageDefinition)
    (rest : list MessageDefinition) (rootName : option string)
    (datatypes : MessageDefinitionMap) :
  parsedDefinitionsToDatatypes_from index (d :: rest) rootName datatypes
  = parsedDefinitionsToDatatypes_from (S index) rest rootName
      match key_of rootName index d with
      | Some name =>
          <[name := mkMessageDefinition (Some name) (definitions d)]> datatypes
      | None => datatypes
      end.
Proof.
  cbn [parsedDefinitionsToDatatypes_from]. unfold key_of.
  destruct rootName as [root|], index as [|index]; reflexivity.
Qed.

Lemma from_lookup (rootName : option string) (k : string)
    (entry : MessageDefinition) (defs : list MessageDefinition) :
  forall index datatypes,
    parsedDefinitionsToDatatypes_from index defs rootName datatypes !! k
    = Some entry
    <-> (exists i d,
            defs !! i = Some d
            /\ key_of rootName (index + i) d = Some k
            /\ entry = mkMessageDefinition (Some k) (definitions d)
            /\ forall j d', (i < j)%nat -> defs !! j = Some d' ->
                            key_of rootName (index + j) d' <> Some k)
        \/ (datatypes !! k = Some entry
            /\ forall j d', defs !! j = Some d' ->
                            key_of rootName (index + j) d' <> Some k).
Proof.
  induction defs as [|d rest IH]; intros index datatypes.
  - cbn [parsedDefinitionsToDatatypes_from]. split.
    + intros H. right. split; [exact H|]. intros j d' Hj.
      rewrite lookup_nil in Hj. discriminate.
    + intros [(i & d & Hi & _) | [H _]]; [|exact H].
      rewrite lookup_nil in Hi. discriminate.
  - rewrite from_step, IH. clear IH. split.
    + intros [(i & d0 & Hi & Hkey & -> & Hlast) | [Hacc Hnone]].
      * left. exists (S i), d0. split; [exact Hi|].
        split; [rewrite <- Hkey; f_equal; lia|]. split; [reflexivity|].
        intros [|j] d' Hlt Hj; [lia|]. cbn in Hj.
        replace (index + S j)%nat with (S index + j)%nat by lia.
        apply (Hlast j d'); [lia | exact Hj].
      * assert (Hrest : forall j d', rest !! j = Some d' ->
                  key_of rootName (index + S j) d' <> Some k).
        { intros j d' Hj.
          replace (index + S j)%nat with (S index + j)%nat by lia.
          apply (Hnone j d' Hj). }
        destruct (key_of rootName index d) as [name|] eqn:Hkey.
        -- destruct (decide (name = k)) as [->|Hne].
           ++ rewrite lookup_insert_eq in Hacc. injection Hacc as <-.
              left. exists O, d. split; [reflexivity|].
              split; [rewrite Nat.add_0_r; exact Hkey|].
              split; [reflexivity|].
              intros [|j] d' Hlt Hj; [lia|]. apply Hrest. exact Hj.
           ++ rewrite lookup_insert_ne in Hacc by exact Hne.
              right. split; [exact Hacc|].
              intros [|j] d' Hj.
              ** cbn in Hj. injection Hj as <-. rewrite Nat.add_0_r, Hkey.
                 congruence.
              ** apply Hrest. exact Hj.
        -- right. split; [exact Hacc|].
           intros [|j] d' Hj.
           ** cbn in Hj. injection Hj as <-. rewrite Nat.add_0_r, Hkey.
              discriminate.
           ** apply Hrest. exact Hj.
    + intros [(i & d0 & Hi & Hkey & -> & Hlast) | [Hacc Hnone]].
      * destruct i as [|i].
        -- cbn in Hi. injection Hi as <-. rewrite Nat.add_0_r in Hkey.
           right. rewrite Hkey, lookup_insert_eq. split; [reflexivity|].
           intros j d' Hj.
           replace (S index + j)%nat with (index + S j)%nat by lia.
           apply (Hlast (S j) d'); [lia | exact Hj].
        -- left. exists i, d0. cbn in Hi. split; [exact Hi|].
           split; [rewrite <- Hkey; f_equal; lia|]. split; [reflexivity|].
           intros j d' Hlt Hj.
           replace (S index + j)%nat with (index + S j)%nat by lia.
           apply (Hlast (S j) d'); [lia | exact Hj].
      * right. split.
        -- pose proof (Hnone O d eq_refl) as Hd. rewrite Nat.add_0_r in Hd.
           destruct (key_of rootName index d) as [name|]; [|exact Hacc].
           rewrite lookup_insert_ne by congruence. exact Hacc.
        -- intros j d' Hj.
           replace (S index + j)%nat with (index + S j)%nat by lia.
           apply (Hnone (S j) d'). exact Hj.
Qed.

(** X21: the table [parsedDefinitionsToDatatypes] builds holds an entry
    under [k] exactly when some definition is stored under [k] (under the
    root name for the first definition, when a root name is given, under
    its own name otherwise); the entry has the fields of the last such
    definition, and is named [k]: a later definition replaces an earlier
    one of the same name, also the root. *)
Theorem parsedDefinitionsToDatatypes_entries
    (parsedDefinitions : list MessageDefinition) (rootName : option string)
    (k : string) (entry : MessageDefinition) :
  parsedDefinitionsToDatatypes parsedDefinitions rootName !! k = Some entry
  <-> exists i d,
        parsedDefinitions !! i = Some d
        /\ key_of rootName i d = Some k
        /\ entry = mkMessageDefinition (Some k) (definitions d)
        /\ forall j d', (i < j)%nat -> parsedDefinitions !! j = Some d' ->
                        key_of rootName j d' <> Some k.
Proof.
  unfold parsedDefinitionsToDatatypes. rewrite from_lookup. cbn [Nat.add].
  split.
  - intros [H | [H _]]; [exact H|]. rewrite lookup_empty in H. discriminate.
  - intros H. left. exact H.
Qed.

Example root_replaced_by_later_definition :
  let defs :=
    [mkMessageDefinition (Some "pkg/Inner") [mkField "int32" "a" None];
     mkMessageDefinition (Some "pkg/Root") [mkField "string" "b" None]] in
  parsedDefinitionsToDatatypes defs (Some "pkg/Root") !! "pkg/Root"
  = Some (mkMessageDefinition (Some "pkg/Root") [mkField "string" "b" None])
  /\ parsedDefinitionsToDatatypes defs (Some "pkg/Root") !! "pkg/Inner" = None.
Proof. split; reflexivity. Qed.

End ParseChannelMore.
